(** * Synapse: identity resolution, memory pipeline and intelligence layer

    A shallow embedding of the TypeScript services of the Synapse
    multi-channel memory system, with the properties its specification
    states about them.

    Conventions of the embedding.
    - A JavaScript [number] that only counts things (a length, a number of
      matches) is a [nat]; a number the code takes square roots or quotients
      of is an exact real [R]; a number that is only stored and compared (a
      link confidence, a draw of [Math.random]) is an exact rational [Q].
      The code itself computes in IEEE binary64: module [Double] gives the
      scoring arithmetic on the kernel's floats, to show where rounding
      makes the two readings differ and where it does not.
    - A JavaScript string is a [string] of ASCII characters: [length] is the
      number of characters and [toLowerCase] maps [A-Z] to [a-z].
    - [Math.random], [Date.now], the hashing collaborator and the store
      clients are inputs of the functions that call them.
    - Logging is left out: it never changes a result. *)

From Stdlib Require Import Reals Lra Lia List String Ascii Bool Arith.
From Stdlib Require Import QArith Qround ZArith DecimalString.
From Stdlib Require Floats.
From Stdlib Require Import Permutation Sorted.
Import ListNotations.

Set Implicit Arguments.

(** ** JavaScript strings, the regular expressions the services use, sets *)

Module Js.

Local Open Scope string_scope.
Local Open Scope nat_scope.

Definition code (c : ascii) : nat := nat_of_ascii c.

Definition in_range (lo hi : string) (c : ascii) : bool :=
  match lo, hi with
  | String l _, String h _ => (code l <=? code c) && (code c <=? code h)
  | _, _ => false
  end.

Definition is_upper (c : ascii) : bool := in_range "A" "Z" c.
Definition is_lower (c : ascii) : bool := in_range "a" "z" c.
Definition is_digit (c : ascii) : bool := in_range "0" "9" c.

Definition one_of (s : string) (c : ascii) : bool :=
  existsb (Ascii.eqb c) (list_ascii_of_string s).

(** [\w] *)
Definition is_word (c : ascii) : bool :=
  is_upper c || is_lower c || is_digit c || one_of "_" c.

(** [\s], on ASCII: space, tab, line feed, vertical tab, form feed,
    carriage return *)
Definition is_space (c : ascii) : bool :=
  (code c =? 32) || ((9 <=? code c) && (code c <=? 13)).

(** [.] : any character but a line terminator *)
Definition is_dot (c : ascii) : bool :=
  negb ((code c =? 10) || (code c =? 13)).

Definition lower_char (c : ascii) : ascii :=
  if is_upper c then ascii_of_nat (code c + 32) else c.

(** [String.prototype.toLowerCase] *)
Fixpoint toLowerCase (s : string) : string :=
  match s with
  | EmptyString => EmptyString
  | String c s' => String (lower_char c) (toLowerCase s')
  end.

(** [String.prototype.includes] *)
Fixpoint includes (text kw : string) : bool :=
  if prefix kw text then true
  else match text with
       | EmptyString => false
       | String _ t => includes t kw
       end.

(** Number of characters of [s] in the class [p]:
    [(s.match(/[...]/g) || []).length] for a one-character class. *)
Fixpoint count_class (p : ascii -> bool) (s : string) : nat :=
  match s with
  | EmptyString => 0
  | String c s' => (if p c then 1 else 0) + count_class p s'
  end.

(** The regular expressions of the services: every quantifier they use
    applies to a character class, so repetition is [Rep min p], the greedy
    [p{min,}]. *)
Inductive regex : Type :=
| Cls (p : ascii -> bool)
| Rep (min : nat) (p : ascii -> bool)
| Seq (r1 r2 : regex)
| Alt (r1 r2 : regex)
| WordB
| Eps.

(** [\b] between the previous character and the rest of the input *)
Definition at_boundary (prev : option ascii) (s : string) : bool :=
  let before := match prev with Some c => is_word c | None => false end in
  let after := match s with String c _ => is_word c | EmptyString => false end in
  xorb before after.

(** Greedy repetition with backtracking: take as many characters as
    possible, give them back one at a time while the continuation fails. *)
Fixpoint rep_match (A : Type) (p : ascii -> bool) (min : nat)
    (prev : option ascii) (s : string)
    (k : option ascii -> string -> option A) : option A :=
  let stop := match min with O => k prev s | S _ => None end in
  match s with
  | String c s' =>
      if p c then
        match rep_match p (pred min) (Some c) s' k with
        | Some r => Some r
        | None => stop
        end
      else stop
  | EmptyString => stop
  end.

(** Backtracking matcher in continuation-passing style: alternatives are
    tried left to right, as the JavaScript engine does. *)
Fixpoint rmatch (A : Type) (r : regex) (prev : option ascii) (s : string)
    (k : option ascii -> string -> option A) : option A :=
  match r with
  | Cls p =>
      match s with
      | String c s' => if p c then k (Some c) s' else None
      | EmptyString => None
      end
  | Rep min p => rep_match p min prev s k
  | Seq r1 r2 => rmatch r1 prev s (fun prev' s' => rmatch r2 prev' s' k)
  | Alt r1 r2 =>
      match rmatch r1 prev s k with
      | Some x => Some x
      | None => rmatch r2 prev s k
      end
  | WordB => if at_boundary prev s then k prev s else None
  | Eps => k prev s
  end.

(** The match that starts exactly here, if any: the matched text. *)
Definition match_here (r : regex) (prev : option ascii) (s : string)
    : option string :=
  match rmatch r prev s (fun _ rest => Some rest) with
  | Some rest => Some (substring 0 (length s - length rest) s)
  | None => None
  end.

(** [s.match(r)] for a global [r]: the successive leftmost matches. [skip]
    counts the characters of the last match still to step over. The result
    is the empty list where JavaScript gives [null]; every caller treats
    the two alike. *)
Fixpoint match_all_from (r : regex) (prev : option ascii) (s : string)
    (skip : nat) : list string :=
  match s with
  | EmptyString =>
      match skip, match_here r prev s with
      | O, Some m => [m]
      | _, _ => []
      end
  | String c s' =>
      match skip with
      | S n => match_all_from r (Some c) s' n
      | O =>
          match match_here r prev s with
          | Some m => m :: match_all_from r (Some c) s' (length m - 1)
          | None => match_all_from r (Some c) s' 0
          end
      end
  end.

Definition match_all (r : regex) (s : string) : list string :=
  match_all_from r None s 0.

(** [r.test(s)] for a regular expression without the global flag *)
Fixpoint test_from (r : regex) (prev : option ascii) (s : string) : bool :=
  match match_here r prev s with
  | Some _ => true
  | None =>
      match s with
      | EmptyString => false
      | String c s' => test_from r (Some c) s'
      end
  end.

Definition test (r : regex) (s : string) : bool := test_from r None s.

(** A literal under the [i] flag *)
Fixpoint lit_i (s : string) : regex :=
  match s with
  | EmptyString => Eps
  | String c s' =>
      Seq (Cls (fun x => Ascii.eqb (lower_char x) (lower_char c))) (lit_i s')
  end.

(** [a.*b] under the [i] flag *)
Definition then_i (a b : string) : regex :=
  Seq (lit_i a) (Seq (Rep 0 is_dot) (lit_i b)).

(** [s.split(/\s+/)]: the pieces between maximal runs of white space; a
    piece is empty only at the very start or the very end. *)
Fixpoint split_ws_from (cur : string) (in_gap : bool) (s : string)
    : list string :=
  match s with
  | EmptyString => [cur]
  | String c s' =>
      if is_space c then
        if in_gap then split_ws_from cur true s'
        else cur :: split_ws_from EmptyString true s'
      else split_ws_from (cur ++ String c EmptyString) false s'
  end.

Definition split_ws (s : string) : list string :=
  split_ws_from EmptyString false s.

Definition mem (x : string) (l : list string) : bool :=
  existsb (String.eqb x) l.

(** [new Set(l)]: the distinct elements, in order of first occurrence *)
Fixpoint set_add_all (acc l : list string) : list string :=
  match l with
  | [] => acc
  | x :: l' => set_add_all (if mem x acc then acc else acc ++ [x]) l'
  end.

Definition mkSet (l : list string) : list string := set_add_all [] l.

(** [a.join(sep)] *)
Fixpoint join (sep : string) (l : list string) : string :=
  match l with
  | [] => EmptyString
  | [x] => x
  | x :: l' => x ++ sep ++ join sep l'
  end.

(** Truthiness of a string: non-empty *)
Definition truthy (s : string) : bool :=
  match s with EmptyString => false | _ => true end.

(** [String.prototype.trim], on ASCII white space *)
Fixpoint trimStart (s : string) : string :=
  match s with
  | String c s' => if is_space c then trimStart s' else s
  | EmptyString => EmptyString
  end.

Fixpoint trimEnd (s : string) : string :=
  match s with
  | EmptyString => EmptyString
  | String c s' =>
      match trimEnd s' with
      | EmptyString => if is_space c then EmptyString else String c EmptyString
      | rest => String c rest
      end
  end.

Definition trim (s : string) : string := trimEnd (trimStart s).

(** [s.split(/[...]+/)] for a character class [p]: as [split_ws_from],
    with [p] for the white space. *)
Fixpoint split_runs_from (p : ascii -> bool) (cur : string) (in_gap : bool)
    (s : string) : list string :=
  match s with
  | EmptyString => [cur]
  | String c s' =>
      if p c then
        if in_gap then split_runs_from p cur true s'
        else cur :: split_runs_from p EmptyString true s'
      else split_runs_from p (cur ++ String c EmptyString) false s'
  end.

Definition split_runs (p : ascii -> bool) (s : string) : list string :=
  split_runs_from p EmptyString false s.

(** [s.replace(/\s+/g, "-")] *)
Fixpoint replace_ws_from (in_gap : bool) (s : string) : string :=
  match s with
  | EmptyString => EmptyString
  | String c s' =>
      if is_space c then
        if in_gap then replace_ws_from true s'
        else String "-"%char (replace_ws_from true s')
      else String c (replace_ws_from false s')
  end.

Definition replace_ws (s : string) : string := replace_ws_from false s.

(** [/^r$/.test(s)]: the match starts at the first character and ends at
    the last. *)
Definition test_whole (r : regex) (s : string) : bool :=
  match rmatch r None s
          (fun _ rest =>
             match rest with EmptyString => Some tt | _ => None end) with
  | Some _ => true
  | None => false
  end.

(** [a.sort(compare)], a stable sort: [stays y x] says that [compare(y, x)]
    is not positive, so that [y], which came first, stays before [x]. *)
Fixpoint insert_sorted (A : Type) (stays : A -> A -> bool) (x : A)
    (sorted : list A) : list A :=
  match sorted with
  | [] => [x]
  | y :: rest =>
      if stays y x then y :: insert_sorted stays x rest else x :: sorted
  end.

Definition sort (A : Type) (stays : A -> A -> bool) (l : list A) : list A :=
  fold_left (fun sorted x => insert_sorted stays x sorted) l [].

(** [a.slice(-n)] *)
Definition last_n (A : Type) (n : nat) (l : list A) : list A :=
  skipn (List.length l - n) l.

(** [a.map((x, idx) => f(x, idx))] *)
Fixpoint mapi_from (A B : Type) (f : A -> nat -> B) (idx : nat) (l : list A)
    : list B :=
  match l with
  | [] => []
  | x :: l' => f x idx :: mapi_from f (S idx) l'
  end.

Definition mapi (A B : Type) (f : A -> nat -> B) (l : list A) : list B :=
  mapi_from f 0 l.

(** A number printed in a template literal *)
Definition decimal (z : Z) : string :=
  DecimalString.NilZero.string_of_int (Z.to_int z).

End Js.

(** ** Data model ([lib/types/memory.ts]) *)

Module Types.

Inductive MessageRole : Type := user | assistant | system.

Record Message : Type := {
  ts : Z;
  role : MessageRole;
  text : string;
  summary : string
}.

(** An absent optional field is [None]. *)
Record SessionMetadata : Type := {
  ip : option string;
  geo : option string;
  lang : option string;
  user_agent : option string
}.

Record MultiVectorEmbedding : Type := {
  intent_vector : list R;
  frustration_vector : list R;
  product_vector : list R
}.

Record RedisSessionData : Type := {
  messages : list Message;
  session_intent_vector : list R;
  frustration_level : R
}.

Record RedisVectorPoint : Type := {
  rv_session_id : string;
  rv_pseudo_user_id : string;
  rv_channel : string;
  rv_intent_vector : list R;
  rv_frustration_vector : list R;
  rv_product_vector : list R;
  rv_timestamp : Z
}.

Record QdrantMemoryPoint : Type := {
  qm_pseudo_user_id : string;
  qm_summary : string;
  qm_intent_vector : list R;
  qm_tone_vector : list R;
  qm_product_vector : list R;
  qm_entities : list string;
  qm_last_seen : Z
}.

(** [RedisVectorPoint | QdrantMemoryPoint] *)
Inductive HistoricalPoint : Type :=
| OfRedis (p : RedisVectorPoint)
| OfQdrant (p : QdrantMemoryPoint).

Definition pseudo_user_id (h : HistoricalPoint) : string :=
  match h with
  | OfRedis p => rv_pseudo_user_id p
  | OfQdrant p => qm_pseudo_user_id p
  end.

Definition historical_intent_vector (h : HistoricalPoint) : list R :=
  match h with
  | OfRedis p => rv_intent_vector p
  | OfQdrant p => qm_intent_vector p
  end.

End Types.

(** ** Identity resolution ([lib/services/identity-linker.ts]) *)

Module IdentityLinker.

Import Types.
Local Open Scope R_scope.

Definition MATCH_THRESHOLD : R := 0.82.

Record Weights : Type := {
  vector : R;
  metadata : R;
  behavior : R;
  identifier : R
}.

Definition WEIGHTS : Weights :=
  {| vector := 0.35; metadata := 0.25; behavior := 0.2; identifier := 0.2 |}.

(** The loop of [cosineSimilarity]: the three running sums. It runs over
    the indices of [vec1]; the caller has checked that the lengths agree. *)
Fixpoint cosine_loop (vec1 vec2 : list R) (dotProduct norm1 norm2 : R)
    : R * R * R :=
  match vec1, vec2 with
  | x :: vec1', y :: vec2' =>
      cosine_loop vec1' vec2'
        (dotProduct + x * y) (norm1 + x * x) (norm2 + y * y)
  | _, _ => (dotProduct, norm1, norm2)
  end.

Definition cosineSimilarity (vec1 vec2 : list R) : R :=
  if negb (Nat.eqb (List.length vec1) (List.length vec2)) then 0
  else
    let '(dotProduct, norm1, norm2) := cosine_loop vec1 vec2 0 0 0 in
    let denominator := sqrt norm1 * sqrt norm2 in
    if Req_dec_T denominator 0 then 0
    else dotProduct / denominator.

Definition calculateVectorSimilarity (incomingEmbedding : MultiVectorEmbedding)
    (historicalVectors : list HistoricalPoint) : R :=
  match historicalVectors with
  | [] => 0
  | _ =>
      let similarities :=
        map (fun historical =>
               cosineSimilarity (intent_vector incomingEmbedding)
                 (historical_intent_vector historical))
            historicalVectors in
      fold_left (fun sum sim => sum + sim) similarities 0
        / INR (List.length similarities)
  end.

(** [a && b] on two optional strings: both present and non-empty *)
Definition both_present (a b : option string) : bool :=
  match a, b with
  | Some x, Some y => Js.truthy x && Js.truthy y
  | _, _ => false
  end.

Definition same_field (a b : option string) : bool :=
  match a, b with
  | Some x, Some y => String.eqb x y
  | _, _ => false
  end.

(** One of the three [if] blocks of [calculateMetadataSimilarity], on the
    pair [(matches, total)]. *)
Definition compare_field (a b : option string) (acc : nat * nat)
    : nat * nat :=
  let '(matches, total) := acc in
  if both_present a b then
    (if same_field a b then S matches else matches, S total)
  else (matches, total).

Definition calculateMetadataSimilarity
    (incomingMetadata historicalMetadata : option SessionMetadata) : R :=
  match incomingMetadata, historicalMetadata with
  | Some inc, Some hist =>
      let acc := compare_field (ip inc) (ip hist) (O, O) in
      let acc := compare_field (geo inc) (geo hist) acc in
      let '(matches, total) := compare_field (lang inc) (lang hist) acc in
      if (0 <? total)%nat then INR matches / INR total else 0
  | _, _ => 0
  end.

Record WritingStyle : Type := {
  avgLength : R;
  punctuationRatio : R;
  capitalizationRatio : R
}.

Definition is_punctuation (c : ascii) : bool := Js.one_of ".!?,;:" c.

(** The running totals of [analyzeWritingStyle]:
    [totalLength], [punctuationCount], [capitalizationCount], [totalChars] *)
Definition style_step (acc : nat * nat * nat * nat) (msg : Message)
    : nat * nat * nat * nat :=
  let '(totalLength, punctuationCount, capitalizationCount, totalChars) :=
    acc in
  let t := text msg in
  ((totalLength + String.length t)%nat,
   (punctuationCount + Js.count_class is_punctuation t)%nat,
   (capitalizationCount + Js.count_class Js.is_upper t)%nat,
   (totalChars + String.length t)%nat).

Definition analyzeWritingStyle (messages : list Message) : WritingStyle :=
  match messages with
  | [] => {| avgLength := 0; punctuationRatio := 0; capitalizationRatio := 0 |}
  | _ =>
      let '(totalLength, punctuationCount, capitalizationCount, totalChars) :=
        fold_left style_step messages (O, O, O, O) in
      {| avgLength := INR totalLength / INR (List.length messages);
         punctuationRatio :=
           if (0 <? totalChars)%nat
           then INR punctuationCount / INR totalChars else 0;
         capitalizationRatio :=
           if (0 <? totalChars)%nat
           then INR capitalizationCount / INR totalChars else 0 |}
  end.

Definition calculateBehaviorSimilarity
    (currentMessages historicalMessages : list Message) : R :=
  match currentMessages, historicalMessages with
  | [], _ | _, [] => 0
  | _, _ =>
      let currentStyle := analyzeWritingStyle currentMessages in
      let historicalStyle := analyzeWritingStyle historicalMessages in
      let lengthSimilarity :=
        1 - Rmin 1
              (Rabs (avgLength currentStyle - avgLength historicalStyle)
               / 100) in
      let punctuationSimilarity :=
        1 - Rabs (punctuationRatio currentStyle
                  - punctuationRatio historicalStyle) in
      let capitalizationSimilarity :=
        1 - Rabs (capitalizationRatio currentStyle
                  - capitalizationRatio historicalStyle) in
      (lengthSimilarity + punctuationSimilarity + capitalizationSimilarity)
      / 3
  end.

(** [/\b([A-Z]{2,}\d+|[A-Z]+-\d+)\b/g] *)
Definition orderPattern : Js.regex :=
  Js.Seq Js.WordB
    (Js.Seq
       (Js.Alt (Js.Seq (Js.Rep 2 Js.is_upper) (Js.Rep 1 Js.is_digit))
               (Js.Seq (Js.Rep 1 Js.is_upper)
                  (Js.Seq (Js.Cls (Js.one_of "-")) (Js.Rep 1 Js.is_digit))))
       Js.WordB).

(** [/\b\d{10,}\b/g] *)
Definition phonePattern : Js.regex :=
  Js.Seq Js.WordB (Js.Seq (Js.Rep 10 Js.is_digit) Js.WordB).

Definition is_alnum (c : ascii) : bool :=
  Js.is_upper c || Js.is_lower c || Js.is_digit c.

(** [/\b[A-Za-z0-9._%+-]+@[A-Za-z0-9.-]+\.[A-Z|a-z]{2,}\b/g] *)
Definition emailPattern : Js.regex :=
  Js.Seq Js.WordB
    (Js.Seq (Js.Rep 1 (fun c => is_alnum c || Js.one_of "._%+-" c))
       (Js.Seq (Js.Cls (Js.one_of "@"))
          (Js.Seq (Js.Rep 1 (fun c => is_alnum c || Js.one_of ".-" c))
             (Js.Seq (Js.Cls (Js.one_of "."))
                (Js.Seq
                   (Js.Rep 2
                      (fun c => Js.is_upper c || Js.is_lower c
                                || Js.one_of "|" c))
                   Js.WordB))))).

Definition extractIdentifiers (t : string) : list string :=
  let identifiers := [] in
  let identifiers := identifiers ++ Js.match_all orderPattern t in
  let identifiers := identifiers ++ Js.match_all phonePattern t in
  let identifiers := identifiers ++ Js.match_all emailPattern t in
  identifiers.

(** The body of the [forEach] of [calculateIdentifierOverlap] *)
Definition overlap_step (currentIdentifiers : list string) (maxOverlap : R)
    (historicalText : string) : R :=
  let historicalIdentifiers := Js.mkSet (extractIdentifiers historicalText) in
  let intersection :=
    Js.mkSet
      (filter (fun id => Js.mem id historicalIdentifiers) currentIdentifiers)
  in
  let union := Js.mkSet (currentIdentifiers ++ historicalIdentifiers) in
  let overlap :=
    if (0 <? List.length union)%nat
    then INR (List.length intersection) / INR (List.length union)
    else 0 in
  Rmax maxOverlap overlap.

Definition calculateIdentifierOverlap (currentText : string)
    (historicalTexts : list string) : R :=
  match historicalTexts with
  | [] => 0
  | _ =>
      let currentIdentifiers := Js.mkSet (extractIdentifiers currentText) in
      match currentIdentifiers with
      | [] => 0
      | _ => fold_left (overlap_step currentIdentifiers) historicalTexts 0
      end
  end.

(** The weighted sum computed inside [findExistingPseudoUserId] *)
Definition matchScore (vectorSim metadataSim behaviorSim identifierSim : R)
    : R :=
  vector WEIGHTS * vectorSim + metadata WEIGHTS * metadataSim
  + behavior WEIGHTS * behaviorSim + identifier WEIGHTS * identifierSim.

Record Signals : Type := {
  vectorSim : R;
  metadataSim : R;
  behaviorSim : R;
  identifierSim : R
}.

(** The four scores [findExistingPseudoUserId] computes before it decides *)
Definition signals (embeddings : MultiVectorEmbedding)
    (metadata : option SessionMetadata) (currentMessages : list Message)
    (historicalVectors : list HistoricalPoint)
    (historicalMetadata : option SessionMetadata)
    (historicalMessages : list Message) : Signals :=
  let currentText := Js.join " " (map text currentMessages) in
  let historicalTexts := map text historicalMessages in
  {| vectorSim := calculateVectorSimilarity embeddings historicalVectors;
     metadataSim := calculateMetadataSimilarity metadata historicalMetadata;
     behaviorSim :=
       calculateBehaviorSimilarity currentMessages historicalMessages;
     identifierSim := calculateIdentifierOverlap currentText historicalTexts |}.

Definition score_of (s : Signals) : R :=
  matchScore (vectorSim s) (metadataSim s) (behaviorSim s) (identifierSim s).

(** [string | null] is [option string]. *)
Definition findExistingPseudoUserId (embeddings : MultiVectorEmbedding)
    (metadata : option SessionMetadata) (currentMessages : list Message)
    (historicalVectors : list HistoricalPoint)
    (historicalMetadata : option SessionMetadata)
    (historicalMessages : list Message) : option string :=
  match historicalVectors with
  | [] => None
  | firstMatch :: _ =>
      let s := signals embeddings metadata currentMessages historicalVectors
                 historicalMetadata historicalMessages in
      if Rgt_dec (score_of s) MATCH_THRESHOLD
      then Some (pseudo_user_id firstMatch)
      else None
  end.

(** *** Minting a pseudo_user_id

    [Math.random] is the sequence [rand] of its successive results, read at
    the cursor [pos]; a function that draws returns the advanced cursor. *)

Definition chars : string := "0123456789ABCDEF".
Definition segments : list nat := [8; 4; 4; 4; 12]%nat.

(** [chars[i]] appended to a string: one character, or the text of
    [undefined] when [i] is not an index of [chars]. *)
Definition char_at (s : string) (i : Z) : string :=
  if (i <? 0)%Z then "undefined"%string
  else match String.get (Z.to_nat i) s with
       | Some c => String c EmptyString
       | None => "undefined"%string
       end.

(** [Math.floor(Math.random() * chars.length)] at cursor [pos] *)
Definition random_index (rand : nat -> Q) (pos : nat) : Z :=
  Qfloor (rand pos * inject_Z (Z.of_nat (String.length chars))).

(** The inner [for] loop: [length] characters appended to [segment] *)
Fixpoint segment_loop (rand : nat -> Q) (pos : nat) (length : nat)
    (segment : string) : string * nat :=
  match length with
  | O => (segment, pos)
  | S n =>
      segment_loop rand (S pos) n
        (segment ++ char_at chars (random_index rand pos))
  end.

(** [segments.map(...)], left to right *)
Fixpoint map_segments (rand : nat -> Q) (pos : nat) (lengths : list nat)
    : list string * nat :=
  match lengths with
  | [] => ([], pos)
  | length :: rest =>
      let '(segment, pos1) := segment_loop rand pos length EmptyString in
      let '(others, pos2) := map_segments rand pos1 rest in
      (segment :: others, pos2)
  end.

Definition generatePseudoUserId (rand : nat -> Q) (pos : nat)
    : string * nat :=
  let '(parts, pos') := map_segments rand pos segments in
  (Js.join "-" parts, pos').

(** [linkIdentity]. [historicalVectors] may be [undefined] ([None]). The
    scoring functions above are total, so the [catch] branch, which mints a
    new id as well, is never entered. *)
Definition linkIdentity (rand : nat -> Q) (pos : nat)
    (embeddings : MultiVectorEmbedding) (metadata : option SessionMetadata)
    (historicalVectors : option (list HistoricalPoint))
    (currentMessages historicalMessages : list Message)
    (historicalMetadata : option SessionMetadata) : string * nat :=
  match historicalVectors with
  | None | Some [] => generatePseudoUserId rand pos
  | Some hv =>
      match findExistingPseudoUserId embeddings metadata currentMessages hv
              historicalMetadata historicalMessages with
      | Some existingPseudoUserId =>
          if Js.truthy existingPseudoUserId
          then (existingPseudoUserId, pos)
          else generatePseudoUserId rand pos
      | None => generatePseudoUserId rand pos
      end
  end.

(** The format the tests expect:
    [/^[0-9A-F]{8}-[0-9A-F]{4}-[0-9A-F]{4}-[0-9A-F]{4}-[0-9A-F]{12}$/] *)
Definition is_hex_upper (c : ascii) : bool :=
  Js.is_digit c || Js.in_range "A" "F" c.

Fixpoint all_hex (n : nat) (s : string) : option string :=
  match n with
  | O => Some s
  | S n' =>
      match s with
      | String c s' => if is_hex_upper c then all_hex n' s' else None
      | EmptyString => None
      end
  end.

Fixpoint groups_ok (lengths : list nat) (s : string) : bool :=
  match lengths with
  | [] => false
  | [n] =>
      match all_hex n s with
      | Some EmptyString => true
      | _ => false
      end
  | n :: rest =>
      match all_hex n s with
      | Some (String c s') => Ascii.eqb c "-"%char && groups_ok rest s'
      | _ => false
      end
  end.

Definition well_formed_id (s : string) : bool := groups_ok segments s.

(** *** The identity map

    The MongoDB collection [user_identity_map] is the list of its documents
    in insertion order; [findOne] and [updateOne] act on the first document
    the filter selects. The database is taken to answer: when a call to it
    throws, [linkIdentityToMap] catches the error and changes nothing. *)

Record LinkedSession : Type := {
  channel : string;
  channel_user_id : string;
  confidence : Q
}.

Record IdentityMapEntry : Type := {
  entry_pseudo_user_id : string;
  linked_sessions : list LinkedSession;
  updated_at : Z
}.

Definition Collection : Type := list IdentityMapEntry.

Definition findOne (filter : IdentityMapEntry -> bool)
    (collection : Collection) : option IdentityMapEntry :=
  find filter collection.

Definition insertOne (entry : IdentityMapEntry) (collection : Collection)
    : Collection :=
  collection ++ [entry].

Fixpoint updateOne (filter : IdentityMapEntry -> bool)
    (set : IdentityMapEntry -> IdentityMapEntry) (collection : Collection)
    : Collection :=
  match collection with
  | [] => []
  | e :: rest =>
      if filter e then set e :: rest else e :: updateOne filter set rest
  end.

Definition by_pseudo_user_id (pseudoUserId : string) (e : IdentityMapEntry)
    : bool :=
  String.eqb (entry_pseudo_user_id e) pseudoUserId.

Definition same_session (channel0 hashedChannelUserId : string)
    (session : LinkedSession) : bool :=
  String.eqb (channel session) channel0
  && String.eqb (channel_user_id session) hashedChannelUserId.

(** [linkedSessions.findIndex(...)]: [None] is the result -1. *)
Fixpoint findIndex (p : LinkedSession -> bool) (l : list LinkedSession)
    : option nat :=
  match l with
  | [] => None
  | x :: l' =>
      if p x then Some O
      else match findIndex p l' with
           | Some i => Some (S i)
           | None => None
           end
  end.

(** [l[i].confidence = c] *)
Fixpoint set_confidence (i : nat) (c : Q) (l : list LinkedSession)
    : list LinkedSession :=
  match l, i with
  | [], _ => []
  | x :: l', O =>
      {| channel := channel x; channel_user_id := channel_user_id x;
         confidence := c |} :: l'
  | x :: l', S i' => x :: set_confidence i' c l'
  end.

Definition confidence_at (i : nat) (l : list LinkedSession) : Q :=
  match nth_error l i with
  | Some x => confidence x
  | None => 0%Q
  end.

(** The new value of [linkedSessions] in the branch where the entry exists *)
Definition upsert_session (channel0 hashedChannelUserId : string)
    (confidence0 : Q) (linkedSessions : list LinkedSession)
    : list LinkedSession :=
  match findIndex (same_session channel0 hashedChannelUserId)
          linkedSessions with
  | Some existingIndex =>
      if Qlt_le_dec (confidence_at existingIndex linkedSessions) confidence0
      then set_confidence existingIndex confidence0 linkedSessions
      else linkedSessions
  | None =>
      linkedSessions
      ++ [{| channel := channel0; channel_user_id := hashedChannelUserId;
             confidence := confidence0 |}]
  end.

(** [linkIdentityToMap]; [nowMs] is the reading of [Date.now()]. *)
Definition linkIdentityToMap (hashIdentifier : string -> string)
    (nowMs : Z) (collection : Collection)
    (pseudoUserId channel0 channelUserId : string) (confidence0 : Q)
    : Collection :=
  let hashedChannelUserId := hashIdentifier channelUserId in
  match findOne (by_pseudo_user_id pseudoUserId) collection with
  | Some existing =>
      let linkedSessions :=
        upsert_session channel0 hashedChannelUserId confidence0
          (linked_sessions existing) in
      updateOne (by_pseudo_user_id pseudoUserId)
        (fun e =>
           {| entry_pseudo_user_id := entry_pseudo_user_id e;
              linked_sessions := linkedSessions;
              updated_at := (nowMs / 1000)%Z |})
        collection
  | None =>
      insertOne
        {| entry_pseudo_user_id := pseudoUserId;
           linked_sessions :=
             [{| channel := channel0;
                 channel_user_id := hashedChannelUserId;
                 confidence := confidence0 |}];
           updated_at := (nowMs / 1000)%Z |}
        collection
  end.

(** [getLinkedSessions] *)
Definition getLinkedSessions (collection : Collection)
    (pseudoUserId : string) : list LinkedSession :=
  match findOne (by_pseudo_user_id pseudoUserId) collection with
  | Some entry => linked_sessions entry
  | None => []
  end.

(** [findPseudoUserId], the reverse lookup. Its filter,
    [{ "linked_sessions.channel": channel,
       "linked_sessions.channel_user_id": hashedChannelUserId }],
    names two paths into the array [linked_sessions]; MongoDB takes each
    condition on its own: some element has the channel, and some element
    has the hashed id. *)
Definition mentions (channel0 hashedChannelUserId : string)
    (e : IdentityMapEntry) : bool :=
  existsb (fun session => String.eqb (channel session) channel0)
    (linked_sessions e)
  && existsb
       (fun session =>
          String.eqb (channel_user_id session) hashedChannelUserId)
       (linked_sessions e).

(** [entry?.pseudo_user_id || null] *)
Definition findPseudoUserId (hashIdentifier : string -> string)
    (collection : Collection) (channel0 channelUserId : string)
    : option string :=
  let hashedChannelUserId := hashIdentifier channelUserId in
  match findOne (mentions channel0 hashedChannelUserId) collection with
  | Some entry =>
      if Js.truthy (entry_pseudo_user_id entry)
      then Some (entry_pseudo_user_id entry)
      else None
  | None => None
  end.

End IdentityLinker.

(** ** Urgency ([lib/services/urgency-predictor.ts]) *)

Module UrgencyPredictor.

Import Types.
Local Open Scope R_scope.

Inductive UrgencyLevel : Type := low | medium | high | critical.

Record UrgencyFactors : Type := {
  frustration : R;
  repetition : R;
  time_sensitivity : R;
  escalation_keywords : R
}.

Record UrgencyScore : Type := {
  score : R;
  level : UrgencyLevel;
  factors : UrgencyFactors
}.

Record Thresholds : Type := {
  th_low : R;
  th_medium : R;
  th_high : R;
  th_critical : R
}.

Definition URGENCY_THRESHOLDS : Thresholds :=
  {| th_low := 0.0; th_medium := 0.3; th_high := 0.6; th_critical := 0.85 |}.

(** The only quotient of the services whose divisor is not tested first.
    Embeddings have a fixed positive dimension; on an empty vector
    JavaScript divides 0 by 0, and the statements below leave that case
    out. *)
Definition calculateFrustrationUrgency (frustrationVector : list R) : R :=
  let magnitude :=
    sqrt (fold_left (fun sum val => sum + val * val) frustrationVector 0)
    / INR (List.length frustrationVector) in
  Rmin 1.0 (magnitude * 2).

(** [intersection.size / union.size > 0.3], with an exact quotient *)
Definition isSimilarMessage (text1 text2 : string) : bool :=
  let words1 := Js.mkSet (Js.split_ws (Js.toLowerCase text1)) in
  let words2 := Js.mkSet (Js.split_ws (Js.toLowerCase text2)) in
  let intersection := Js.mkSet (filter (fun w => Js.mem w words2) words1) in
  let union := Js.mkSet (words1 ++ words2) in
  (0 <? List.length union)%nat
  && (if Rgt_dec (INR (List.length intersection) / INR (List.length union))
           0.3
      then true else false).

Definition is_user (r : MessageRole) : bool :=
  match r with user => true | _ => false end.

Definition calculateRepetitionUrgency (currentMessage : Message)
    (shortTermMemory : option RedisSessionData)
    (longTermMemories : list QdrantMemoryPoint) : R :=
  let repetitionScore := 0 in
  let repetitionScore :=
    match shortTermMemory with
    | Some stm =>
        if (1 <? List.length (messages stm))%nat then
          let similarMessages :=
            List.length
              (filter (fun msg =>
                         is_user (role msg)
                         && isSimilarMessage (text msg) (text currentMessage))
                      (messages stm)) in
          repetitionScore + Rmin 0.5 (INR similarMessages * 0.15)
        else repetitionScore
    | None => repetitionScore
    end in
  let repetitionScore :=
    if (0 <? List.length longTermMemories)%nat then
      let similarHistorical :=
        List.length
          (filter (fun mem =>
                     isSimilarMessage (qm_summary mem) (text currentMessage))
                  longTermMemories) in
      repetitionScore + Rmin 0.5 (INR similarHistorical * 0.1)
    else repetitionScore in
  Rmin 1.0 repetitionScore.

(** [keywords.filter((keyword) => lowerText.includes(keyword)).length] *)
Definition count_keywords (keywords : list string) (lowerText : string)
    : nat :=
  List.length (filter (fun keyword => Js.includes lowerText keyword) keywords).

Definition timeSensitiveKeywords : list string :=
  ["urgent"; "asap"; "immediately"; "now"; "today"; "deadline"; "expired";
   "overdue"; "late"; "emergency"; "critical"; "important"]%string.

Definition calculateTimeSensitivityUrgency (t : string) : R :=
  let lowerText := Js.toLowerCase t in
  let matches := count_keywords timeSensitiveKeywords lowerText in
  Rmin 1.0 (INR matches * 0.2).

Definition escalationKeywords : list string :=
  ["manager"; "supervisor"; "escalate"; "complaint"; "unacceptable";
   "terrible"; "worst"; "cancel"; "refund"; "legal"; "sue"; "lawyer"]%string.

Definition calculateEscalationKeywordUrgency (t : string) : R :=
  let lowerText := Js.toLowerCase t in
  let matches := count_keywords escalationKeywords lowerText in
  Rmin 1.0 (INR matches * 0.25).

Definition level_eqb (a b : UrgencyLevel) : bool :=
  match a, b with
  | low, low | medium, medium | high, high | critical, critical => true
  | _, _ => false
  end.

Definition level_of (urgencyScore : R) : UrgencyLevel :=
  if Rge_dec urgencyScore (th_critical URGENCY_THRESHOLDS) then critical
  else if Rge_dec urgencyScore (th_high URGENCY_THRESHOLDS) then high
  else if Rge_dec urgencyScore (th_medium URGENCY_THRESHOLDS) then medium
  else low.

Definition calculateUrgency (currentMessage : Message)
    (embeddings : MultiVectorEmbedding)
    (shortTermMemory : option RedisSessionData)
    (longTermMemories : list QdrantMemoryPoint) : UrgencyScore :=
  let factors0 :=
    {| frustration :=
         calculateFrustrationUrgency (frustration_vector embeddings);
       repetition :=
         calculateRepetitionUrgency currentMessage shortTermMemory
           longTermMemories;
       time_sensitivity :=
         calculateTimeSensitivityUrgency (text currentMessage);
       escalation_keywords :=
         calculateEscalationKeywordUrgency (text currentMessage) |} in
  let urgencyScore :=
    frustration factors0 * 0.35 + repetition factors0 * 0.3
    + time_sensitivity factors0 * 0.2 + escalation_keywords factors0 * 0.15 in
  {| score := Rmin 1.0 (Rmax 0.0 urgencyScore);
     level := level_of urgencyScore;
     factors := factors0 |}.



End UrgencyPredictor.

(** ** Problems ([lib/services/problem-extractor.ts]) *)

Module ProblemExtractor.

Import Types UrgencyPredictor.
Local Open Scope R_scope.

(** The fields [id], [summary], [category], [entities] and
    [occurrence_count] of the source record are left out: nothing below
    reads them and none of them enters the criticality. *)
Record ExtractedProblem : Type := {
  description : string;
  criticality : R;
  can_agent_solve : bool;
  urgency : UrgencyScore;
  first_seen : Z;
  last_seen : Z;
  channels : list string
}.

Definition AGENT_SOLVABLE_PATTERNS : list Js.regex :=
  [Js.then_i "order" "status"; Js.lit_i "tracking"; Js.then_i "where" "order";
   Js.then_i "update" "account"; Js.then_i "change" "password";
   Js.then_i "forgot" "password"; Js.then_i "how" "to"; Js.then_i "what" "is"].

Definition HUMAN_REQUIRED_PATTERNS : list Js.regex :=
  [Js.lit_i "refund"; Js.then_i "cancel" "order"; Js.lit_i "complaint";
   Js.lit_i "legal"; Js.lit_i "sue"; Js.lit_i "manager"; Js.lit_i "supervisor";
   Js.lit_i "escalate"; Js.lit_i "unacceptable"; Js.lit_i "demand"].

Definition problemIndicators : list string :=
  ["problem"; "issue"; "error"; "broken"; "not working"; "wrong"; "delayed";
   "missing"; "failed"; "can't"; "cannot"; "help"; "support";
   "complaint"]%string.

Definition isProblemMessage (t : string) : bool :=
  let lowerText := Js.toLowerCase t in
  existsb (fun indicator => Js.includes lowerText indicator) problemIndicators.

Definition canAgentSolveProblem (t : string) (urgency0 : UrgencyScore)
    : bool :=
  if level_eqb (level urgency0) critical || level_eqb (level urgency0) high
  then false
  else if existsb (fun pattern => Js.test pattern t) HUMAN_REQUIRED_PATTERNS
  then false
  else if existsb (fun pattern => Js.test pattern t) AGENT_SOLVABLE_PATTERNS
  then true
  else level_eqb (level urgency0) low || level_eqb (level urgency0) medium.

Definition criticalKeywords : list string :=
  ["refund"; "cancel"; "legal"; "complaint"; "unacceptable"]%string.

Definition has_critical_keyword (t : string) : bool :=
  existsb (fun keyword => Js.includes (Js.toLowerCase t) keyword)
    criticalKeywords.

Definition calculateCriticality (message : Message) (urgency0 : UrgencyScore)
    (canAgentSolve : bool) (longTermMemories : list QdrantMemoryPoint) : R :=
  let criticality0 := score urgency0 in
  let criticality0 :=
    if negb canAgentSolve then Rmin 1.0 (criticality0 + 0.3)
    else criticality0 in
  let criticality0 :=
    if (0 <? List.length longTermMemories)%nat
    then Rmin 1.0 (criticality0 + 0.2)
    else criticality0 in
  let criticality0 :=
    if has_critical_keyword (text message)
    then Rmin 1.0 (criticality0 + 0.2)
    else criticality0 in
  Rmin 1.0 criticality0.

(** Used by [countProblemOccurrences] only, which fills the
    [occurrence_count] field. *)
Definition isSimilarProblem (text1 text2 : string) : bool :=
  let words1 := Js.mkSet (Js.split_ws (Js.toLowerCase text1)) in
  let words2 := Js.mkSet (Js.split_ws (Js.toLowerCase text2)) in
  let intersection := Js.mkSet (filter (fun w => Js.mem w words2) words1) in
  let union := Js.mkSet (words1 ++ words2) in
  (0 <? List.length union)%nat
  && (if Rgt_dec (INR (List.length intersection) / INR (List.length union))
           0.4
      then true else false).

Definition extractProblem (currentMessage : Message)
    (shortTermMemory : option RedisSessionData)
    (longTermMemories : list QdrantMemoryPoint) (urgency0 : UrgencyScore)
    (channel : string) : option ExtractedProblem :=
  if negb (isProblemMessage (text currentMessage)) then None
  else
    let canAgentSolve := canAgentSolveProblem (text currentMessage) urgency0 in
    let criticality0 :=
      calculateCriticality currentMessage urgency0 canAgentSolve
        longTermMemories in
    Some {| description := text currentMessage;
            criticality := criticality0;
            can_agent_solve := canAgentSolve;
            urgency := urgency0;
            first_seen := ts currentMessage;
            last_seen := ts currentMessage;
            channels := [channel] |}.

End ProblemExtractor.

(** ** Store reads and writes ([lib/services/memory-storage.ts])

    A call that may throw returns an [outcome]. The clients of the three
    stores are records of such calls; [getRedisClient], [getVectorIndex]
    and [getQdrantClient] may throw as well. *)

Module MemoryStorage.

Import Types.
Local Open Scope string_scope.

Inductive StorageType : Type := redis | qdrant | mongodb.

(** What a [catch] clause can receive: an [Error], the [StorageError] of
    [lib/utils/errors.ts], or a value that is not an [Error]. *)
Inductive Thrown : Type :=
| Error (message : string)
| StorageError (message : string) (storageType : StorageType)
| NotAnError (asString : string).

(** [error instanceof Error ? error.message : String(error)] *)
Definition message_of (error : Thrown) : string :=
  match error with
  | Error m => m
  | StorageError m _ => m
  | NotAnError s => s
  end.

Inductive outcome (A : Type) : Type :=
| Returned (a : A)
| Threw (e : Thrown).

Arguments Returned {A} a.
Arguments Threw {A} e.

Definition bind {A B : Type} (m : outcome A) (f : A -> outcome B)
    : outcome B :=
  match m with
  | Returned a => f a
  | Threw e => Threw e
  end.

Notation "x <- m ;; k" := (bind m (fun x => k))
  (at level 61, m at next level, right associativity).

(** [try { body } catch (error) { handler }] *)
Definition try_catch {A : Type} (body : outcome A)
    (handler : Thrown -> outcome A) : outcome A :=
  match body with
  | Returned a => Returned a
  | Threw e => handler e
  end.

Record RedisClient : Type := {
  set : string -> string -> Z -> outcome unit;
  get : string -> outcome (option string)
}.

Record VectorMetadata : Type := {
  vm_session_id : string;
  vm_pseudo_user_id : string;
  vm_channel : string;
  vm_frustration_vector : list R;
  vm_product_vector : list R;
  vm_timestamp : Z
}.

Record UpsertRequest : Type := {
  up_id : string;
  up_vector : list R;
  up_metadata : VectorMetadata
}.

(** A query result whose [metadata] is [undefined] has [None]. *)
Record QueryResult : Type := { result_metadata : option VectorMetadata }.

Record VectorIndex : Type := {
  upsert : UpsertRequest -> outcome unit;
  query : list R -> nat -> outcome (list QueryResult)
}.

Record QdrantPayload : Type := {
  pl_pseudo_user_id : string;
  pl_summary : string;
  pl_entities : list string;
  pl_last_seen : Z;
  pl_tone_vector : list R;
  pl_product_vector : list R
}.

Record QdrantPoint : Type := {
  point_id : string;
  point_vector : list R;
  point_payload : QdrantPayload
}.

(** The search asks for payloads, so every result carries one. *)
Record SearchResult : Type := { result_payload : QdrantPayload }.

Record QdrantClient : Type := {
  qdrant_upsert : string -> list QdrantPoint -> outcome unit;
  search : string -> list R -> nat -> outcome (list SearchResult)
}.

Record Env : Type := {
  getRedisClient : outcome RedisClient;
  getVectorIndex : outcome VectorIndex;
  getQdrantClient : outcome QdrantClient;
  JSON_stringify : RedisSessionData -> string;
  JSON_parse : string -> outcome RedisSessionData
}.

Definition REDIS_TTL_SECONDS : Z := 48 * 60 * 60.

Definition getVectorKey (sessionId : string) : string :=
  "vector:" ++ sessionId.

Definition storeShortTermMemory (env : Env) (sessionId : string)
    (sessionData : RedisSessionData) : outcome unit :=
  try_catch
    (client <- getRedisClient env ;;
     let key := sessionId in
     _ <- set client key (JSON_stringify env sessionData) REDIS_TTL_SECONDS ;;
     Returned tt)
    (fun error =>
       Threw (StorageError
                ("Failed to store short-term memory: " ++ message_of error)
                redis)).

(** The argument of [vectorIndex.upsert] *)
Definition upsert_request (vectorData : RedisVectorPoint) : UpsertRequest :=
  {| up_id := getVectorKey (rv_session_id vectorData);
     up_vector := rv_intent_vector vectorData;
     up_metadata :=
       {| vm_session_id := rv_session_id vectorData;
          vm_pseudo_user_id := rv_pseudo_user_id vectorData;
          vm_channel := rv_channel vectorData;
          vm_frustration_vector := rv_frustration_vector vectorData;
          vm_product_vector := rv_product_vector vectorData;
          vm_timestamp := rv_timestamp vectorData |} |}.

Definition storeShortTermVector (env : Env) (vectorData : RedisVectorPoint)
    : outcome unit :=
  try_catch
    (vectorIndex <- getVectorIndex env ;;
     _ <- upsert vectorIndex (upsert_request vectorData) ;;
     Returned tt)
    (fun error =>
       Threw (StorageError
                ("Failed to store short-term vector: " ++ message_of error)
                redis)).

(** A time stamp printed in decimal, as a template literal prints it *)
Definition decimal (z : Z) : string :=
  DecimalString.NilZero.string_of_int (Z.to_int z).

(** [Omit<QdrantMemoryPoint, "pseudo_user_id">] *)
Record MemoryPoint : Type := {
  mp_summary : string;
  mp_intent_vector : list R;
  mp_tone_vector : list R;
  mp_product_vector : list R;
  mp_entities : list string;
  mp_last_seen : Z
}.

(** The point [storeLongTermMemory] writes *)
Definition long_term_point (pseudoUserId : string) (memoryPoint : MemoryPoint)
    : QdrantPoint :=
  {| point_id := pseudoUserId ++ "-" ++ decimal (mp_last_seen memoryPoint);
     point_vector := mp_intent_vector memoryPoint;
     point_payload :=
       {| pl_pseudo_user_id := pseudoUserId;
          pl_summary := mp_summary memoryPoint;
          pl_entities := mp_entities memoryPoint;
          pl_last_seen := mp_last_seen memoryPoint;
          pl_tone_vector := mp_tone_vector memoryPoint;
          pl_product_vector := mp_product_vector memoryPoint |} |}.

Definition storeLongTermMemory (env : Env) (pseudoUserId : string)
    (memoryPoint : MemoryPoint) : outcome unit :=
  try_catch
    (client <- getQdrantClient env ;;
     let collectionName := "long_memory" in
     let point := long_term_point pseudoUserId memoryPoint in
     _ <- qdrant_upsert client collectionName [point] ;;
     Returned tt)
    (fun error =>
       Threw (StorageError
                ("Failed to store long-term memory: " ++ message_of error)
                qdrant)).

(** [RedisSessionData | null] is an [option]. *)
Definition retrieveShortTermMemory (env : Env) (sessionId : string)
    : outcome (option RedisSessionData) :=
  try_catch
    (client <- getRedisClient env ;;
     let key := sessionId in
     data <- get client key ;;
     match data with
     | None => Returned None
     | Some d =>
         if negb (Js.truthy d) then Returned None
         else (parsed <- JSON_parse env d ;; Returned (Some parsed))
     end)
    (fun error => Returned None).

(** [results.map(...)] of [retrieveRelevantVectors]: reading a field of an
    absent [metadata] throws a [TypeError]. *)
Fixpoint map_results (queryVector : list R) (results : list QueryResult)
    : outcome (list RedisVectorPoint) :=
  match results with
  | [] => Returned []
  | result :: rest =>
      match result_metadata result with
      | None =>
          Threw (Error "Cannot read properties of undefined")
      | Some metadata =>
          others <- map_results queryVector rest ;;
          Returned
            ({| rv_session_id := vm_session_id metadata;
                rv_pseudo_user_id := vm_pseudo_user_id metadata;
                rv_channel := vm_channel metadata;
                rv_intent_vector := queryVector;
                rv_frustration_vector := vm_frustration_vector metadata;
                rv_product_vector := vm_product_vector metadata;
                rv_timestamp := vm_timestamp metadata |} :: others)
      end
  end.

(** [vectors.sort((a, b) => b.timestamp - a.timestamp)]: a stable sort,
    latest first. *)
Fixpoint insert_by_timestamp (x : RedisVectorPoint)
    (sorted : list RedisVectorPoint) : list RedisVectorPoint :=
  match sorted with
  | [] => [x]
  | y :: rest =>
      if (rv_timestamp x <=? rv_timestamp y)%Z
      then y :: insert_by_timestamp x rest
      else x :: sorted
  end.

Definition sort_by_timestamp_desc (vectors : list RedisVectorPoint)
    : list RedisVectorPoint :=
  fold_left (fun sorted x => insert_by_timestamp x sorted) vectors [].

Definition retrieveRelevantVectors (env : Env) (queryVector : list R)
    (limit : nat) : outcome (list RedisVectorPoint) :=
  try_catch
    (vectorIndex <- getVectorIndex env ;;
     results <- query vectorIndex queryVector limit ;;
     vectors <- map_results queryVector results ;;
     Returned (sort_by_timestamp_desc vectors))
    (fun error => Returned []).

Definition retrieveLongTermMemory (env : Env) (queryVector : list R)
    (limit : nat) : outcome (list QdrantMemoryPoint) :=
  try_catch
    (client <- getQdrantClient env ;;
     let collectionName := "long_memory" in
     results <- search client collectionName queryVector limit ;;
     let memories :=
       map (fun result =>
              let payload := result_payload result in
              {| qm_pseudo_user_id := pl_pseudo_user_id payload;
                 qm_summary := pl_summary payload;
                 qm_intent_vector := queryVector;
                 qm_tone_vector := pl_tone_vector payload;
                 qm_product_vector := pl_product_vector payload;
                 qm_entities := pl_entities payload;
                 qm_last_seen := pl_last_seen payload |})
           results in
     Returned memories)
    (fun error => Returned []).

End MemoryStorage.

(** ** The order in which the pipelines issue their reads

    ([app/api/memory/store/route.ts], [lib/services/memory-retrieval.ts])

    Calling an [async] function issues its request at once and returns a
    promise; [await] suspends the caller until the promise settles. The
    read stage of a pipeline is the list of these steps in program order. *)

Module Pipeline.

Inductive Read : Type :=
| ShortTermGet          (* retrieveShortTermMemory(sessionId) *)
| ShortTermVectorQuery  (* retrieveRelevantVectors(queryVector, 10) *)
| LongTermVectorQuery.  (* retrieveLongTermMemory(queryVector, 10) *)

Inductive Step : Type :=
| AwaitCall (r : Read)          (* const x = await f(...) *)
| Call (r : Read)               (* const p = f(...) *)
| AwaitAll (rs : list Read).    (* await Promise.all([...]) *)

Inductive Event : Type :=
| Issued (r : Read)
| Settled (r : Read).

Definition events_of (s : Step) : list Event :=
  match s with
  | AwaitCall r => [Issued r; Settled r]
  | Call r => [Issued r]
  | AwaitAll rs => map Settled rs
  end.

Definition trace (steps : list Step) : list Event :=
  flat_map events_of steps.

(** Lines 70-76 of the store route *)
Definition store_reads : list Step :=
  [AwaitCall ShortTermGet;
   AwaitCall ShortTermVectorQuery;
   AwaitCall LongTermVectorQuery].

(** Lines 27-37 of [retrieveUnifiedMemory] *)
Definition retrieve_reads : list Step :=
  [Call ShortTermGet;
   Call ShortTermVectorQuery;
   Call LongTermVectorQuery;
   AwaitAll [ShortTermGet; ShortTermVectorQuery; LongTermVectorQuery]].

Definition read_eqb (a b : Read) : bool :=
  match a, b with
  | ShortTermGet, ShortTermGet
  | ShortTermVectorQuery, ShortTermVectorQuery
  | LongTermVectorQuery, LongTermVectorQuery => true
  | _, _ => false
  end.

(** The largest number of reads in flight at once along a trace *)
Fixpoint max_in_flight (in_flight : nat) (tr : list Event) : nat :=
  match tr with
  | [] => in_flight
  | Issued _ :: rest => Nat.max (S in_flight) (max_in_flight (S in_flight) rest)
  | Settled _ :: rest => Nat.max in_flight (max_in_flight (pred in_flight) rest)
  end.

(** No read is issued after the pipeline has waited for another one. *)
Fixpoint issued_before_any_wait (waited : bool) (tr : list Event) : bool :=
  match tr with
  | [] => true
  | Issued _ :: rest => negb waited && issued_before_any_wait waited rest
  | Settled _ :: rest => issued_before_any_wait true rest
  end.

Definition settled (r : Read) (tr : list Event) : bool :=
  existsb (fun e => match e with Settled r' => read_eqb r r' | _ => false end)
    tr.

Definition all_settled (tr : list Event) : bool :=
  settled ShortTermGet tr && settled ShortTermVectorQuery tr
  && settled LongTermVectorQuery tr.

End Pipeline.

(** ** Identity operations and the lookup route

    ([lib/services/identity-operations.ts],
    [app/api/identity/lookup/route.ts]) *)

Module IdentityOperations.

Import IdentityLinker.

Definition getLinkedChannels (collection : Collection)
    (pseudoUserId : string) : list string :=
  let sessions := getLinkedSessions collection pseudoUserId in
  map (fun s => channel s) sessions.

Definition isChannelLinked (collection : Collection)
    (pseudoUserId channel0 : string) : bool :=
  let sessions := getLinkedSessions collection pseudoUserId in
  existsb (fun s => String.eqb (channel s) channel0) sessions.

Definition getPseudoUserIdForChannel (hashIdentifier : string -> string)
    (collection : Collection) (channel0 channelUserId : string)
    : option string :=
  findPseudoUserId hashIdentifier collection channel0 channelUserId.

(** [cursor.limit(n)]: a limit of 0 is no limit. *)
Definition limit_to (A : Type) (limit : nat) (l : list A) : list A :=
  match limit with
  | O => l
  | _ => firstn limit l
  end.

Definition getAllPseudoUserIds (collection : Collection) (limit : nat)
    : list string :=
  let entries := limit_to limit collection in
  map (fun e => entry_pseudo_user_id e) entries.

(** The answers of [GET /api/identity/lookup] *)
Inductive LookupResponse : Type :=
| BadRequest
| NotFound
| Found (pseudo_user_id : string) (linked_sessions : list LinkedSession).

(** A query parameter that is not given is [None]. *)
Definition GET (hashIdentifier : string -> string) (collection : Collection)
    (channel0 channelUserId : option string) : LookupResponse :=
  match channel0, channelUserId with
  | Some channel1, Some channelUserId1 =>
      if negb (Js.truthy channel1) || negb (Js.truthy channelUserId1)
      then BadRequest
      else
        match findPseudoUserId hashIdentifier collection channel1
                channelUserId1 with
        | None => NotFound
        | Some pseudoUserId =>
            Found pseudoUserId (getLinkedSessions collection pseudoUserId)
        end
  | _, _ => BadRequest
  end.

End IdentityOperations.

(** ** The rest of the problem record ([lib/services/problem-extractor.ts])

    The fields of [ExtractedProblem] that module [ProblemExtractor] leaves
    out, the functions that fill them, and [isCriticalProblem], which reads
    one of them. *)

Module ProblemRecord.

Import Types UrgencyPredictor ProblemExtractor.
Local Open Scope string_scope.

Definition problemKeywords : list string :=
  ["problem"; "issue"; "error"; "broken"; "wrong"; "delayed"; "missing"].

(** [[.!?]] *)
Definition is_sentence_end (c : ascii) : bool := Js.one_of ".!?" c.

(** The body of the [forEach] of [extractProblemSummary], on the pair
    [(maxScore, bestSentence)] *)
Definition summary_step (acc : nat * string) (sentence : string)
    : nat * string :=
  let '(maxScore, bestSentence) := acc in
  let score0 := count_keywords problemKeywords (Js.toLowerCase sentence) in
  if (maxScore <? score0)%nat then (score0, sentence)
  else (maxScore, bestSentence).

Definition extractProblemSummary (t : string) : string :=
  let sentences :=
    filter (fun s => (0 <? String.length (Js.trim s))%nat)
      (Js.split_runs is_sentence_end t) in
  match sentences with
  | [] => substring 0 100 t
  | first :: _ =>
      let '(_, bestSentence) := fold_left summary_step sentences (O, first) in
      substring 0 150 (Js.trim bestSentence)
  end.

(** [Object.entries(categoryKeywords)], in the order of the literal *)
Definition categoryKeywords : list (string * list string) :=
  [("delivery",
    ["delivery"; "shipment"; "shipping"; "tracking"; "package"; "arrived"]);
   ("payment",
    ["payment"; "charge"; "billing"; "invoice"; "transaction"; "card"]);
   ("refund", ["refund"; "return"; "money back"; "cancel"]);
   ("technical",
    ["error"; "bug"; "broken"; "not working"; "crash"; "technical"]);
   ("account", ["account"; "login"; "password"; "access"; "profile"]);
   ("product_quality", ["quality"; "defective"; "damaged"; "broken product"]);
   ("billing", ["bill"; "invoice"; "charge"; "payment"])].

Definition classifyProblem (t : string) : string :=
  let lowerText := Js.toLowerCase t in
  match find (fun entry =>
                existsb (fun keyword => Js.includes lowerText keyword)
                  (snd entry))
          categoryKeywords with
  | Some (category, _) => category
  | None => "other"
  end.

(** The three patterns are those of [extractIdentifiers]. *)
Definition extractEntities (t : string) : list string :=
  let entities := [] in
  let entities := (entities ++ Js.match_all IdentityLinker.orderPattern t)%list in
  let entities := (entities ++ Js.match_all IdentityLinker.phonePattern t)%list in
  let entities := (entities ++ Js.match_all IdentityLinker.emailPattern t)%list in
  Js.mkSet entities.

Definition countProblemOccurrences (problemSummary : string)
    (shortTermMemory : option RedisSessionData)
    (longTermMemories : list QdrantMemoryPoint) : nat :=
  let count := 1%nat in
  let count :=
    match shortTermMemory with
    | Some stm =>
        let similar :=
          List.length
            (filter (fun msg => isSimilarProblem (text msg) problemSummary)
               (messages stm)) in
        (count + similar)%nat
    | None => count
    end in
  let similarHistorical :=
    List.length
      (filter (fun mem => isSimilarProblem (qm_summary mem) problemSummary)
         longTermMemories) in
  (count + similarHistorical)%nat.

Definition generateProblemId (message : Message) (channel : string)
    : string :=
  let hash :=
    Js.toLowerCase (Js.replace_ws (substring 0 20 (text message))) in
  "problem:" ++ channel ++ ":" ++ Js.decimal (ts message) ++ ":" ++ hash.

(** The whole record: [pb_rest] holds the fields of [ExtractedProblem]. *)
Record Problem : Type := {
  pb_id : string;
  pb_summary : string;
  pb_category : string;
  pb_entities : list string;
  pb_occurrence_count : nat;
  pb_rest : ExtractedProblem
}.

(** [extractProblem], with every field *)
Definition extractProblem (currentMessage : Message)
    (shortTermMemory : option RedisSessionData)
    (longTermMemories : list QdrantMemoryPoint) (urgency0 : UrgencyScore)
    (channel : string) : option Problem :=
  match ProblemExtractor.extractProblem currentMessage shortTermMemory
          longTermMemories urgency0 channel with
  | None => None
  | Some rest =>
      let summary0 := extractProblemSummary (text currentMessage) in
      Some {| pb_id := generateProblemId currentMessage channel;
              pb_summary := summary0;
              pb_category := classifyProblem (text currentMessage);
              pb_entities := extractEntities (text currentMessage);
              pb_occurrence_count :=
                countProblemOccurrences summary0 shortTermMemory
                  longTermMemories;
              pb_rest := rest |}
  end.

Definition isCriticalProblem (problem : Problem) : bool :=
  (if Rge_dec (criticality (pb_rest problem)) 0.7 then true else false)
  || negb (can_agent_solve (pb_rest problem))
  || (3 <=? pb_occurrence_count problem)%nat.

End ProblemRecord.

(** ** Escalation ([lib/services/escalation.ts])

    The collection [escalation_tickets] is the list of its documents in
    insertion order, and the database is taken to answer. *)

Module Escalation.

Import ProblemExtractor ProblemRecord.
Local Open Scope string_scope.

Inductive Reason : Type :=
| agent_cannot_solve
| critical_problem
| repeated_issue
| user_request.

Inductive Priority : Type := low | medium | high | urgent.

Inductive Status : Type := pending | assigned | in_progress | resolved.

(** The string a priority is stored as *)
Definition priority_name (p : Priority) : string :=
  match p with
  | low => "low"
  | medium => "medium"
  | high => "high"
  | urgent => "urgent"
  end.

Definition status_eqb (a b : Status) : bool :=
  match a, b with
  | pending, pending | assigned, assigned | in_progress, in_progress
  | resolved, resolved => true
  | _, _ => false
  end.

Definition priority_eqb (a b : Priority) : bool :=
  match a, b with
  | low, low | medium, medium | high, high | urgent, urgent => true
  | _, _ => false
  end.

Record EscalationTicket : Type := {
  tk_id : string;
  tk_problem_id : string;
  tk_pseudo_user_id : string;
  tk_channel : string;
  tk_reason : Reason;
  tk_priority : Priority;
  tk_status : Status;
  tk_created_at : Z;
  tk_assigned_to : option string;
  tk_resolved_at : option Z;
  tk_problem_summary : string;
  tk_conversation_context : string
}.

(** The test both [shouldEscalate] and [determineEscalationReason] make on
    the description *)
Definition asks_for_a_person (problem : Problem) : bool :=
  Js.includes (Js.toLowerCase (description (pb_rest problem))) "manager"
  || Js.includes (Js.toLowerCase (description (pb_rest problem)))
       "supervisor".

Definition shouldEscalate (problem : Problem) : bool :=
  if negb (can_agent_solve (pb_rest problem)) then true
  else if isCriticalProblem problem then true
  else if (3 <=? pb_occurrence_count problem)%nat then true
  else if asks_for_a_person problem then true
  else false.

Definition determineEscalationReason (problem : Problem) : Reason :=
  if negb (can_agent_solve (pb_rest problem)) then agent_cannot_solve
  else if isCriticalProblem problem then critical_problem
  else if (3 <=? pb_occurrence_count problem)%nat then repeated_issue
  else if asks_for_a_person problem then user_request
  else agent_cannot_solve.

Definition determinePriority (problem : Problem) : Priority :=
  let urgencyLevel := UrgencyPredictor.level (urgency (pb_rest problem)) in
  let criticality0 := criticality (pb_rest problem) in
  if UrgencyPredictor.level_eqb urgencyLevel UrgencyPredictor.critical
     || (if Rge_dec criticality0 0.9 then true else false)
  then urgent
  else if UrgencyPredictor.level_eqb urgencyLevel UrgencyPredictor.high
          || (if Rge_dec criticality0 0.7 then true else false)
  then high
  else if UrgencyPredictor.level_eqb urgencyLevel UrgencyPredictor.medium
          || (if Rge_dec criticality0 0.5 then true else false)
  then medium
  else low.

(** [generateEscalationId]: [random] is the text
    [Math.random().toString(36).substring(2, 8)]. *)
Definition generateEscalationId (nowMs : Z) (random : string) : string :=
  "ESC-" ++ Js.decimal nowMs ++ "-" ++ random.

Definition storeEscalationTicket (ticket : EscalationTicket)
    (tickets : list EscalationTicket) : list EscalationTicket :=
  (tickets ++ [ticket])%list.

(** [createEscalationTicket]: the clock is read for the id, then for
    [created_at]. The result is the ticket and the collection that holds
    it. *)
Definition createEscalationTicket (idMs : Z) (random : string) (nowMs : Z)
    (tickets : list EscalationTicket) (problem : Problem)
    (pseudoUserId channel conversationContext : string)
    : EscalationTicket * list EscalationTicket :=
  let reason := determineEscalationReason problem in
  let priority := determinePriority problem in
  let ticket :=
    {| tk_id := generateEscalationId idMs random;
       tk_problem_id := pb_id problem;
       tk_pseudo_user_id := pseudoUserId;
       tk_channel := channel;
       tk_reason := reason;
       tk_priority := priority;
       tk_status := pending;
       tk_created_at := (nowMs / 1000)%Z;
       tk_assigned_to := None;
       tk_resolved_at := None;
       tk_problem_summary := pb_summary problem;
       tk_conversation_context := conversationContext |} in
  (ticket, storeEscalationTicket ticket tickets).

(** [.sort({ priority: -1, created_at: 1 })]: [priority] is a string, which
    MongoDB compares character by character; [y] stays before [x] when its
    priority is the greater string, or the same one and it is not younger.
    Tickets that agree on both keys keep the order of the collection, one
    of the orders the database may give. *)
Definition by_priority_then_age (y x : EscalationTicket) : bool :=
  match String.compare (priority_name (tk_priority y))
          (priority_name (tk_priority x)) with
  | Gt => true
  | Lt => false
  | Eq => (tk_created_at y <=? tk_created_at x)%Z
  end.

Definition getPendingEscalations (tickets : list EscalationTicket)
    (limit : nat) : list EscalationTicket :=
  IdentityOperations.limit_to limit
    (Js.sort by_priority_then_age
       (filter (fun t => status_eqb (tk_status t) pending) tickets)).

Definition getCriticalEscalations (tickets : list EscalationTicket)
    (limit : nat) : list EscalationTicket :=
  IdentityOperations.limit_to limit
    (Js.sort by_priority_then_age
       (filter (fun t =>
                  existsb (status_eqb (tk_status t))
                    [pending; assigned; in_progress]
                  && existsb (priority_eqb (tk_priority t)) [urgent; high])
          tickets)).

(** The [$set] of [updateEscalationStatus] *)
Definition apply_update (nowMs : Z) (status : Status)
    (assignedTo : option string) (t : EscalationTicket) : EscalationTicket :=
  {| tk_id := tk_id t;
     tk_problem_id := tk_problem_id t;
     tk_pseudo_user_id := tk_pseudo_user_id t;
     tk_channel := tk_channel t;
     tk_reason := tk_reason t;
     tk_priority := tk_priority t;
     tk_status := status;
     tk_created_at := tk_created_at t;
     tk_assigned_to :=
       match assignedTo with
       | Some a => if Js.truthy a then Some a else tk_assigned_to t
       | None => tk_assigned_to t
       end;
     tk_resolved_at :=
       if status_eqb status resolved then Some (nowMs / 1000)%Z
       else tk_resolved_at t;
     tk_problem_summary := tk_problem_summary t;
     tk_conversation_context := tk_conversation_context t |}.

Fixpoint updateOne (filter0 : EscalationTicket -> bool)
    (set : EscalationTicket -> EscalationTicket)
    (tickets : list EscalationTicket) : list EscalationTicket :=
  match tickets with
  | [] => []
  | t :: rest =>
      if filter0 t then set t :: rest else t :: updateOne filter0 set rest
  end.

Definition updateEscalationStatus (nowMs : Z)
    (tickets : list EscalationTicket) (ticketId : string) (status : Status)
    (assignedTo : option string) : list EscalationTicket :=
  updateOne (fun t => String.eqb (tk_id t) ticketId)
    (apply_update nowMs status assignedTo) tickets.

End Escalation.

(** ** Recommended actions ([lib/services/action-recommender.ts])

    The field [id] of an action, which [generateActionId] draws from the
    clock and [Math.random], is left out: nothing reads it but the log. *)

Module ActionRecommender.

Import Types UrgencyPredictor ProblemExtractor ProblemRecord.
Local Open Scope string_scope.
Local Open Scope R_scope.

Inductive ActionType : Type :=
| provide_info
| check_status
| update_account
| process_refund
| escalate
| follow_up
| apologize
| offer_compensation
| update_order
| cancel_order.

(** [execution_params] is [{ order_id }] or absent. *)
Record RecommendedAction : Type := {
  ra_type : ActionType;
  ra_description : string;
  ra_confidence : R;
  ra_priority : R;
  can_auto_execute : bool;
  execution_params : option string
}.

Definition is_high_or_critical (urgency0 : UrgencyScore) : bool :=
  level_eqb (level urgency0) high || level_eqb (level urgency0) critical.

(** [/^[A-Z]{2,}\d+$/], between its anchors *)
Definition orderIdPattern : Js.regex :=
  Js.Seq (Js.Rep 2 Js.is_upper) (Js.Rep 1 Js.is_digit).

Definition recommendDeliveryActions (problem : Problem)
    (urgency0 : UrgencyScore) : list RecommendedAction :=
  let actions := [] in
  let orderId :=
    find (fun e => Js.test_whole orderIdPattern e) (pb_entities problem) in
  let actions :=
    match orderId with
    | Some o =>
        if Js.truthy o then
          (actions
           ++ [{| ra_type := check_status;
                  ra_description := "Check delivery status for order " ++ o;
                  ra_confidence := 0.9;
                  ra_priority := score urgency0;
                  can_auto_execute := true;
                  execution_params := Some o |}])%list
        else actions
    | None => actions
    end in
  let actions :=
    if is_high_or_critical urgency0 then
      (actions
       ++ [{| ra_type := offer_compensation;
              ra_description := "Offer compensation for delayed delivery";
              ra_confidence := 0.7;
              ra_priority := score urgency0 * 0.8;
              can_auto_execute := false;
              execution_params := None |}])%list
    else actions in
  actions.

Definition recommendPaymentActions (problem : Problem)
    (urgency0 : UrgencyScore) : list RecommendedAction :=
  let actions :=
    [{| ra_type := check_status;
        ra_description := "Check payment transaction status";
        ra_confidence := 0.8;
        ra_priority := score urgency0;
        can_auto_execute := true;
        execution_params := None |}] in
  let actions :=
    if Js.includes (Js.toLowerCase (description (pb_rest problem))) "refund"
    then
      (actions
       ++ [{| ra_type := process_refund;
              ra_description := "Process refund request";
              ra_confidence := 0.6;
              ra_priority := score urgency0 * 0.9;
              can_auto_execute := false;
              execution_params := None |}])%list
    else actions in
  actions.

Definition recommendRefundActions (problem : Problem)
    (urgency0 : UrgencyScore) : list RecommendedAction :=
  [{| ra_type := process_refund;
      ra_description := "Process refund request";
      ra_confidence := 0.7;
      ra_priority := score urgency0;
      can_auto_execute := false;
      execution_params := None |};
   {| ra_type := apologize;
      ra_description := "Provide apology for inconvenience";
      ra_confidence := 0.9;
      ra_priority := score urgency0 * 0.5;
      can_auto_execute := true;
      execution_params := None |}].

Definition recommendTechnicalActions (problem : Problem)
    (urgency0 : UrgencyScore) : list RecommendedAction :=
  let actions :=
    [{| ra_type := provide_info;
        ra_description := "Provide troubleshooting steps";
        ra_confidence := 0.8;
        ra_priority := score urgency0;
        can_auto_execute := true;
        execution_params := None |}] in
  let actions :=
    if is_high_or_critical urgency0 then
      (actions
       ++ [{| ra_type := escalate;
              ra_description := "Escalate to technical support team";
              ra_confidence := 0.9;
              ra_priority := score urgency0;
              can_auto_execute := false;
              execution_params := None |}])%list
    else actions in
  actions.

Definition recommendAccountActions (problem : Problem)
    (urgency0 : UrgencyScore) : list RecommendedAction :=
  if Js.includes (Js.toLowerCase (description (pb_rest problem))) "password"
  then
    [{| ra_type := update_account;
        ra_description := "Send password reset link";
        ra_confidence := 0.95;
        ra_priority := score urgency0;
        can_auto_execute := true;
        execution_params := None |}]
  else
    [{| ra_type := update_account;
        ra_description := "Update account information";
        ra_confidence := 0.7;
        ra_priority := score urgency0;
        can_auto_execute := false;
        execution_params := None |}].

Definition recommendGenericActions (problem : Problem)
    (urgency0 : UrgencyScore) : list RecommendedAction :=
  let actions :=
    [{| ra_type := provide_info;
        ra_description := "Provide relevant information";
        ra_confidence := 0.6;
        ra_priority := score urgency0 * 0.7;
        can_auto_execute := true;
        execution_params := None |}] in
  let actions :=
    if is_high_or_critical urgency0 then
      (actions
       ++ [{| ra_type := apologize;
              ra_description := "Provide apology and reassurance";
              ra_confidence := 0.8;
              ra_priority := score urgency0 * 0.6;
              can_auto_execute := true;
              execution_params := None |}])%list
    else actions in
  actions.

(** The action added when the agent cannot solve the problem *)
Definition supervisorEscalation : RecommendedAction :=
  {| ra_type := escalate;
     ra_description := "Escalate to human supervisor";
     ra_confidence := 1.0;
     ra_priority := 1.0;
     can_auto_execute := false;
     execution_params := None |}.

(** The key of the final sort *)
Definition sort_score (a : RecommendedAction) : R :=
  ra_priority a * 0.6 + ra_confidence a * 0.4.

(** [scoreB - scoreA] is not positive: [a] stays before [b]. *)
Definition by_score (a b : RecommendedAction) : bool :=
  if Rle_dec (sort_score b) (sort_score a) then true else false.

(** The [switch] on [problem.category] *)
Definition actions_of_category (problem : Problem) (urgency0 : UrgencyScore)
    : list RecommendedAction :=
  if String.eqb (pb_category problem) "delivery"
  then recommendDeliveryActions problem urgency0
  else if String.eqb (pb_category problem) "payment"
  then recommendPaymentActions problem urgency0
  else if String.eqb (pb_category problem) "refund"
  then recommendRefundActions problem urgency0
  else if String.eqb (pb_category problem) "technical"
  then recommendTechnicalActions problem urgency0
  else if String.eqb (pb_category problem) "account"
  then recommendAccountActions problem urgency0
  else recommendGenericActions problem urgency0.

Definition recommendActions (problem : Problem) (urgency0 : UrgencyScore)
    : list RecommendedAction :=
  let actions := actions_of_category problem urgency0 in
  let actions :=
    if negb (can_agent_solve (pb_rest problem))
    then (actions ++ [supervisorEscalation])%list
    else actions in
  Js.sort by_score actions.

(** [data] is the list of its fields; a field set to [undefined] has no
    value. *)
Record ActionExecutionResult : Type := {
  success : bool;
  message : string;
  executed_at : Z;
  data : list (string * option string)
}.

Definition executeCheckStatus (nowMs : Z) (action : RecommendedAction)
    : ActionExecutionResult :=
  {| success := true;
     message := "Status checked successfully";
     executed_at := (nowMs / 1000)%Z;
     data := [("order_id", execution_params action);
              ("status", Some "in_transit")] |}.

Definition executeProvideInfo (nowMs : Z) (action : RecommendedAction)
    (problem : Problem) : ActionExecutionResult :=
  {| success := true;
     message := "Information provided";
     executed_at := (nowMs / 1000)%Z;
     data := [("info_type", Some (pb_category problem))] |}.

Definition executeUpdateAccount (nowMs : Z) (action : RecommendedAction)
    : ActionExecutionResult :=
  {| success := true;
     message := "Account update initiated";
     executed_at := (nowMs / 1000)%Z;
     data := [] |}.

Definition executeApologize (nowMs : Z) (action : RecommendedAction)
    : ActionExecutionResult :=
  {| success := true;
     message := "Apology message generated";
     executed_at := (nowMs / 1000)%Z;
     data :=
       [("message",
         Some "We sincerely apologize for the inconvenience. We are working to resolve this issue.")] |}.

(** [executeAction]: none of the four executors throws, so the [catch]
    clause is never entered. *)
Definition executeAction (nowMs : Z) (action : RecommendedAction)
    (problem : Problem) : ActionExecutionResult :=
  if negb (can_auto_execute action) then
    {| success := false;
       message := "Action requires manual approval";
       executed_at := (nowMs / 1000)%Z;
       data := [] |}
  else
    match ra_type action with
    | check_status => executeCheckStatus nowMs action
    | provide_info => executeProvideInfo nowMs action problem
    | update_account => executeUpdateAccount nowMs action
    | apologize => executeApologize nowMs action
    | _ =>
        {| success := false;
           message := "Action type not yet implemented";
           executed_at := (nowMs / 1000)%Z;
           data := [] |}
    end.

End ActionRecommender.

(** ** The memory block ([lib/services/memory-retrieval.ts]) *)

Module MemoryRetrieval.

Import Types.
Local Open Scope string_scope.

Definition role_name (r : MessageRole) : string :=
  match r with
  | user => "user"
  | assistant => "assistant"
  | system => "system"
  end.

(** The line feed of ["\n"] *)
Definition nl : string := String (ascii_of_nat 10) EmptyString.

Definition count (A : Type) (l : list A) : string :=
  Js.decimal (Z.of_nat (List.length l)).

(** [a || b] on strings *)
Definition or_else (a b : string) : string := if Js.truthy a then a else b.

(** The line of a recent message *)
Definition message_line (msg : Message) : string :=
  "- [" ++ role_name (role msg) ++ "] "
  ++ or_else (summary msg) (substring 0 100 (text msg)).

(** The line of a similar interaction, the [idx]-th of the list *)
Definition vector_line (v : RedisVectorPoint) (idx : nat) : string :=
  "- " ++ or_else (rv_channel v) "unknown" ++ " session: "
  ++ or_else (rv_session_id v) ("#" ++ Js.decimal (Z.of_nat (idx + 1))).

(** The one or two lines of a long-term memory *)
Definition memory_lines (memory : QdrantMemoryPoint) : list string :=
  ("- " ++ qm_summary memory)
  :: (if (0 <? List.length (qm_entities memory))%nat
      then ["  Entities: " ++ Js.join ", " (qm_entities memory)]
      else []).

Definition vectors_heading (vectors : list RedisVectorPoint) : string :=
  nl ++ "## Similar Recent Interactions (" ++ count vectors ++ " found)".

Definition history_heading (longTerm : list QdrantMemoryPoint) : string :=
  nl ++ "## Historical Context (" ++ count longTerm ++ " memories)".

Definition generateMemoryBlock (shortTerm : option RedisSessionData)
    (vectors : list RedisVectorPoint) (longTerm : list QdrantMemoryPoint)
    : string :=
  let parts := [] in
  let parts :=
    match shortTerm with
    | Some st =>
        if (0 <? List.length (messages st))%nat then
          (parts ++ ["## Recent Conversation Context"]
           ++ map message_line (Js.last_n 5 (messages st)))%list
        else parts
    | None => parts
    end in
  let parts :=
    if (0 <? List.length vectors)%nat then
      (parts ++ [vectors_heading vectors]
       ++ Js.mapi vector_line (firstn 5 vectors))%list
    else parts in
  let parts :=
    if (0 <? List.length longTerm)%nat then
      (parts ++ [history_heading longTerm]
       ++ flat_map memory_lines longTerm)%list
    else parts in
  match parts with
  | [] => "No previous context found."
  | _ => Js.join nl parts
  end.

End MemoryRetrieval.

(** ** The session envelope ([lib/services/session-envelope.ts]) *)

Module SessionEnvelope.

Import Types.
Local Open Scope string_scope.

Record Envelope : Type := {
  se_channel : string;
  se_channel_user_id : string;
  se_message : Message;
  se_metadata : option SessionMetadata
}.




Definition generateSessionId (channel hashedUserId : string) : string :=
  "session:" ++ channel ++ ":" ++ hashedUserId.

(** The values of the type [Channel] *)
Definition channels : list string :=
  ["web"; "whatsapp"; "x"; "email"; "phone"].

End SessionEnvelope.

(** ** The store route ([app/api/memory/store/route.ts])

    The stages of [POST] between the reads and the writes. *)

Module StoreRoute.

Import Types IdentityLinker MemoryStorage.
Local Open Scope string_scope.
Local Open Scope R_scope.

Definition frustrationKeywords : list string :=
  ["frustrated"; "angry"; "upset"; "disappointed"; "terrible"; "awful";
   "horrible"].

Definition calculateFrustrationLevel (t : string) (frustrationVector : list R)
    : R :=
  let lowerText := Js.toLowerCase t in
  let hasKeywords :=
    existsb (fun keyword => Js.includes lowerText keyword)
      frustrationKeywords in
  let vectorMagnitude :=
    sqrt (fold_left (fun sum val => sum + val * val) frustrationVector 0)
    / INR (List.length frustrationVector) in
  let keywordBoost := if hasKeywords then 0.3 else 0 in
  Rmin 1.0 (vectorMagnitude + keywordBoost).

Definition productTerms : list string :=
  ["delivery"; "refund"; "return"; "shipment"; "package"].

(** The route's own [extractEntities] *)
Definition extractEntities (t : string) : list string :=
  let entities := [] in
  let entities := (entities ++ Js.match_all orderPattern t)%list in
  let entities :=
    (entities
     ++ filter (fun term => Js.includes (Js.toLowerCase t) term)
          productTerms)%list in
  Js.mkSet entities.


(** [existingLongTerm.flatMap((mem) => [{ text: mem.summary }])]: objects
    with a [text] only. The linker reads nothing else of a historical
    message, so the other fields of the record are given a fixed value. *)
Definition historicalMessages (existingLongTerm : list QdrantMemoryPoint)
    : list Message :=
  flat_map (fun mem =>
              [{| ts := 0; role := user; text := qm_summary mem;
                  summary := EmptyString |}])
    existingLongTerm.

(** [[...existingVectors, ...existingLongTerm]] *)
Definition candidates (existingVectors : list RedisVectorPoint)
    (existingLongTerm : list QdrantMemoryPoint) : list HistoricalPoint :=
  (map OfRedis existingVectors ++ map OfQdrant existingLongTerm)%list.

(** Lines 86 to 93: the call of [linkIdentity] *)
Definition resolveIdentity (rand : nat -> Q) (pos : nat)
    (embeddings : MultiVectorEmbedding)
    (envelope : SessionEnvelope.Envelope)
    (existingVectors : list RedisVectorPoint)
    (existingLongTerm : list QdrantMemoryPoint) : string * nat :=
  linkIdentity rand pos embeddings (SessionEnvelope.se_metadata envelope)
    (Some (candidates existingVectors existingLongTerm))
    [SessionEnvelope.se_message envelope]
    (historicalMessages existingLongTerm)
    (SessionEnvelope.se_metadata envelope).

Definition matchConfidence (existingVectors : list RedisVectorPoint)
    (existingLongTerm : list QdrantMemoryPoint) : Q :=
  if (0 <? List.length existingVectors)%nat
     || (0 <? List.length existingLongTerm)%nat
  then 0.85%Q else 1%Q.

(** Lines 125 to 130: the session written back *)
Definition sessionData (existingShortTerm : option RedisSessionData)
    (envelope : SessionEnvelope.Envelope) (embeddings : MultiVectorEmbedding)
    (frustrationLevel : R) : RedisSessionData :=
  let existingMessages :=
    match existingShortTerm with
    | Some st => messages st
    | None => []
    end in
  {| messages :=
       (existingMessages ++ [SessionEnvelope.se_message envelope])%list;
     session_intent_vector := intent_vector embeddings;
     frustration_level := frustrationLevel |}.

End StoreRoute.

(** ** The scoring arithmetic in binary64

    [cosineSimilarity] and the weighted sum of [findExistingPseudoUserId]
    once more, on IEEE doubles as JavaScript evaluates them: [===] on
    numbers is [=?], which is false on NaN. *)

Module Double.

Import PrimFloat.
Local Open Scope float_scope.
#[local] Set Warnings "-inexact-float".

Fixpoint cosine_loop (vec1 vec2 : list float)
    (dotProduct norm1 norm2 : float) : float * float * float :=
  match vec1, vec2 with
  | x :: vec1', y :: vec2' =>
      cosine_loop vec1' vec2'
        (dotProduct + x * y) (norm1 + x * x) (norm2 + y * y)
  | _, _ => (dotProduct, norm1, norm2)
  end.

Definition cosineSimilarity (vec1 vec2 : list float) : float :=
  if negb (Nat.eqb (List.length vec1) (List.length vec2)) then 0
  else
    let '(dotProduct, norm1, norm2) := cosine_loop vec1 vec2 0 0 0 in
    let denominator := sqrt norm1 * sqrt norm2 in
    if denominator =? 0 then 0
    else dotProduct / denominator.

Definition MATCH_THRESHOLD : float := 0.82.

Definition matchScore (vectorSim metadataSim behaviorSim identifierSim : float)
    : float :=
  0.35 * vectorSim + 0.25 * metadataSim + 0.2 * behaviorSim
  + 0.2 * identifierSim.

End Double.

(** ** Notions the statements below are phrased with *)

Module Notions.

Import Types.
Local Open Scope R_scope.

(** Inner product of two vectors, over their common indices *)
Fixpoint dot (v w : list R) : R :=
  match v, w with
  | x :: v', y :: w' => x * y + dot v' w'
  | _, _ => 0
  end.

Definition norm_sq (v : list R) : R := dot v v.

Definition norm (v : list R) : R := sqrt (norm_sq v).


Definition in_unit_interval (x : R) : Prop := 0 <= x <= 1.

(** [Math.min(1, Math.max(0, x))] *)
Definition clamp01 (x : R) : R := Rmin 1 (Rmax 0 x).

(** [Math.random] stays in [[0, 1)]. *)
Definition valid_random (rand : nat -> Q) : Prop :=
  forall n, (0 <= rand n)%Q /\ (rand n < 1)%Q.

(** The 32 hexadecimal digits a call of [generatePseudoUserId] draws,
    starting at the cursor [pos] *)
Definition digits (rand : nat -> Q) (pos : nat) : list Z :=
  map (IdentityLinker.random_index rand) (seq pos 32).

(** The character [chars] holds at index [i] *)
Definition hex_digit (i : Z) : ascii :=
  match String.get (Z.to_nat i) IdentityLinker.chars with
  | Some c => c
  | None => "0"%char
  end.

(** The [n] digits drawn from the cursor [pos] on, as text *)
Definition hex_string (rand : nat -> Q) (pos n : nat) : string :=
  string_of_list_ascii
    (map (fun k => hex_digit (IdentityLinker.random_index rand k))
         (seq pos n)).

(** The session a link is about *)
Definition pair_of (l : IdentityLinker.LinkedSession) : string * string :=
  (IdentityLinker.channel l, IdentityLinker.channel_user_id l).

(** No session is linked twice inside one entry. *)
Definition no_duplicate_link (e : IdentityLinker.IdentityMapEntry) : Prop :=
  NoDup (map pair_of (IdentityLinker.linked_sessions e)).

Definition entries_ok (c : IdentityLinker.Collection) : Prop :=
  Forall no_duplicate_link c.

(** No session is linked twice in the whole identity map. *)
Definition globally_unique (c : IdentityLinker.Collection) : Prop :=
  NoDup (map pair_of (flat_map IdentityLinker.linked_sessions c)).

(** The link of a session under a pseudo_user_id, if there is one *)
Definition link_of (c : IdentityLinker.Collection)
    (pseudoUserId channel hashedChannelUserId : string)
    : option IdentityLinker.LinkedSession :=
  find (IdentityLinker.same_session channel hashedChannelUserId)
    (IdentityLinker.getLinkedSessions c pseudoUserId).

(** All the links of a session under a pseudo_user_id *)
Definition links_of (c : IdentityLinker.Collection)
    (pseudoUserId channel hashedChannelUserId : string)
    : list IdentityLinker.LinkedSession :=
  filter (IdentityLinker.same_session channel hashedChannelUserId)
    (IdentityLinker.getLinkedSessions c pseudoUserId).

Definition raised (old new : Q) : Q :=
  if Qlt_le_dec old new then new else old.

Definition with_confidence (x : IdentityLinker.LinkedSession) (c : Q)
    : IdentityLinker.LinkedSession :=
  {| IdentityLinker.channel := IdentityLinker.channel x;
     IdentityLinker.channel_user_id := IdentityLinker.channel_user_id x;
     IdentityLinker.confidence := c |}.

Definition new_link (channel hashedChannelUserId : string) (c : Q)
    : IdentityLinker.LinkedSession :=
  {| IdentityLinker.channel := channel;
     IdentityLinker.channel_user_id := hashedChannelUserId;
     IdentityLinker.confidence := c |}.

(** What it means for the store behind an operation to fail with [error]:
    the client cannot be obtained, or its call throws. *)
Definition redis_get_fails (env : MemoryStorage.Env) (sessionId : string)
    (error : MemoryStorage.Thrown) : Prop :=
  MemoryStorage.getRedisClient env = MemoryStorage.Threw error
  \/ exists client,
       MemoryStorage.getRedisClient env = MemoryStorage.Returned client
       /\ MemoryStorage.get client sessionId = MemoryStorage.Threw error.

Definition vector_query_fails (env : MemoryStorage.Env)
    (queryVector : list R) (limit : nat) (error : MemoryStorage.Thrown)
    : Prop :=
  MemoryStorage.getVectorIndex env = MemoryStorage.Threw error
  \/ exists vectorIndex,
       MemoryStorage.getVectorIndex env = MemoryStorage.Returned vectorIndex
       /\ MemoryStorage.query vectorIndex queryVector limit
          = MemoryStorage.Threw error.

Definition qdrant_search_fails (env : MemoryStorage.Env)
    (queryVector : list R) (limit : nat) (error : MemoryStorage.Thrown)
    : Prop :=
  MemoryStorage.getQdrantClient env = MemoryStorage.Threw error
  \/ exists client,
       MemoryStorage.getQdrantClient env = MemoryStorage.Returned client
       /\ MemoryStorage.search client "long_memory" queryVector limit
          = MemoryStorage.Threw error.

Definition redis_set_fails (env : MemoryStorage.Env) (sessionId : string)
    (sessionData : Types.RedisSessionData) (error : MemoryStorage.Thrown)
    : Prop :=
  MemoryStorage.getRedisClient env = MemoryStorage.Threw error
  \/ exists client,
       MemoryStorage.getRedisClient env = MemoryStorage.Returned client
       /\ MemoryStorage.set client sessionId
            (MemoryStorage.JSON_stringify env sessionData)
            MemoryStorage.REDIS_TTL_SECONDS
          = MemoryStorage.Threw error.

Definition vector_upsert_fails (env : MemoryStorage.Env)
    (vectorData : Types.RedisVectorPoint) (error : MemoryStorage.Thrown)
    : Prop :=
  MemoryStorage.getVectorIndex env = MemoryStorage.Threw error
  \/ exists vectorIndex,
       MemoryStorage.getVectorIndex env = MemoryStorage.Returned vectorIndex
       /\ MemoryStorage.upsert vectorIndex
            (MemoryStorage.upsert_request vectorData)
          = MemoryStorage.Threw error.

Definition qdrant_upsert_fails (env : MemoryStorage.Env)
    (pseudoUserId : string) (memoryPoint : MemoryStorage.MemoryPoint)
    (error : MemoryStorage.Thrown) : Prop :=
  MemoryStorage.getQdrantClient env = MemoryStorage.Threw error
  \/ exists client,
       MemoryStorage.getQdrantClient env = MemoryStorage.Returned client
       /\ MemoryStorage.qdrant_upsert client "long_memory"
            [MemoryStorage.long_term_point pseudoUserId memoryPoint]
          = MemoryStorage.Threw error.

(** Two texts name a common identifier. *)
Definition share_identifier (t h : string) : Prop :=
  exists id,
    In id (IdentityLinker.extractIdentifiers t)
    /\ In id (IdentityLinker.extractIdentifiers h).

(** The actions of [recommendActions] before the final sort *)
Definition unsorted_actions (problem : ProblemRecord.Problem)
    (urgency0 : UrgencyPredictor.UrgencyScore)
    : list ActionRecommender.RecommendedAction :=
  ActionRecommender.actions_of_category problem urgency0
  ++ (if ProblemExtractor.can_agent_solve (ProblemRecord.pb_rest problem)
      then []
      else [ActionRecommender.supervisorEscalation]).

(** The order of the ticket queues: [a] may come before [b]. Urgent
    tickets come first, then medium, then low, and high ones last; tickets
    of one priority come oldest first. *)
Definition queue_order (a b : Escalation.EscalationTicket) : Prop :=
  (Escalation.tk_priority b = Escalation.urgent ->
   Escalation.tk_priority a = Escalation.urgent)
  /\ (Escalation.tk_priority a = Escalation.high ->
      Escalation.tk_priority b = Escalation.high)
  /\ (Escalation.tk_priority a = Escalation.low ->
      Escalation.tk_priority b <> Escalation.medium)
  /\ (Escalation.tk_priority a = Escalation.tk_priority b ->
      (Escalation.tk_created_at a <= Escalation.tk_created_at b)%Z).

(** The comparator of [retrieveRelevantVectors]: [y] stays before [x] when
    [x] is not later. *)
Definition not_later (y x : RedisVectorPoint) : bool :=
  (rv_timestamp x <=? rv_timestamp y)%Z.


End Notions.

(** ** Concrete inputs

    The inputs of the repository's own tests
    ([__tests__/services/identity-linker.test.ts]) and a few small ones on
    which the functions are evaluated below. *)

Module Examples.

Import Types.
Local Open Scope string_scope.

(** [new Array(1536).fill(x)] *)
Definition filled (x : R) : list R := repeat x 1536.

(** [mockEmbeddings] *)
Definition mockEmbeddings : MultiVectorEmbedding :=
  {| intent_vector := filled 0.1%R;
     frustration_vector := filled 0.2%R;
     product_vector := filled 0.3%R |}.

(** The [historicalVector] of the test that links to an existing id *)
Definition historicalVector : HistoricalPoint :=
  OfRedis
    {| rv_session_id := "session:web:123";
       rv_pseudo_user_id := "F29219AB-D41F-1234-5678-90ABCDEF1234";
       rv_channel := "web";
       rv_intent_vector := filled 0.1%R;
       rv_frustration_vector := filled 0.2%R;
       rv_product_vector := filled 0.3%R;
       rv_timestamp := 1735648392 |}.

Definition testMetadata : SessionMetadata :=
  {| ip := Some "192.168.1.1"; geo := Some "US"; lang := Some "en";
     user_agent := None |}.

(** A message of which only the text matters *)
Definition say (t : string) : Message :=
  {| ts := 1735648392; role := user; text := t; summary := t |}.

Definition orderMessage : Message := say "Order AB123".



(** A source of randomness that cycles through the sixteen digits, and one
    that always returns 0 (as a mocked [Math.random] does) *)
Definition cycling (n : nat) : Q := inject_Z (Z.of_nat (n mod 16)) / 16.
Definition always_zero (n : nat) : Q := 0.

(** The hashing stub of the tests *)
Definition mockHash (id : string) : string := "hashed_" ++ id.

(** A customer who asks for a person, and names no deadline *)
Definition escalationMessage : Message :=
  say "I want a manager or supervisor, this is terrible, the worst".

(** The message of the end-to-end scenario *)
Definition delayedOrderMessage : Message :=
  say "My order AB123 is delayed, this is unacceptable, I want my manager".

(** An embedding whose frustration vector is zero *)
Definition calm : MultiVectorEmbedding :=
  {| intent_vector := [1%R; 0%R]; frustration_vector := [0%R; 0%R];
     product_vector := [0%R; 1%R] |}.

(** Stores that are down: every call rejects, as
    [mockRedisClient.set.mockRejectedValueOnce(new Error("Redis error"))]
    arranges in the storage tests. *)
Definition failingEnv : MemoryStorage.Env :=
  {| MemoryStorage.getRedisClient :=
       MemoryStorage.Returned
         {| MemoryStorage.set :=
              fun _ _ _ => MemoryStorage.Threw (MemoryStorage.Error "Redis error");
            MemoryStorage.get :=
              fun _ => MemoryStorage.Threw (MemoryStorage.Error "Redis error") |};
     MemoryStorage.getVectorIndex :=
       MemoryStorage.Returned
         {| MemoryStorage.upsert :=
              fun _ => MemoryStorage.Threw (MemoryStorage.Error "Vector error");
            MemoryStorage.query :=
              fun _ _ =>
                MemoryStorage.Threw (MemoryStorage.Error "Vector error") |};
     MemoryStorage.getQdrantClient :=
       MemoryStorage.Returned
         {| MemoryStorage.qdrant_upsert :=
              fun _ _ => MemoryStorage.Threw (MemoryStorage.Error "Qdrant error");
            MemoryStorage.search :=
              fun _ _ _ =>
                MemoryStorage.Threw (MemoryStorage.Error "Qdrant error") |};
     MemoryStorage.JSON_stringify := fun _ => "{}";
     MemoryStorage.JSON_parse :=
       fun _ => MemoryStorage.Threw (MemoryStorage.Error "Unexpected token") |}.

(** The session data of the failing-write test *)
Definition emptySession : RedisSessionData :=
  {| messages := []; session_intent_vector := [];
     frustration_level := 0%R |}.

Definition testVector : RedisVectorPoint :=
  {| rv_session_id := "session:web:123";
     rv_pseudo_user_id := "F29219AB-D41F";
     rv_channel := "web";
     rv_intent_vector := filled 0.1%R;
     rv_frustration_vector := filled 0.2%R;
     rv_product_vector := filled 0.3%R;
     rv_timestamp := 1735648392 |}.

Definition testMemoryPoint : MemoryStorage.MemoryPoint :=
  {| MemoryStorage.mp_summary := "Test summary";
     MemoryStorage.mp_intent_vector := filled 0.1%R;
     MemoryStorage.mp_tone_vector := filled 0.2%R;
     MemoryStorage.mp_product_vector := filled 0.3%R;
     MemoryStorage.mp_entities := ["AB123"];
     MemoryStorage.mp_last_seen := 1735648392 |}.

(** An urgency of level high: the factors weigh
    0.35 + 0 + 0.2 + 0.15 = 0.7. *)
Definition highUrgency : UrgencyPredictor.UrgencyScore :=
  {| UrgencyPredictor.score := 0.7%R;
     UrgencyPredictor.level := UrgencyPredictor.high;
     UrgencyPredictor.factors :=
       {| UrgencyPredictor.frustration := 1%R;
          UrgencyPredictor.repetition := 0%R;
          UrgencyPredictor.time_sensitivity := 1%R;
          UrgencyPredictor.escalation_keywords := 1%R |} |}.

Definition lateDeliveryMessage : Message :=
  say "My delivery is delayed, I need help today".

(** A customer with an issue *)
Definition issueMessage : Message := say "I have an Issue with my order".

(** A problem the agent cannot solve *)
Definition refundProblem : ProblemRecord.Problem :=
  {| ProblemRecord.pb_id := "problem:web:1735648392:i-want-a-refund";
     ProblemRecord.pb_summary := "I want a refund";
     ProblemRecord.pb_category := "refund";
     ProblemRecord.pb_entities := [];
     ProblemRecord.pb_occurrence_count := 1;
     ProblemRecord.pb_rest :=
       {| ProblemExtractor.description := "I want a refund";
          ProblemExtractor.criticality := 1%R;
          ProblemExtractor.can_agent_solve := false;
          ProblemExtractor.urgency := highUrgency;
          ProblemExtractor.first_seen := 1735648392;
          ProblemExtractor.last_seen := 1735648392;
          ProblemExtractor.channels := ["web"] |} |}.



End Examples.

(** * Properties *)

Unset Implicit Arguments.

(** ** The model on the inputs of the repository's tests and README *)

Section Evaluation.

Import Types IdentityLinker Examples.
Local Open Scope string_scope.

Example order_ids_of_source_comment :
  Js.match_all orderPattern "Order AB123 and ORDER-456, not xAB12 or A1"
  = ["AB123"; "ORDER-456"].
Proof. vm_compute. reflexivity. Qed.

Example identifiers_of_a_message :
  extractIdentifiers
    "Order AB123, call 12345678901 or mail a.b@c-d.example.com."
  = ["AB123"; "12345678901"; "a.b@c-d.example.com"].
Proof. vm_compute. reflexivity. Qed.

Example split_keeps_outer_empty_pieces :
  Js.split_ws " late  Delivery " = [""; "late"; "Delivery"; ""].
Proof. vm_compute. reflexivity. Qed.

Example includes_finds_late_in_escalate :
  Js.includes (Js.toLowerCase "Please ESCALATE") "late" = true.
Proof. vm_compute. reflexivity. Qed.

Example mint_with_cycling_digits :
  generatePseudoUserId cycling 0
  = ("01234567-89AB-CDEF-0123-456789ABCDEF", 32%nat).
Proof. vm_compute. reflexivity. Qed.

Example test_id_is_well_formed :
  well_formed_id "F29219AB-D41F-1234-5678-90ABCDEF1234" = true
  /\ well_formed_id "F29219AB-D41F" = false
  /\ well_formed_id "f29219ab-d41f-1234-5678-90abcdef1234" = false.
Proof. vm_compute. repeat split. Qed.

(** "should create new identity map entry" *)
Example create_new_identity_map_entry :
  linkIdentityToMap mockHash 1735648392123 [] "F29219AB-D41F" "web" "user123"
    0.9
  = [ {| entry_pseudo_user_id := "F29219AB-D41F";
         linked_sessions :=
           [ {| channel := "web"; channel_user_id := "hashed_user123";
                confidence := 0.9 |} ];
         updated_at := 1735648392 |} ].
Proof. vm_compute. reflexivity. Qed.

(** "should update existing identity map entry" *)
Example update_existing_identity_map_entry :
  linkIdentityToMap mockHash 1735648400000
    [ {| entry_pseudo_user_id := "F29219AB-D41F";
         linked_sessions :=
           [ {| channel := "web"; channel_user_id := "hashed_user123";
                confidence := 0.8 |} ];
         updated_at := 1735648392 |} ]
    "F29219AB-D41F" "whatsapp" "user456" 0.95
  = [ {| entry_pseudo_user_id := "F29219AB-D41F";
         linked_sessions :=
           [ {| channel := "web"; channel_user_id := "hashed_user123";
                confidence := 0.8 |};
             {| channel := "whatsapp"; channel_user_id := "hashed_user456";
                confidence := 0.95 |} ];
         updated_at := 1735648400 |} ].
Proof. vm_compute. reflexivity. Qed.

Example manager_needs_a_human :
  existsb (fun pattern => Js.test pattern "I want my Manager")
    ProblemExtractor.HUMAN_REQUIRED_PATTERNS = true
  /\ existsb (fun pattern => Js.test pattern "where is my order")
       ProblemExtractor.HUMAN_REQUIRED_PATTERNS = false
  /\ existsb (fun pattern => Js.test pattern "where is my order")
       ProblemExtractor.AGENT_SOLVABLE_PATTERNS = true.
Proof. vm_compute. repeat split. Qed.

End Evaluation.

(** ** Cosine similarity *)

Section CosineFacts.

Import Types IdentityLinker Notions.
Local Open Scope R_scope.

Lemma cosine_loop_sums (v w : list R) :
  List.length v = List.length w ->
  forall d a b,
    cosine_loop v w d a b = (d + dot v w, a + norm_sq v, b + norm_sq w).
Proof.
  revert w. induction v as [|x v IH]; intros [|y w] Hlen d a b;
    simpl in Hlen; try discriminate.
  - unfold norm_sq. simpl. f_equal; [f_equal|]; lra.
  - simpl. rewrite IH by lia. unfold norm_sq. simpl. f_equal; [f_equal|]; lra.
Qed.

Lemma norm_sq_nonneg (v : list R) : 0 <= norm_sq v.
Proof.
  unfold norm_sq. induction v as [|x v IH]; simpl; [lra|].
  pose proof (Rle_0_sqr x) as H. unfold Rsqr in H. lra.
Qed.


(** Cauchy-Schwarz, on squares *)
Lemma dot_sq_le (v w : list R) :
  dot v w * dot v w <= norm_sq v * norm_sq w.
Proof.
  revert w. induction v as [|x v IH]; intros [|y w]; unfold norm_sq; simpl;
    try (rewrite ?Rmult_0_l, ?Rmult_0_r; lra).
  specialize (IH w).
    pose proof (norm_sq_nonneg v) as Hv. pose proof (norm_sq_nonneg w) as Hw.
    unfold norm_sq in *.
    set (S := dot v w) in *. set (A := dot v v) in *. set (B := dot w w) in *.
    assert (H2 : 2 * (S * (x * y)) <= A * (y * y) + B * (x * x)).
    { destruct (Rle_dec (2 * (S * (x * y))) 0) as [Hn|Hp]; [nra|].
      apply Rnot_le_lt in Hp.
      assert (Hsq : (2 * (S * (x * y))) * (2 * (S * (x * y)))
                    <= (A * (y * y) + B * (x * x)) * (A * (y * y) + B * (x * x))).
      { assert (4 * (S * S) * (x * x * (y * y)) <= 4 * (A * B) * (x * x * (y * y))).
        { apply Rmult_le_compat_r; [nra|lra]. }
        pose proof (Rle_0_sqr (A * (y * y) - B * (x * x))) as Hd.
        unfold Rsqr in Hd.
        replace ((A * (y * y) + B * (x * x)) * (A * (y * y) + B * (x * x)))
          with ((A * (y * y) - B * (x * x)) * (A * (y * y) - B * (x * x))
                + 4 * (A * B) * (x * x * (y * y))) by ring.
        replace (2 * (S * (x * y)) * (2 * (S * (x * y))))
          with (4 * (S * S) * (x * x * (y * y))) by ring.
        lra. }
      assert (0 <= A * (y * y) + B * (x * x)) by nra.
      nra. }
    nra.
Qed.

Lemma abs_dot_le (v w : list R) : Rabs (dot v w) <= norm v * norm w.
Proof.
  unfold norm. rewrite <- sqrt_mult by apply norm_sq_nonneg.
  rewrite <- (sqrt_Rsqr_abs (dot v w)). apply sqrt_le_1_alt.
  unfold Rsqr. apply dot_sq_le.
Qed.

Lemma cosineSimilarity_eq (v w : list R) :
  List.length v = List.length w ->
  cosineSimilarity v w =
    if Req_dec_T (norm v * norm w) 0 then 0 else dot v w / (norm v * norm w).
Proof.
  intros Hlen. unfold cosineSimilarity.
  rewrite Hlen, Nat.eqb_refl. simpl negb. cbv iota.
  rewrite (cosine_loop_sums v w Hlen). rewrite !Rplus_0_l. reflexivity.
Qed.

Lemma cosineSimilarity_length (v w : list R) :
  List.length v <> List.length w -> cosineSimilarity v w = 0.
Proof.
  intros Hlen. unfold cosineSimilarity.
  apply Nat.eqb_neq in Hlen. rewrite Hlen. reflexivity.
Qed.




Lemma cosineSimilarity_range (v w : list R) :
  -1 <= cosineSimilarity v w <= 1.
Proof.
  destruct (Nat.eq_dec (List.length v) (List.length w)) as [Hlen|Hlen].
  - rewrite cosineSimilarity_eq by exact Hlen.
    destruct (Req_dec_T (norm v * norm w) 0) as [_|Hne]; [lra|].
    pose proof (abs_dot_le v w) as Hcs.
    assert (Hpos : 0 < norm v * norm w).
    { assert (0 <= norm v) by apply sqrt_pos.
      assert (0 <= norm w) by apply sqrt_pos.
      assert (0 <= norm v * norm w) by nra. lra. }
    assert (Hb : - (norm v * norm w) <= dot v w <= norm v * norm w).
    { unfold Rabs in Hcs. destruct (Rcase_abs (dot v w)); lra. }
    assert (Hi : 0 < / (norm v * norm w)) by (apply Rinv_0_lt_compat; exact Hpos).
    assert (Hone : (norm v * norm w) * / (norm v * norm w) = 1)
      by (apply Rinv_r; exact Hne).
    unfold Rdiv. nra.
  - rewrite cosineSimilarity_length by exact Hlen. lra.
Qed.

End CosineFacts.

(** ** Ranges of the four signals *)

Section SignalRanges.

Import Types IdentityLinker Notions.
Local Open Scope R_scope.

Lemma ratio_unit (m t : nat) :
  (m <= t)%nat -> (0 < t)%nat -> 0 <= INR m / INR t <= 1.
Proof.
  intros Hmt Ht.
  assert (H0 : 0 < INR t) by (apply lt_0_INR; exact Ht).
  assert (Hm : 0 <= INR m) by apply pos_INR.
  assert (Hle : INR m <= INR t) by (apply le_INR; exact Hmt).
  assert (Hi : 0 < / INR t) by (apply Rinv_0_lt_compat; exact H0).
  assert (Hone : INR t * / INR t = 1) by (apply Rinv_r; lra).
  unfold Rdiv. nra.
Qed.

Lemma fold_sum_shift (l : list R) (a : R) :
  fold_left (fun sum sim => sum + sim) l a
  = a + fold_left (fun sum sim => sum + sim) l 0.
Proof.
  revert a. induction l as [|x l IH]; intros a; simpl; [lra|].
  rewrite (IH (a + x)), (IH (0 + x)). lra.
Qed.

Lemma fold_sum_bounds (lo hi : R) (l : list R) :
  Forall (fun x => lo <= x <= hi) l ->
  lo * INR (List.length l) <= fold_left (fun sum sim => sum + sim) l 0
  <= hi * INR (List.length l).
Proof.
  induction 1 as [|x l Hx _ IH].
  - simpl. lra.
  - cbn [fold_left]. rewrite fold_sum_shift.
    change (Datatypes.length (x :: l)) with (S (Datatypes.length l)).
    rewrite S_INR. lra.
Qed.

Lemma mean_bounds (lo hi : R) (l : list R) :
  l <> [] -> Forall (fun x => lo <= x <= hi) l ->
  lo <= fold_left (fun sum sim => sum + sim) l 0 / INR (List.length l) <= hi.
Proof.
  intros Hne Hall. pose proof (fold_sum_bounds lo hi l Hall) as Hb.
  assert (Hn : 0 < INR (List.length l)).
  { apply lt_0_INR. destruct l; [congruence|simpl; lia]. }
  assert (Hi : 0 < / INR (List.length l)) by (apply Rinv_0_lt_compat; exact Hn).
  assert (Hone : INR (List.length l) * / INR (List.length l) = 1)
    by (apply Rinv_r; lra).
  set (n := INR (List.length l)) in *.
  set (s := fold_left (fun sum sim => sum + sim) l 0) in *.
  assert (H1 : lo * n * / n <= s * / n)
    by (apply Rmult_le_compat_r; lra).
  assert (H2 : s * / n <= hi * n * / n)
    by (apply Rmult_le_compat_r; lra).
  rewrite Rmult_assoc, Hone in H1, H2. unfold Rdiv. lra.
Qed.

Lemma calculateVectorSimilarity_range emb hv :
  -1 <= calculateVectorSimilarity emb hv <= 1.
Proof.
  unfold calculateVectorSimilarity. destruct hv as [|h hv]; [lra|].
  apply mean_bounds.
  - discriminate.
  - apply Forall_forall. intros x Hx. apply in_map_iff in Hx.
    destruct Hx as (p & <- & _). apply cosineSimilarity_range.
Qed.

Lemma compare_field_le a b m t :
  (m <= t)%nat ->
  (fst (compare_field a b (m, t)) <= snd (compare_field a b (m, t)))%nat.
Proof.
  intros H. unfold compare_field.
  destruct (both_present a b); [destruct (same_field a b)|]; simpl; lia.
Qed.

Lemma calculateMetadataSimilarity_range inc hist :
  0 <= calculateMetadataSimilarity inc hist <= 1.
Proof.
  unfold calculateMetadataSimilarity.
  destruct inc as [inc|]; [|lra]. destruct hist as [hist|]; [|lra].
  pose proof (compare_field_le (ip inc) (ip hist) 0 0 (Nat.le_refl 0)) as H1.
  destruct (compare_field (ip inc) (ip hist) (0%nat, 0%nat)) as [m1 t1].
  pose proof (compare_field_le (geo inc) (geo hist) m1 t1 H1) as H2.
  destruct (compare_field (geo inc) (geo hist) (m1, t1)) as [m2 t2].
  pose proof (compare_field_le (lang inc) (lang hist) m2 t2 H2) as H3.
  destruct (compare_field (lang inc) (lang hist) (m2, t2)) as [m3 t3].
  simpl in H3. destruct (Nat.ltb_spec 0 t3) as [Ht|Ht]; [|lra].
  apply ratio_unit; assumption.
Qed.

Lemma count_class_le p s : (Js.count_class p s <= String.length s)%nat.
Proof.
  induction s as [|c s IH]; simpl; [lia|]. destruct (p c); lia.
Qed.

Lemma style_fold_invariant msgs tl pc cc tc :
  (pc <= tc)%nat -> (cc <= tc)%nat ->
  let '(_, pc', cc', tc') := fold_left style_step msgs (tl, pc, cc, tc) in
  (pc' <= tc')%nat /\ (cc' <= tc')%nat.
Proof.
  revert tl pc cc tc. induction msgs as [|m msgs IH]; intros tl pc cc tc Hp Hc.
  - simpl. split; assumption.
  - cbn [fold_left]. unfold style_step at 2.
    apply IH.
    + pose proof (count_class_le is_punctuation (text m)). lia.
    + pose proof (count_class_le Js.is_upper (text m)). lia.
Qed.

Lemma analyzeWritingStyle_ratios msgs :
  0 <= punctuationRatio (analyzeWritingStyle msgs) <= 1
  /\ 0 <= capitalizationRatio (analyzeWritingStyle msgs) <= 1.
Proof.
  unfold analyzeWritingStyle. destruct msgs as [|m msgs]; [simpl; lra|].
  pose proof (style_fold_invariant (m :: msgs) 0 0 0 0
                (Nat.le_refl 0) (Nat.le_refl 0)) as H.
  destruct (fold_left style_step (m :: msgs) (0%nat, 0%nat, 0%nat, 0%nat))
    as [[[tl pc] cc] tc].
  destruct H as [Hp Hc]. simpl.
  destruct (Nat.ltb_spec 0 tc) as [Ht|Ht]; [|lra].
  split; apply ratio_unit; assumption.
Qed.

Lemma calculateBehaviorSimilarity_range cur hist :
  0 <= calculateBehaviorSimilarity cur hist <= 1.
Proof.
  unfold calculateBehaviorSimilarity.
  destruct cur as [|c cur]; [lra|]. destruct hist as [|h hist]; [lra|].
  destruct (analyzeWritingStyle_ratios (c :: cur)) as [Hp1 Hc1].
  destruct (analyzeWritingStyle_ratios (h :: hist)) as [Hp2 Hc2].
  set (s1 := analyzeWritingStyle (c :: cur)) in *.
  set (s2 := analyzeWritingStyle (h :: hist)) in *.
  assert (Hl : 0 <= Rmin 1 (Rabs (avgLength s1 - avgLength s2) / 100) <= 1).
  { split; [|apply Rmin_l].
    apply Rmin_glb; [lra|].
    pose proof (Rabs_pos (avgLength s1 - avgLength s2)). lra. }
  assert (Hp : 0 <= Rabs (punctuationRatio s1 - punctuationRatio s2) <= 1).
  { split; [apply Rabs_pos|]. apply Rabs_le. lra. }
  assert (Hc : 0 <= Rabs (capitalizationRatio s1 - capitalizationRatio s2) <= 1).
  { split; [apply Rabs_pos|]. apply Rabs_le. lra. }
  lra.
Qed.

Lemma mem_In x l : Js.mem x l = true <-> In x l.
Proof.
  unfold Js.mem. rewrite existsb_exists. split.
  - intros (y & Hy & Heq). apply String.eqb_eq in Heq. subst. exact Hy.
  - intros H. exists x. split; [exact H|apply String.eqb_refl].
Qed.

Lemma set_add_all_In acc l x :
  In x (Js.set_add_all acc l) <-> In x acc \/ In x l.
Proof.
  revert acc. induction l as [|y l IH]; intros acc; simpl.
  - tauto.
  - rewrite IH. destruct (Js.mem y acc) eqn:Hm.
    + apply mem_In in Hm. split; [tauto|].
      intros [H|[H|H]]; subst; tauto.
    + rewrite in_app_iff. simpl. tauto.
Qed.

Lemma set_add_all_NoDup acc l :
  NoDup acc -> NoDup (Js.set_add_all acc l).
Proof.
  revert acc. induction l as [|y l IH]; intros acc Hnd; simpl; [exact Hnd|].
  apply IH. destruct (Js.mem y acc) eqn:Hm; [exact Hnd|].
  apply NoDup_app; [exact Hnd|repeat constructor; simpl; tauto|].
  intros x Hx [Heq|[]]. subst.
  apply mem_In in Hx. congruence.
Qed.

Lemma mkSet_In l x : In x (Js.mkSet l) <-> In x l.
Proof. unfold Js.mkSet. rewrite set_add_all_In. simpl. tauto. Qed.

Lemma mkSet_NoDup l : NoDup (Js.mkSet l).
Proof. unfold Js.mkSet. apply set_add_all_NoDup. constructor. Qed.

Lemma overlap_step_range cur acc t :
  0 <= acc <= 1 -> 0 <= overlap_step cur acc t <= 1.
Proof.
  intros Hacc. unfold overlap_step.
  set (hist := Js.mkSet (extractIdentifiers t)).
  set (inter := Js.mkSet (filter (fun id => Js.mem id hist) cur)).
  set (union := Js.mkSet (cur ++ hist)).
  assert (Hle : (List.length inter <= List.length union)%nat).
  { apply NoDup_incl_length; [apply mkSet_NoDup|].
    intros x Hx. unfold inter in Hx. unfold union.
    apply (proj1 (mkSet_In _ _)) in Hx. apply filter_In in Hx.
    apply (proj2 (mkSet_In _ _)). apply in_app_iff. tauto. }
  assert (Ho : 0 <= (if (0 <? List.length union)%nat
                     then INR (List.length inter) / INR (List.length union)
                     else 0) <= 1).
  { destruct (Nat.ltb_spec 0 (List.length union)); [|lra].
    apply ratio_unit; assumption. }
  split.
  - eapply Rle_trans; [|apply Rmax_l]. lra.
  - apply Rmax_lub; lra.
Qed.

Lemma calculateIdentifierOverlap_range t hist :
  0 <= calculateIdentifierOverlap t hist <= 1.
Proof.
  unfold calculateIdentifierOverlap. destruct hist as [|h hist]; [lra|].
  destruct (Js.mkSet (extractIdentifiers t)) as [|i cur]; [lra|].
  assert (H : forall l acc, 0 <= acc <= 1 ->
                0 <= fold_left (overlap_step (i :: cur)) l acc <= 1).
  { induction l as [|x l IH]; intros acc Hacc; simpl; [exact Hacc|].
    apply IH. apply overlap_step_range. exact Hacc. }
  apply H. lra.
Qed.

End SignalRanges.

(** ** Minted identifiers *)

Section Minting.

Import Types IdentityLinker Notions Examples.
Local Open Scope string_scope.
Local Open Scope nat_scope.

Lemma string_app_assoc (a b c : string) : (a ++ b) ++ c = a ++ (b ++ c).
Proof. induction a as [|x a IH]; simpl; [reflexivity|]. now rewrite IH. Qed.

Lemma string_app_nil_r (a : string) : a ++ "" = a.
Proof. induction a as [|x a IH]; simpl; [reflexivity|]. now rewrite IH. Qed.

Lemma string_app_inj (a a' b b' : string) :
  String.length a = String.length a' -> a ++ b = a' ++ b' ->
  a = a' /\ b = b'.
Proof.
  revert a'. induction a as [|x a IH]; intros [|x' a'] Hlen Heq;
    simpl in *; try discriminate.
  - split; [reflexivity|exact Heq].
  - injection Heq as Hx Hrest. injection Hlen as Hlen.
    destruct (IH a' Hlen Hrest) as [-> ->]. subst. split; reflexivity.
Qed.

Lemma random_index_range (rand : nat -> Q) (n : nat) :
  valid_random rand -> (0 <= random_index rand n < 16)%Z.
Proof.
  intros Hv. destruct (Hv n) as [H0 H1]. unfold random_index.
  change (inject_Z (Z.of_nat (String.length chars))) with (inject_Z 16).
  split.
  - change 0%Z with (Qfloor (inject_Z 0)). rewrite Qfloor_Z.
    rewrite <- (Qfloor_Z 0). apply Qfloor_resp_le.
    change (inject_Z 0) with (0 * inject_Z 16)%Q.
    apply Qmult_le_compat_r; [exact H0|discriminate].
  - assert (Hlt : (rand n * inject_Z 16 < inject_Z 16)%Q).
    { setoid_replace (inject_Z 16) with (1 * inject_Z 16)%Q at 2 by ring.
      apply Qmult_lt_compat_r; [reflexivity|exact H1]. }
    pose proof (Qfloor_le (rand n * inject_Z 16)) as Hfl.
    rewrite Zlt_Qlt. eapply Qle_lt_trans; eassumption.
Qed.

Lemma digit_cases (i : Z) :
  (0 <= i < 16)%Z ->
  In i [0; 1; 2; 3; 4; 5; 6; 7; 8; 9; 10; 11; 12; 13; 14; 15]%Z.
Proof. intros H. simpl. lia. Qed.

Lemma char_at_digit (i : Z) :
  (0 <= i < 16)%Z ->
  char_at chars i = String (hex_digit i) "" /\ is_hex_upper (hex_digit i) = true.
Proof.
  intros H. apply digit_cases in H. simpl in H.
  repeat (destruct H as [<-|H]; [split; reflexivity|]). contradiction.
Qed.

Lemma hex_digit_inj (i j : Z) :
  (0 <= i < 16)%Z -> (0 <= j < 16)%Z -> hex_digit i = hex_digit j -> i = j.
Proof.
  intros Hi Hj. apply digit_cases in Hi. apply digit_cases in Hj.
  simpl in Hi, Hj.
  repeat (destruct Hi as [<-|Hi]);
    try contradiction;
    repeat (destruct Hj as [<-|Hj]);
    try contradiction; intros Heq; first [reflexivity | discriminate Heq].
Qed.

Lemma hex_string_S (rand : nat -> Q) (pos n : nat) :
  hex_string rand pos (S n)
  = String (hex_digit (random_index rand pos)) (hex_string rand (S pos) n).
Proof. reflexivity. Qed.

Lemma hex_string_length (rand : nat -> Q) (pos n : nat) :
  String.length (hex_string rand pos n) = n.
Proof.
  revert pos. induction n as [|n IH]; intros pos; [reflexivity|].
  rewrite hex_string_S. simpl. now rewrite IH.
Qed.

Lemma segment_loop_eq (rand : nat -> Q) :
  valid_random rand ->
  forall n pos segment,
    segment_loop rand pos n segment
    = (segment ++ hex_string rand pos n, pos + n).
Proof.
  intros Hv. induction n as [|n IH]; intros pos segment.
  - simpl. rewrite string_app_nil_r. f_equal. lia.
  - cbn [segment_loop]. rewrite IH.
    destruct (char_at_digit (random_index rand pos)
                (random_index_range rand pos Hv)) as [-> _].
    rewrite hex_string_S, string_app_assoc. simpl. f_equal. lia.
Qed.



Lemma generatePseudoUserId_eq (rand : nat -> Q) (pos : nat) :
  valid_random rand ->
  generatePseudoUserId rand pos
  = (hex_string rand pos 8 ++ "-" ++ hex_string rand (pos + 8) 4 ++ "-"
     ++ hex_string rand (pos + 12) 4 ++ "-" ++ hex_string rand (pos + 16) 4
     ++ "-" ++ hex_string rand (pos + 20) 12,
     pos + 32).
Proof.
  intros Hv. unfold generatePseudoUserId, segments.
  cbn [map_segments]. rewrite !(segment_loop_eq rand Hv).
  replace (pos + 8 + 4) with (pos + 12) by lia.
  replace (pos + 12 + 4) with (pos + 16) by lia.
  replace (pos + 16 + 4) with (pos + 20) by lia.
  replace (pos + 20 + 12) with (pos + 32) by lia.
  reflexivity.
Qed.

Lemma all_hex_hex_string (rand : nat -> Q) :
  valid_random rand ->
  forall n pos rest, all_hex n (hex_string rand pos n ++ rest) = Some rest.
Proof.
  intros Hv. induction n as [|n IH]; intros pos rest; [reflexivity|].
  rewrite hex_string_S. cbn [append all_hex].
  destruct (char_at_digit (random_index rand pos)
              (random_index_range rand pos Hv)) as [_ ->].
  apply IH.
Qed.

Lemma generated_well_formed (rand : nat -> Q) (pos : nat) :
  valid_random rand ->
  well_formed_id (fst (generatePseudoUserId rand pos)) = true.
Proof.
  intros Hv. rewrite generatePseudoUserId_eq by exact Hv.
  cbn [fst]. unfold well_formed_id, segments.
  repeat (cbn [groups_ok append]; rewrite (all_hex_hex_string rand Hv);
          cbn [append andb Ascii.eqb Bool.eqb]).
  cbn [groups_ok].
  rewrite <- (string_app_nil_r (hex_string rand (pos + 20) 12)).
  rewrite (all_hex_hex_string rand Hv). reflexivity.
Qed.

Lemma hex_string_eq_iff (rand rand' : nat -> Q) :
  valid_random rand -> valid_random rand' ->
  forall n pos pos',
    hex_string rand pos n = hex_string rand' pos' n
    <-> (forall i, i < n ->
           random_index rand (pos + i) = random_index rand' (pos' + i)).
Proof.
  intros Hv Hv'. induction n as [|n IH]; intros pos pos'.
  - split; [intros _ i Hi; lia|reflexivity].
  - rewrite !hex_string_S. split.
    + intros Heq. injection Heq as Hd Hrest.
      apply hex_digit_inj in Hd; try (apply random_index_range; assumption).
      rewrite IH in Hrest. intros [|i] Hi.
      * rewrite !Nat.add_0_r. exact Hd.
      * rewrite <- !Nat.add_succ_comm. apply Hrest. lia.
    + intros Hpt. f_equal.
      * f_equal. specialize (Hpt 0). rewrite !Nat.add_0_r in Hpt.
        apply Hpt. lia.
      * apply IH. intros i Hi. rewrite !Nat.add_succ_comm. apply Hpt. lia.
Qed.

Lemma digits_eq_iff (rand rand' : nat -> Q) (pos pos' : nat) :
  digits rand pos = digits rand' pos'
  <-> (forall i, i < 32 ->
         random_index rand (pos + i) = random_index rand' (pos' + i)).
Proof.
  unfold digits. generalize 32 as n. intros n. revert pos pos'.
  induction n as [|n IH]; intros pos pos'.
  - split; [intros _ i Hi; lia|reflexivity].
  - cbn [seq map]. split.
    + intros Heq. injection Heq as Hd Hrest. rewrite IH in Hrest.
      intros [|i] Hi.
      * rewrite !Nat.add_0_r. exact Hd.
      * rewrite <- !Nat.add_succ_comm. apply Hrest. lia.
    + intros Hpt. f_equal.
      * specialize (Hpt 0). rewrite !Nat.add_0_r in Hpt. apply Hpt. lia.
      * apply IH. intros i Hi. rewrite !Nat.add_succ_comm. apply Hpt. lia.
Qed.

Lemma dash_inj (a b : string) : "-" ++ a = "-" ++ b -> a = b.
Proof. intros H. simpl in H. congruence. Qed.

Lemma generated_eq_iff (rand rand' : nat -> Q) (pos pos' : nat) :
  valid_random rand -> valid_random rand' ->
  fst (generatePseudoUserId rand pos) = fst (generatePseudoUserId rand' pos')
  <-> digits rand pos = digits rand' pos'.
Proof.
  intros Hv Hv'. rewrite !generatePseudoUserId_eq by assumption.
  cbn [fst]. rewrite digits_eq_iff. split.
  - intros Heq.
    apply string_app_inj in Heq; [|now rewrite !hex_string_length].
    destruct Heq as [H1 Heq]. apply dash_inj in Heq.
    apply string_app_inj in Heq; [|now rewrite !hex_string_length].
    destruct Heq as [H2 Heq]. apply dash_inj in Heq.
    apply string_app_inj in Heq; [|now rewrite !hex_string_length].
    destruct Heq as [H3 Heq]. apply dash_inj in Heq.
    apply string_app_inj in Heq; [|now rewrite !hex_string_length].
    destruct Heq as [H4 H5]. apply dash_inj in H5.
    rewrite (hex_string_eq_iff rand rand' Hv Hv') in H1, H2, H3, H4, H5.
    intros i Hi.
    destruct (Nat.lt_ge_cases i 8) as [C1|C1]; [apply H1; exact C1|].
    destruct (Nat.lt_ge_cases i 12) as [C2|C2].
    { replace (pos + i) with (pos + 8 + (i - 8)) by lia.
      replace (pos' + i) with (pos' + 8 + (i - 8)) by lia. apply H2. lia. }
    destruct (Nat.lt_ge_cases i 16) as [C3|C3].
    { replace (pos + i) with (pos + 12 + (i - 12)) by lia.
      replace (pos' + i) with (pos' + 12 + (i - 12)) by lia. apply H3. lia. }
    destruct (Nat.lt_ge_cases i 20) as [C4|C4].
    { replace (pos + i) with (pos + 16 + (i - 16)) by lia.
      replace (pos' + i) with (pos' + 16 + (i - 16)) by lia. apply H4. lia. }
    replace (pos + i) with (pos + 20 + (i - 20)) by lia.
    replace (pos' + i) with (pos' + 20 + (i - 20)) by lia. apply H5. lia.
  - intros Hpt.
    assert (Hseg : forall a n, a + n <= 32 ->
              hex_string rand (pos + a) n = hex_string rand' (pos' + a) n).
    { intros a n Han. apply (hex_string_eq_iff rand rand' Hv Hv').
      intros i Hi. rewrite <- !Nat.add_assoc. apply Hpt. lia. }
    pose proof (Hseg 0 8) as H1. rewrite !Nat.add_0_r in H1.
    rewrite H1, (Hseg 8 4), (Hseg 12 4), (Hseg 16 4), (Hseg 20 12) by lia.
    reflexivity.
Qed.

(** C6, as amended. Called with no historical candidates ([undefined] or
    an empty list), the resolver returns a newly minted id, made of five
    groups of 8, 4, 4, 4 and 12 upper-case hexadecimal digits separated by
    hyphens, and advances [Math.random] by 32 draws. Two successive calls
    return the same id exactly when the two runs of 32 draws select the
    same digits: nothing else keeps the ids apart. *)
Theorem minted_ids :
  forall rand, valid_random rand ->
  forall pos embeddings metadata historicalVectors currentMessages
         historicalMessages historicalMetadata,
    historicalVectors = None \/ historicalVectors = Some [] ->
    let first := linkIdentity rand pos embeddings metadata historicalVectors
                   currentMessages historicalMessages historicalMetadata in
    let second := linkIdentity rand (snd first) embeddings metadata
                    historicalVectors currentMessages historicalMessages
                    historicalMetadata in
    first = generatePseudoUserId rand pos
    /\ snd first = pos + 32
    /\ well_formed_id (fst first) = true
    /\ well_formed_id (fst second) = true
    /\ (fst first = fst second <-> digits rand pos = digits rand (pos + 32)).
Proof.
  intros rand Hv pos emb md hv cur hmsgs hmd Hempty first second.
  assert (Hlink : forall p, linkIdentity rand p emb md hv cur hmsgs hmd
                            = generatePseudoUserId rand p).
  { intros p. destruct Hempty as [-> | ->]; reflexivity. }
  subst second first. rewrite !Hlink.
  assert (Hpos : snd (generatePseudoUserId rand pos) = pos + 32).
  { rewrite generatePseudoUserId_eq by exact Hv. reflexivity. }
  rewrite Hpos.
  split; [reflexivity|]. split; [reflexivity|].
  split; [apply generated_well_formed; exact Hv|].
  split; [apply generated_well_formed; exact Hv|].
  apply generated_eq_iff; exact Hv.
Qed.

Lemma cycling_valid : valid_random cycling.
Proof.
  intros n. unfold cycling.
  assert (H : (0 <= Z.of_nat (n mod 16) < 16)%Z).
  { pose proof (Nat.mod_upper_bound n 16). lia. }
  split.
  - apply Qle_shift_div_l; [reflexivity|].
    rewrite Qmult_0_l. change 0%Q with (inject_Z 0). rewrite <- Zle_Qle. lia.
  - apply Qlt_shift_div_r; [reflexivity|].
    rewrite Qmult_1_l. change 16%Q with (inject_Z 16). rewrite <- Zlt_Qlt. lia.
Qed.

(** A first call on a source that cycles through the digits *)
Lemma minted_ids_witness :
  let first := linkIdentity cycling 0 mockEmbeddings None None [] [] None in
  fst first = "01234567-89AB-CDEF-0123-456789ABCDEF"
  /\ snd first = 32
  /\ well_formed_id (fst first) = true.
Proof.
  destruct (minted_ids cycling cycling_valid 0 mockEmbeddings None None [] []
              None (or_introl eq_refl))
    as (Hgen & Hpos & Hwf & _ & _).
  split; [reflexivity|]. split; [exact Hpos|exact Hwf].
Defined.

Lemma always_zero_valid : valid_random always_zero.
Proof. intros n. split; [apply Qle_refl|reflexivity]. Qed.

(** Two successive calls can return the same id: a source that repeats
    itself, here the constant 0, yields the same digits twice. *)
Lemma successive_ids_can_coincide :
  valid_random always_zero
  /\ let first := linkIdentity always_zero 0 mockEmbeddings None None [] []
                    None in
     let second := linkIdentity always_zero (snd first) mockEmbeddings None
                     None [] [] None in
     fst first = fst second.
Proof. split; [exact always_zero_valid|reflexivity]. Qed.

End Minting.

(** ** The scoring arithmetic on doubles *)

Section DoublePrecision.

Import PrimFloat.
Local Open Scope float_scope.
#[local] Set Warnings "-inexact-float".


(** Rounding can also push the quotient above 1. *)
Example cosine_above_one_in_doubles :
  (1 <? Double.cosineSimilarity [1; 1; 1] [1; 1; 1]) = true.
Proof. vm_compute. reflexivity. Qed.

(** Where the two readings agree: vectors whose sums and roots are exact,
    opposite vectors, and the weighted sum of four signals equal to 1. *)
Example cosine_exact_cases_in_doubles :
  Double.cosineSimilarity [3; 4] [3; 4] = 1
  /\ Double.cosineSimilarity [1; 0] [0; 1] = 0
  /\ Double.cosineSimilarity [0; 0] [3; 4] = 0
  /\ Double.cosineSimilarity [1] [-1] = -1.
Proof. vm_compute. repeat split. Qed.

Example match_score_of_ones_in_doubles :
  Double.matchScore 1 1 1 1 = 1
  /\ (Double.MATCH_THRESHOLD <? Double.matchScore 1 1 1 1) = true.
Proof. vm_compute. repeat split. Qed.

End DoublePrecision.

(** ** Cosine similarity and the four signals, as specified *)

Section Signals.

Import Types IdentityLinker Notions Examples.
Local Open Scope R_scope.







End Signals.

(** ** The resolver *)

Section Resolver.

Import Types IdentityLinker Notions Examples.
Local Open Scope R_scope.









End Resolver.

(** ** The identity map *)

Section IdentityMap.

Import Types IdentityLinker Notions Examples.
Local Open Scope string_scope.
Local Open Scope list_scope.

Lemma same_session_pair ch h s :
  same_session ch h s = true <-> pair_of s = (ch, h).
Proof.
  unfold same_session, pair_of. rewrite andb_true_iff, !String.eqb_eq.
  split; [intros [-> ->]; reflexivity|intros H; injection H; auto].
Qed.

Lemma upsert_session_nil ch h c :
  upsert_session ch h c [] = [new_link ch h c].
Proof. reflexivity. Qed.

Lemma upsert_session_cons ch h c x l :
  upsert_session ch h c (x :: l)
  = if same_session ch h x
    then (if Qlt_le_dec (confidence x) c then with_confidence x c :: l
          else x :: l)
    else x :: upsert_session ch h c l.
Proof.
  unfold upsert_session. cbn [findIndex].
  destruct (same_session ch h x); [reflexivity|].
  destruct (findIndex (same_session ch h) l) as [i|]; [|reflexivity].
  change (confidence_at (S i) (x :: l)) with (confidence_at i l).
  destruct (Qlt_le_dec (confidence_at i l) c); reflexivity.
Qed.

Lemma upsert_session_pairs ch h c l q :
  In q (map pair_of (upsert_session ch h c l)) ->
  In q (map pair_of l) \/ q = (ch, h).
Proof.
  induction l as [|x l IH].
  - rewrite upsert_session_nil. simpl. intros [<-|[]]. right. reflexivity.
  - rewrite upsert_session_cons.
    destruct (same_session ch h x) eqn:Hx.
    + destruct (Qlt_le_dec (confidence x) c); intros H; left; exact H.
    + cbn [map In]. intros [H|H]; [left; left; exact H|].
      destruct (IH H) as [H'|H']; [left; right; exact H'|right; exact H'].
Qed.

Lemma upsert_session_NoDup ch h c l :
  NoDup (map pair_of l) -> NoDup (map pair_of (upsert_session ch h c l)).
Proof.
  induction l as [|x l IH]; intros Hnd.
  - rewrite upsert_session_nil. repeat constructor. simpl. tauto.
  - rewrite upsert_session_cons.
    destruct (same_session ch h x) eqn:Hx.
    + destruct (Qlt_le_dec (confidence x) c); exact Hnd.
    + cbn [map] in *. inversion Hnd as [|? ? Hnotin Hnd']; subst.
      constructor; [|apply IH; exact Hnd'].
      intros Hin. apply upsert_session_pairs in Hin.
      destruct Hin as [Hin|Heq]; [exact (Hnotin Hin)|].
      apply same_session_pair in Heq. congruence.
Qed.

Lemma same_session_with_confidence ch h x c :
  same_session ch h (with_confidence x c) = same_session ch h x.
Proof. reflexivity. Qed.

Lemma raised_ge old new : (old <= raised old new)%Q.
Proof.
  unfold raised. destruct (Qlt_le_dec old new) as [H|H].
  - apply Qlt_le_weak. exact H.
  - apply Qle_refl.
Qed.

Lemma upsert_session_find ch h c l ch' h' s :
  find (same_session ch' h') l = Some s ->
  exists s',
    find (same_session ch' h') (upsert_session ch h c l) = Some s'
    /\ (confidence s <= confidence s')%Q.
Proof.
  induction l as [|x l IH]; [discriminate|].
  rewrite upsert_session_cons. cbn [find].
  destruct (same_session ch h x) eqn:Hx.
  - destruct (Qlt_le_dec (confidence x) c) as [Hlt|Hge]; cbn [find].
    + rewrite same_session_with_confidence.
      destruct (same_session ch' h' x).
      * intros [= <-]. exists (with_confidence x c). split; [reflexivity|].
        apply Qlt_le_weak. exact Hlt.
      * intros H. exists s. split; [exact H|apply Qle_refl].
    + intros H. exists s. split; [exact H|apply Qle_refl].
  - cbn [find]. destruct (same_session ch' h' x).
    + intros [= <-]. exists x. split; [reflexivity|apply Qle_refl].
    + exact IH.
Qed.

Lemma upsert_session_find_same ch h c l s :
  find (same_session ch h) l = Some s ->
  exists s',
    find (same_session ch h) (upsert_session ch h c l) = Some s'
    /\ pair_of s' = (ch, h)
    /\ confidence s' = raised (confidence s) c.
Proof.
  induction l as [|x l IH]; [discriminate|].
  rewrite upsert_session_cons. cbn [find].
  destruct (same_session ch h x) eqn:Hx.
  - intros [= <-]. unfold raised.
    destruct (Qlt_le_dec (confidence x) c); cbn [find].
    + rewrite same_session_with_confidence, Hx.
      exists (with_confidence x c). repeat split.
      apply same_session_pair in Hx. exact Hx.
    + rewrite Hx. exists x. repeat split. apply same_session_pair. exact Hx.
  - cbn [find]. rewrite Hx. exact IH.
Qed.

Lemma upsert_session_absent ch h c l :
  find (same_session ch h) l = None ->
  upsert_session ch h c l = l ++ [new_link ch h c].
Proof.
  induction l as [|x l IH]; [reflexivity|].
  rewrite upsert_session_cons. cbn [find].
  destruct (same_session ch h x); [discriminate|].
  intros H. rewrite IH by exact H. reflexivity.
Qed.

Lemma filter_absent (p : LinkedSession -> bool) l :
  find p l = None -> filter p l = [].
Proof.
  induction l as [|x l IH]; [reflexivity|]. simpl.
  destruct (p x); [discriminate|exact IH].
Qed.

(** The collection *)

Lemma find_updateOne_same (f : IdentityMapEntry -> bool) set c e :
  find f c = Some e -> f (set e) = true ->
  find f (updateOne f set c) = Some (set e).
Proof.
  induction c as [|x c IH]; [discriminate|]. simpl.
  destruct (f x) eqn:Hx.
  - intros [= <-] Hset. simpl. rewrite Hset. reflexivity.
  - intros H Hset. simpl. rewrite Hx. apply IH; assumption.
Qed.

Lemma find_updateOne_other (f g : IdentityMapEntry -> bool) set c :
  (forall e, f e = true -> g e = false /\ g (set e) = false) ->
  find g (updateOne f set c) = find g c.
Proof.
  intros H. induction c as [|x c IH]; [reflexivity|]. simpl.
  destruct (f x) eqn:Hx.
  - destruct (H x Hx) as [H1 H2]. simpl. rewrite H1, H2. reflexivity.
  - simpl. rewrite IH. reflexivity.
Qed.

Lemma updateOne_Forall (P : IdentityMapEntry -> Prop) f set c :
  (forall e, In e c -> f e = true -> P (set e)) ->
  Forall P c -> Forall P (updateOne f set c).
Proof.
  induction c as [|x c IH]; intros Hset Hall; [constructor|].
  inversion Hall as [|? ? Hx Hc]; subst. simpl.
  destruct (f x) eqn:Hfx.
  - constructor; [apply Hset; [left; reflexivity|exact Hfx]|exact Hc].
  - constructor; [exact Hx|]. apply IH; [|exact Hc].
    intros e He. apply Hset. right. exact He.
Qed.

Lemma find_append (f : IdentityMapEntry -> bool) c1 c2 :
  find f (c1 ++ c2)
  = match find f c1 with Some e => Some e | None => find f c2 end.
Proof.
  induction c1 as [|x c1 IH]; [reflexivity|]. simpl.
  destruct (f x); [reflexivity|exact IH].
Qed.

Lemma find_In (f : IdentityMapEntry -> bool) c e :
  find f c = Some e -> In e c /\ f e = true.
Proof. apply find_some. Qed.

Lemma by_pseudo_user_id_neq p p' e :
  p <> p' -> by_pseudo_user_id p e = true -> by_pseudo_user_id p' e = false.
Proof.
  unfold by_pseudo_user_id. intros Hne Hp. apply String.eqb_eq in Hp.
  apply String.eqb_neq. congruence.
Qed.

Lemma linkIdentityToMap_sessions_same hashIdentifier nowMs c p ch u q :
  getLinkedSessions (linkIdentityToMap hashIdentifier nowMs c p ch u q) p
  = upsert_session ch (hashIdentifier u) q (getLinkedSessions c p).
Proof.
  unfold linkIdentityToMap, getLinkedSessions, findOne, insertOne.
  destruct (find (by_pseudo_user_id p) c) as [e|] eqn:Hfind.
  - erewrite find_updateOne_same; [reflexivity|exact Hfind|].
    apply find_In in Hfind. exact (proj2 Hfind).
  - rewrite find_append, Hfind. cbn [find].
    unfold by_pseudo_user_id at 1. cbn [entry_pseudo_user_id].
    rewrite String.eqb_refl. reflexivity.
Qed.

Lemma linkIdentityToMap_sessions_other hashIdentifier nowMs c p ch u q p' :
  p' <> p ->
  getLinkedSessions (linkIdentityToMap hashIdentifier nowMs c p ch u q) p'
  = getLinkedSessions c p'.
Proof.
  intros Hne. unfold linkIdentityToMap, getLinkedSessions, findOne, insertOne.
  destruct (find (by_pseudo_user_id p) c) as [e|] eqn:Hfind.
  - rewrite find_updateOne_other; [reflexivity|].
    intros x Hx. split.
    + apply (by_pseudo_user_id_neq p p' x); [congruence|exact Hx].
    + apply (by_pseudo_user_id_neq p p'); [congruence|exact Hx].
  - rewrite find_append. destruct (find (by_pseudo_user_id p') c); [reflexivity|].
    cbn [find]. unfold by_pseudo_user_id at 1. cbn [entry_pseudo_user_id].
    assert (Hf : String.eqb p p' = false) by (apply String.eqb_neq; congruence).
    rewrite Hf. reflexivity.
Qed.

Lemma linkIdentityToMap_entries_ok hashIdentifier nowMs c p ch u q :
  entries_ok c -> entries_ok (linkIdentityToMap hashIdentifier nowMs c p ch u q).
Proof.
  unfold entries_ok, linkIdentityToMap, findOne, insertOne. intros Hok.
  destruct (find (by_pseudo_user_id p) c) as [e|] eqn:Hfind.
  - apply updateOne_Forall; [|exact Hok]. intros x _ _.
    unfold no_duplicate_link. cbn [linked_sessions].
    apply upsert_session_NoDup.
    apply find_In in Hfind. destruct Hfind as [Hin _].
    rewrite Forall_forall in Hok. exact (Hok e Hin).
  - apply Forall_app. split; [exact Hok|]. constructor; [|constructor].
    unfold no_duplicate_link. simpl. repeat constructor. simpl. tauto.
Qed.

(** C3, as amended. Linking keeps every entry of the identity map free of
    duplicate sessions, and never lowers the confidence of a link that
    exists: the link of the session being linked gets the larger of the old
    and the new value, every other link is untouched. Linking a session
    that a pseudo_user_id does not have yet, twice, with confidences 0.7
    then 0.9, leaves under that pseudo_user_id exactly one link for the
    session, with confidence 0.9. (Entries of other pseudo_user_ids are not
    consulted.) *)
Theorem link_keeps_entry_invariants :
  (forall hashIdentifier nowMs collection pseudoUserId channel channelUserId
          confidence0,
     let collection' :=
       linkIdentityToMap hashIdentifier nowMs collection pseudoUserId channel
         channelUserId confidence0 in
     (entries_ok collection -> entries_ok collection')
     /\ (forall p ch h s,
           link_of collection p ch h = Some s ->
           exists s',
             link_of collection' p ch h = Some s'
             /\ (confidence s <= confidence s')%Q)
     /\ (forall s,
           link_of collection pseudoUserId channel
             (hashIdentifier channelUserId) = Some s ->
           exists s',
             link_of collection' pseudoUserId channel
               (hashIdentifier channelUserId) = Some s'
             /\ confidence s' = raised (confidence s) confidence0))
  /\ (forall hashIdentifier nowMs1 nowMs2 collection pseudoUserId channel
             channelUserId,
        link_of collection pseudoUserId channel (hashIdentifier channelUserId)
        = None ->
        links_of
          (linkIdentityToMap hashIdentifier nowMs2
             (linkIdentityToMap hashIdentifier nowMs1 collection pseudoUserId
                channel channelUserId 0.7)
             pseudoUserId channel channelUserId 0.9)
          pseudoUserId channel (hashIdentifier channelUserId)
        = [ {| channel := channel;
               channel_user_id := hashIdentifier channelUserId;
               confidence := 0.9 |} ]).
Proof.
  split.
  - intros hashId nowMs c p ch u q c'. subst c'. split; [|split].
    + apply linkIdentityToMap_entries_ok.
    + intros p' ch' h' s. unfold link_of.
      destruct (String.eqb_spec p' p) as [->|Hne].
      * rewrite linkIdentityToMap_sessions_same. apply upsert_session_find.
      * rewrite linkIdentityToMap_sessions_other by exact Hne.
        intros H. exists s. split; [exact H|apply Qle_refl].
    + intros s. unfold link_of. rewrite linkIdentityToMap_sessions_same.
      intros H. destruct (upsert_session_find_same ch (hashId u) q _ s H)
        as (s' & Hs' & _ & Hc).
      exists s'. split; assumption.
  - intros hashId now1 now2 c p ch u. unfold link_of, links_of. intros Hnone.
    rewrite !linkIdentityToMap_sessions_same.
    rewrite (upsert_session_absent ch (hashId u) 0.7 _ Hnone).
    set (l := getLinkedSessions c p) in *.
    assert (Hup : upsert_session ch (hashId u) 0.9 (l ++ [new_link ch (hashId u) 0.7])
                  = l ++ [new_link ch (hashId u) 0.9]).
    { clear -Hnone. induction l as [|x l IH].
      - cbn [app]. rewrite upsert_session_cons. unfold same_session, new_link.
        cbn [channel channel_user_id]. rewrite !String.eqb_refl.
        cbn [andb confidence]. reflexivity.
      - cbn [app]. rewrite upsert_session_cons. cbn [find] in Hnone.
        destruct (same_session ch (hashId u) x); [discriminate|].
        rewrite IH by exact Hnone. reflexivity. }
    rewrite Hup. rewrite filter_app, (filter_absent _ _ Hnone).
    cbn [filter app]. unfold same_session, new_link.
    cbn [channel channel_user_id]. rewrite !String.eqb_refl. reflexivity.
Qed.


(** The same session linked twice, with confidences 0.7 then 0.9 *)
Lemma link_keeps_entry_invariants_witness :
  let c1 := linkIdentityToMap mockHash 1735648392123 [] "F29219AB-D41F" "web"
              "user123" 0.7 in
  let c2 := linkIdentityToMap mockHash 1735648393456 c1 "F29219AB-D41F" "web"
              "user123" 0.9 in
  entries_ok c2
  /\ links_of c2 "F29219AB-D41F" "web" "hashed_user123"
     = [new_link "web" "hashed_user123" 0.9]
  /\ exists s',
       link_of c2 "F29219AB-D41F" "web" "hashed_user123" = Some s'
       /\ confidence s' = raised 0.7 0.9.
Proof.
  intros c1 c2. destruct link_keeps_entry_invariants as [Hinv Htwice].
  split; [|split].
  - apply (Hinv mockHash 1735648393456%Z c1 "F29219AB-D41F" "web" "user123"
             0.9%Q).
    apply (Hinv mockHash 1735648392123%Z [] "F29219AB-D41F" "web" "user123"
             0.7%Q).
    constructor.
  - apply (Htwice mockHash 1735648392123%Z 1735648393456%Z []
             "F29219AB-D41F" "web" "user123")%string.
    reflexivity.
  - apply (proj2 (proj2 (Hinv mockHash 1735648393456%Z c1 "F29219AB-D41F"
                           "web" "user123" 0.9%Q))
             (new_link "web" "hashed_user123" 0.7))%string.
    reflexivity.
Defined.

(** Uniqueness of a session across entries is not preserved: the same
    session linked under a second pseudo_user_id sits in two entries. *)
Lemma link_breaks_global_uniqueness :
  let c1 := linkIdentityToMap mockHash 1735648392123 []
              "01234567-89AB-CDEF-0123-456789ABCDEF" "web" "user123" 1 in
  let c2 := linkIdentityToMap mockHash 1735648399000 c1
              "FEDCBA98-7654-3210-FEDC-BA9876543210" "web" "user123" 0.85 in
  globally_unique c1 /\ ~ globally_unique c2.
Proof.
  intros c1 c2. unfold globally_unique. split.
  - simpl. repeat constructor. simpl. tauto.
  - simpl. intros H. inversion H as [|? ? Hnotin _]. apply Hnotin.
    left. reflexivity.
Qed.

End IdentityMap.

(** ** Urgency and criticality *)

Section Intelligence.

Import Types UrgencyPredictor ProblemExtractor Notions Examples.
Local Open Scope R_scope.


Lemma clamp01_ge (x t : R) : 0 < t <= 1 -> (t <= clamp01 x <-> t <= x).
Proof.
  intros Ht. unfold clamp01, Rmin, Rmax.
  destruct (Rle_dec 0 x); destruct (Rle_dec 1 _); split; lra.
Qed.

Lemma clamp01_id (x : R) : 0 <= x <= 1 -> clamp01 x = x.
Proof.
  intros H. unfold clamp01, Rmin, Rmax.
  destruct (Rle_dec 0 x); destruct (Rle_dec 1 _); lra.
Qed.



Lemma score_calculateUrgency msg emb stm ltm :
  score (calculateUrgency msg emb stm ltm)
  = clamp01
      (calculateFrustrationUrgency (frustration_vector emb) * 0.35
       + calculateRepetitionUrgency msg stm ltm * 0.30
       + calculateTimeSensitivityUrgency (text msg) * 0.20
       + calculateEscalationKeywordUrgency (text msg) * 0.15).
Proof.
  unfold calculateUrgency, clamp01. cbn [score frustration repetition
    time_sensitivity escalation_keywords].
  replace 1.0 with 1 by lra. replace 0.0 with 0 by lra.
  f_equal. f_equal. lra.
Qed.

Lemma level_calculateUrgency msg emb stm ltm :
  level (calculateUrgency msg emb stm ltm)
  = level_of
      (calculateFrustrationUrgency (frustration_vector emb) * 0.35
       + calculateRepetitionUrgency msg stm ltm * 0.30
       + calculateTimeSensitivityUrgency (text msg) * 0.20
       + calculateEscalationKeywordUrgency (text msg) * 0.15).
Proof.
  unfold calculateUrgency. cbn [level frustration repetition
    time_sensitivity escalation_keywords]. f_equal. lra.
Qed.










Lemma delayedOrder_counts :
  count_keywords escalationKeywords
    (Js.toLowerCase (text delayedOrderMessage)) = 2%nat
  /\ count_keywords timeSensitiveKeywords
       (Js.toLowerCase (text delayedOrderMessage)) = 0%nat
  /\ isProblemMessage (text delayedOrderMessage) = true
  /\ has_critical_keyword (text delayedOrderMessage) = true
  /\ existsb (fun pattern => Js.test pattern (text delayedOrderMessage))
       HUMAN_REQUIRED_PATTERNS = true.
Proof. repeat split; vm_compute; reflexivity. Qed.



End Intelligence.

(** ** Store failures and the order of reads *)

Section Storage.

Import Types MemoryStorage Notions Examples.
Local Open Scope string_scope.

Lemma try_catch_returns {A : Type} (body : outcome A) (fallback : A) :
  exists r, try_catch body (fun _ => Returned fallback) = Returned r.
Proof. destruct body as [a|e]; simpl; eauto. Qed.

Lemma retrieveShortTermMemory_down env sessionId error :
  redis_get_fails env sessionId error ->
  retrieveShortTermMemory env sessionId = Returned None.
Proof.
  unfold retrieveShortTermMemory.
  intros [H|(client & Hc & H)]; [rewrite H|rewrite Hc; simpl; rewrite H];
    reflexivity.
Qed.

Lemma retrieveRelevantVectors_down env queryVector limit error :
  vector_query_fails env queryVector limit error ->
  retrieveRelevantVectors env queryVector limit = Returned [].
Proof.
  unfold retrieveRelevantVectors.
  intros [H|(client & Hc & H)]; [rewrite H|rewrite Hc; simpl; rewrite H];
    reflexivity.
Qed.

Lemma retrieveLongTermMemory_down env queryVector limit error :
  qdrant_search_fails env queryVector limit error ->
  retrieveLongTermMemory env queryVector limit = Returned [].
Proof.
  unfold retrieveLongTermMemory.
  intros [H|(client & Hc & H)]; [rewrite H|rewrite Hc; simpl; rewrite H];
    reflexivity.
Qed.

Lemma storeShortTermMemory_down env sessionId sessionData error :
  redis_set_fails env sessionId sessionData error ->
  storeShortTermMemory env sessionId sessionData
  = Threw (StorageError
             ("Failed to store short-term memory: " ++ message_of error)
             redis).
Proof.
  unfold storeShortTermMemory.
  intros [H|(client & Hc & H)]; [rewrite H|rewrite Hc; simpl; rewrite H];
    reflexivity.
Qed.

Lemma storeShortTermVector_down env vectorData error :
  vector_upsert_fails env vectorData error ->
  storeShortTermVector env vectorData
  = Threw (StorageError
             ("Failed to store short-term vector: " ++ message_of error)
             redis).
Proof.
  unfold storeShortTermVector.
  intros [H|(client & Hc & H)]; [rewrite H|rewrite Hc; simpl; rewrite H];
    reflexivity.
Qed.

Lemma storeLongTermMemory_down env pseudoUserId memoryPoint error :
  qdrant_upsert_fails env pseudoUserId memoryPoint error ->
  storeLongTermMemory env pseudoUserId memoryPoint
  = Threw (StorageError
             ("Failed to store long-term memory: " ++ message_of error)
             qdrant).
Proof.
  unfold storeLongTermMemory.
  intros [H|(client & Hc & H)]; [rewrite H|rewrite Hc; simpl; rewrite H];
    reflexivity.
Qed.

(** C10. The three store reads always return: when the store behind them
    fails, the session read gives [null] and the two vector reads give an
    empty list. The three store writes rethrow: when the store behind them
    fails, each throws a [StorageError] that carries the failure's message
    and the tag of the store, [redis] for the short-term store and
    [qdrant] for the long-term one. *)
Theorem reads_absorb_writes_propagate :
  forall env,
    ((forall sessionId,
        exists r, retrieveShortTermMemory env sessionId = Returned r)
     /\ (forall queryVector limit,
           exists r, retrieveRelevantVectors env queryVector limit
                     = Returned r)
     /\ (forall queryVector limit,
           exists r, retrieveLongTermMemory env queryVector limit
                     = Returned r))
    /\ ((forall sessionId error,
           redis_get_fails env sessionId error ->
           retrieveShortTermMemory env sessionId = Returned None)
        /\ (forall queryVector limit error,
              vector_query_fails env queryVector limit error ->
              retrieveRelevantVectors env queryVector limit = Returned [])
        /\ (forall queryVector limit error,
              qdrant_search_fails env queryVector limit error ->
              retrieveLongTermMemory env queryVector limit = Returned []))
    /\ ((forall sessionId sessionData error,
           redis_set_fails env sessionId sessionData error ->
           storeShortTermMemory env sessionId sessionData
           = Threw (StorageError
                      ("Failed to store short-term memory: "
                       ++ message_of error) redis))
        /\ (forall vectorData error,
              vector_upsert_fails env vectorData error ->
              storeShortTermVector env vectorData
              = Threw (StorageError
                         ("Failed to store short-term vector: "
                          ++ message_of error) redis))
        /\ (forall pseudoUserId memoryPoint error,
              qdrant_upsert_fails env pseudoUserId memoryPoint error ->
              storeLongTermMemory env pseudoUserId memoryPoint
              = Threw (StorageError
                         ("Failed to store long-term memory: "
                          ++ message_of error) qdrant))).
Proof.
  intros env. split; [|split].
  - repeat split; intros; apply try_catch_returns.
  - repeat split; intros.
    + eapply retrieveShortTermMemory_down; eassumption.
    + eapply retrieveRelevantVectors_down; eassumption.
    + eapply retrieveLongTermMemory_down; eassumption.
  - repeat split; intros.
    + apply storeShortTermMemory_down; assumption.
    + apply storeShortTermVector_down; assumption.
    + apply storeLongTermMemory_down; assumption.
Qed.

(** All three stores down *)
Lemma reads_absorb_writes_propagate_witness :
  retrieveShortTermMemory failingEnv "session:test:123" = Returned None
  /\ retrieveRelevantVectors failingEnv (filled 0.1) 10 = Returned []
  /\ retrieveLongTermMemory failingEnv (filled 0.1) 10 = Returned []
  /\ storeShortTermMemory failingEnv "session:test:123" emptySession
     = Threw (StorageError "Failed to store short-term memory: Redis error"
                redis)
  /\ storeShortTermVector failingEnv testVector
     = Threw (StorageError "Failed to store short-term vector: Vector error"
                redis)
  /\ storeLongTermMemory failingEnv "F29219AB-D41F" testMemoryPoint
     = Threw (StorageError "Failed to store long-term memory: Qdrant error"
                qdrant).
Proof.
  destruct (reads_absorb_writes_propagate failingEnv)
    as (_ & (R1 & R2 & R3) & (W1 & W2 & W3)).
  split; [|split; [|split; [|split; [|split]]]].
  - apply (R1 _ (Error "Redis error")). right. eexists. split; reflexivity.
  - apply (R2 _ _ (Error "Vector error")). right. eexists. split; reflexivity.
  - apply (R3 _ _ (Error "Qdrant error")). right. eexists. split; reflexivity.
  - apply (W1 _ _ (Error "Redis error")). right. eexists. split; reflexivity.
  - apply (W2 _ (Error "Vector error")). right. eexists. split; reflexivity.
  - apply (W3 _ _ (Error "Qdrant error")). right. eexists. split; reflexivity.
Defined.

End Storage.

Section ReadOrder.

Import Pipeline.
Local Open Scope nat_scope.

(** C2. In the store route the three reads are awaited one by one, so at
    most one of them is in flight and the second is issued only after the
    first has settled; [retrieveUnifiedMemory] issues all three before it
    waits. Both wait for the three reads before they go on. *)
Theorem store_route_reads_one_at_a_time :
  trace store_reads
  = [Issued ShortTermGet; Settled ShortTermGet;
     Issued ShortTermVectorQuery; Settled ShortTermVectorQuery;
     Issued LongTermVectorQuery; Settled LongTermVectorQuery]
  /\ max_in_flight 0 (trace store_reads) = 1
  /\ issued_before_any_wait false (trace store_reads) = false
  /\ all_settled (trace store_reads) = true
  /\ max_in_flight 0 (trace retrieve_reads) = 3
  /\ issued_before_any_wait false (trace retrieve_reads) = true
  /\ all_settled (trace retrieve_reads) = true.
Proof. repeat split. Qed.

End ReadOrder.

(** ** Symmetry and scaling of the similarity signals *)

Section Symmetry.

Import Types IdentityLinker Notions Examples.
Local Open Scope R_scope.

Lemma dot_comm (v w : list R) : dot v w = dot w v.
Proof.
  revert w. induction v as [|x v IH]; intros [|y w]; simpl; try reflexivity.
  rewrite IH. ring.
Qed.



Lemma cosineSimilarity_sym (v w : list R) :
  cosineSimilarity v w = cosineSimilarity w v.
Proof.
  destruct (Nat.eq_dec (List.length v) (List.length w)) as [Hlen|Hlen].
  - rewrite (cosineSimilarity_eq v w Hlen).
    rewrite (cosineSimilarity_eq w v (eq_sym Hlen)).
    rewrite (dot_comm v w), (Rmult_comm (norm v) (norm w)). reflexivity.
  - rewrite (cosineSimilarity_length v w Hlen).
    rewrite cosineSimilarity_length; [reflexivity|congruence].
Qed.

Lemma both_present_sym a b : both_present a b = both_present b a.
Proof. destruct a, b; simpl; try reflexivity. apply andb_comm. Qed.

Lemma same_field_sym a b : same_field a b = same_field b a.
Proof. destruct a, b; simpl; try reflexivity. apply String.eqb_sym. Qed.

Lemma compare_field_sym a b acc : compare_field a b acc = compare_field b a acc.
Proof.
  unfold compare_field. destruct acc as [m t].
  rewrite (both_present_sym a b), (same_field_sym a b). reflexivity.
Qed.

(** X1. Three of the four signals do not depend on which side is called
    current and which historical: cosine similarity, metadata similarity
    and behaviour similarity give the same value when their two arguments
    are exchanged. *)
Theorem similarity_signals_symmetric :
  (forall v w, cosineSimilarity v w = cosineSimilarity w v)
  /\ (forall a b,
        calculateMetadataSimilarity a b = calculateMetadataSimilarity b a)
  /\ (forall a b,
        calculateBehaviorSimilarity a b = calculateBehaviorSimilarity b a).
Proof.
  split; [exact cosineSimilarity_sym|]. split.
  - intros [a|] [b|]; try reflexivity. unfold calculateMetadataSimilarity.
    rewrite (compare_field_sym (ip a)), (compare_field_sym (geo a)),
      (compare_field_sym (lang a)). reflexivity.
  - intros [|x a] [|y b]; try reflexivity. unfold calculateBehaviorSimilarity.
    rewrite (Rabs_minus_sym (avgLength _)),
      (Rabs_minus_sym (punctuationRatio _)),
      (Rabs_minus_sym (capitalizationRatio _)). reflexivity.
Qed.



End Symmetry.

(** ** What a match needs *)

Section MatchConditions.

Import Types IdentityLinker Notions Examples.
Local Open Scope R_scope.

Lemma ratio_pos (m t : nat) : (0 < m)%nat -> (0 < t)%nat -> 0 < INR m / INR t.
Proof.
  intros Hm Ht. apply Rdiv_lt_0_compat; apply lt_0_INR; assumption.
Qed.

Lemma overlap_step_pos (t h : string) (acc : R) :
  overlap_step (Js.mkSet (extractIdentifiers t)) acc h > 0
  <-> acc > 0 \/ share_identifier t h.
Proof.
  unfold overlap_step.
  set (cur := Js.mkSet (extractIdentifiers t)).
  set (hist := Js.mkSet (extractIdentifiers h)).
  set (inter := Js.mkSet (filter (fun id => Js.mem id hist) cur)).
  set (union := Js.mkSet (cur ++ hist)).
  assert (Hin : forall x, In x inter <->
                   In x (extractIdentifiers t) /\ In x (extractIdentifiers h)).
  { intros x. unfold inter. rewrite mkSet_In, filter_In. unfold cur, hist.
    rewrite mkSet_In, mem_In, mkSet_In. tauto. }
  assert (Hsub : forall x, In x inter -> In x union).
  { intros x Hx. apply Hin in Hx. unfold union. apply (proj2 (mkSet_In _ _)).
    apply in_app_iff. left. unfold cur. apply (proj2 (mkSet_In _ _)). tauto. }
  set (o := if (0 <? List.length union)%nat
            then INR (List.length inter) / INR (List.length union) else 0).
  assert (Ho : o > 0 <-> share_identifier t h).
  { unfold o, share_identifier. split.
    - intros Hpos. destruct inter as [|x inter'] eqn:E.
      + exfalso. destruct (0 <? List.length union)%nat; simpl in Hpos; lra.
      + exists x. apply Hin. left. reflexivity.
    - intros (x & Hx). apply (proj2 (Hin x)) in Hx.
      assert (Hi : (0 < List.length inter)%nat).
      { destruct inter; [destruct Hx|simpl; lia]. }
      assert (Hu : (0 < List.length union)%nat).
      { apply Hsub in Hx. destruct union; [destruct Hx|simpl; lia]. }
      destruct (Nat.ltb_spec 0 (List.length union)); [|lia].
      apply ratio_pos; assumption. }
  fold o. rewrite <- Ho. unfold Rmax. destruct (Rle_dec acc o); lra.
Qed.

Lemma fold_overlap_pos (t : string) (l : list string) (acc : R) :
  fold_left (overlap_step (Js.mkSet (extractIdentifiers t))) l acc > 0
  <-> acc > 0 \/ exists h, In h l /\ share_identifier t h.
Proof.
  revert acc. induction l as [|x l IH]; intros acc; simpl.
  - split; [tauto|]. intros [H|(h & [] & _)]. exact H.
  - rewrite IH, overlap_step_pos. split.
    + intros [[H|H]|(h & Hh & Hs)]; [tauto| |]; right;
        [exists x|exists h]; tauto.
    + intros [H|(h & [<-|Hh] & Hs)]; [tauto|tauto|].
      right. exists h. tauto.
Qed.

(** X3. The identifier overlap of a text with a history is positive
    exactly when some historical text names an identifier (an order id, a
    phone number or an e-mail address) that the current text names too. *)
Theorem identifier_overlap_positive_iff :
  forall currentText historicalTexts,
    calculateIdentifierOverlap currentText historicalTexts > 0
    <-> exists h, In h historicalTexts /\ share_identifier currentText h.
Proof.
  intros t l. unfold calculateIdentifierOverlap.
  destruct l as [|h0 l].
  - split; [lra|]. intros (h & [] & _).
  - destruct (Js.mkSet (extractIdentifiers t)) as [|i cur] eqn:E.
    + split; [lra|]. intros (h & _ & id & Hid & _).
      apply (proj2 (mkSet_In _ _)) in Hid. rewrite E in Hid. destruct Hid.
    + rewrite <- E, fold_overlap_pos. split; [|tauto].
      intros [H|H]; [lra|exact H].
Qed.

Lemma score_of_le (s : Signals) :
  vectorSim s <= 1 -> metadataSim s <= 1 -> behaviorSim s <= 1 ->
  identifierSim s <= 1 ->
  score_of s <= 0.65 + 0.35 * vectorSim s
  /\ score_of s <= 0.75 + 0.25 * metadataSim s
  /\ score_of s <= 0.8 + 0.2 * behaviorSim s
  /\ score_of s <= 0.8 + 0.2 * identifierSim s.
Proof.
  intros Hv Hm Hb Hi. unfold score_of, matchScore, WEIGHTS.
  cbn [vector metadata behavior identifier]. repeat split; lra.
Qed.

Lemma signals_le embeddings metadata currentMessages historicalVectors
    historicalMetadata historicalMessages :
  let s := signals embeddings metadata currentMessages historicalVectors
             historicalMetadata historicalMessages in
  vectorSim s <= 1 /\ metadataSim s <= 1 /\ behaviorSim s <= 1
  /\ identifierSim s <= 1.
Proof.
  cbn [signals vectorSim metadataSim behaviorSim identifierSim].
  repeat split.
  - apply calculateVectorSimilarity_range.
  - apply calculateMetadataSimilarity_range.
  - apply calculateBehaviorSimilarity_range.
  - apply calculateIdentifierOverlap_range.
Qed.


Lemma low_score_none embeddings metadata currentMessages historicalVectors
    historicalMetadata historicalMessages :
  score_of (signals embeddings metadata currentMessages historicalVectors
              historicalMetadata historicalMessages) <= 0.82 ->
  findExistingPseudoUserId embeddings metadata currentMessages
    historicalVectors historicalMetadata historicalMessages = None.
Proof.
  intros H. unfold findExistingPseudoUserId.
  destruct historicalVectors; [reflexivity|].
  unfold MATCH_THRESHOLD. destruct (Rgt_dec _ _); [lra|reflexivity].
Qed.




Lemma no_history_no_behavior cur : calculateBehaviorSimilarity cur [] = 0.
Proof. destruct cur; reflexivity. Qed.

Lemma no_identifier_no_overlap t hist :
  extractIdentifiers t = [] -> calculateIdentifierOverlap t hist = 0.
Proof.
  intros H. unfold calculateIdentifierOverlap. rewrite H.
  destruct hist; reflexivity.
Qed.

Lemma no_metadata_no_similarity md hmd :
  md = None \/ hmd = None -> calculateMetadataSimilarity md hmd = 0.
Proof. intros [->| ->]; [|destruct md]; reflexivity. Qed.

Lemma weak_signal_no_match emb md cur hv hmd hmsgs :
  hmsgs = []
  \/ extractIdentifiers (Js.join " " (map text cur)) = []
  \/ md = None \/ hmd = None ->
  findExistingPseudoUserId emb md cur hv hmd hmsgs = None.
Proof.
  intros Hcase. apply low_score_none.
  destruct (signals_le emb md cur hv hmd hmsgs) as (Hv & Hm & Hb & Hi).
  set (s := signals emb md cur hv hmd hmsgs) in *.
  destruct (score_of_le s Hv Hm Hb Hi) as (_ & B2 & B3 & B4).
  destruct Hcase as [->|[Hid|Hmd]].
  - assert (behaviorSim s = 0) by apply no_history_no_behavior. lra.
  - assert (identifierSim s = 0)
      by (apply no_identifier_no_overlap; exact Hid). lra.
  - assert (metadataSim s = 0)
      by (apply no_metadata_no_similarity; exact Hmd). lra.
Qed.

Lemma no_match_mints rand pos emb md cur hv hmd hmsgs :
  findExistingPseudoUserId emb md cur hv hmd hmsgs = None ->
  linkIdentity rand pos emb md (Some hv) cur hmsgs hmd
  = generatePseudoUserId rand pos.
Proof.
  intros Hnone. unfold linkIdentity. destruct hv; [reflexivity|].
  rewrite Hnone. reflexivity.
Qed.

(** X5. No candidate is matched, and [linkIdentity] mints a new id, when
    there is no historical message, when the current messages name no
    identifier, or when the metadata of either side is absent. *)
Theorem no_match_without_history_identifiers_or_metadata :
  forall rand pos embeddings metadata currentMessages historicalVectors
         historicalMetadata historicalMessages,
    historicalMessages = []
    \/ extractIdentifiers (Js.join " " (map text currentMessages)) = []
    \/ metadata = None \/ historicalMetadata = None ->
    findExistingPseudoUserId embeddings metadata currentMessages
      historicalVectors historicalMetadata historicalMessages = None
    /\ linkIdentity rand pos embeddings metadata (Some historicalVectors)
         currentMessages historicalMessages historicalMetadata
       = generatePseudoUserId rand pos.
Proof.
  intros rand pos emb md cur hv hmd hmsgs Hcase.
  pose proof (weak_signal_no_match emb md cur hv hmd hmsgs Hcase) as Hnone.
  split; [exact Hnone|]. apply no_match_mints. exact Hnone.
Qed.

Lemma no_match_without_history_identifiers_or_metadata_witness :
  findExistingPseudoUserId mockEmbeddings (Some testMetadata) [orderMessage]
    [historicalVector] (Some testMetadata) [] = None
  /\ linkIdentity cycling 0 mockEmbeddings (Some testMetadata)
       (Some [historicalVector]) [orderMessage] [] (Some testMetadata)
     = generatePseudoUserId cycling 0.
Proof.
  apply (no_match_without_history_identifiers_or_metadata cycling 0%nat
           mockEmbeddings (Some testMetadata) [orderMessage]
           [historicalVector] (Some testMetadata) []).
  left. reflexivity.
Defined.

End MatchConditions.

(** ** The identity map: links and lookups *)

Section IdentityLookup.

Import Types IdentityLinker IdentityOperations Notions Examples.
Local Open Scope string_scope.
Local Open Scope list_scope.

Lemma find_app_any (A : Type) (f : A -> bool) (l1 l2 : list A) :
  find f (l1 ++ l2)
  = match find f l1 with Some x => Some x | None => find f l2 end.
Proof.
  induction l1 as [|x l1 IH]; simpl; [reflexivity|].
  destruct (f x); [reflexivity|exact IH].
Qed.

Lemma same_session_new_link ch h q :
  same_session ch h (new_link ch h q) = true.
Proof.
  unfold same_session, new_link. cbn [channel channel_user_id].
  rewrite !String.eqb_refl. reflexivity.
Qed.

Lemma raised_ge_new old new : (new <= raised old new)%Q.
Proof.
  unfold raised. destruct (Qlt_le_dec old new); [apply Qle_refl|assumption].
Qed.

(** After an upsert the session is linked, with at least the confidence
    given. *)
Lemma upsert_session_linked ch h q l :
  exists s,
    find (same_session ch h) (upsert_session ch h q l) = Some s
    /\ pair_of s = (ch, h)
    /\ (q <= confidence s)%Q
    /\ (find (same_session ch h) l = None -> s = new_link ch h q).
Proof.
  destruct (find (same_session ch h) l) as [s0|] eqn:E.
  - destruct (upsert_session_find_same ch h q l s0 E) as (s' & Hs' & Hp & Hc).
    exists s'. split; [exact Hs'|]. split; [exact Hp|].
    split; [rewrite Hc; apply raised_ge_new|discriminate].
  - exists (new_link ch h q).
    rewrite (upsert_session_absent ch h q l E), find_app_any, E.
    cbn [find]. rewrite same_session_new_link.
    split; [reflexivity|]. split; [reflexivity|].
    split; [apply Qle_refl|reflexivity].
Qed.

Lemma upsert_session_mentioned ch h q l :
  exists s, In s (upsert_session ch h q l) /\ channel s = ch
            /\ channel_user_id s = h.
Proof.
  destruct (upsert_session_linked ch h q l) as (s & Hs & Hp & _).
  exists s. split; [apply (find_some _ _ Hs)|].
  unfold pair_of in Hp. injection Hp as Hc Hu. tauto.
Qed.

Lemma isChannelLinked_iff collection p ch :
  isChannelLinked collection p ch = true
  <-> In ch (getLinkedChannels collection p).
Proof.
  unfold isChannelLinked, getLinkedChannels.
  rewrite existsb_exists, in_map_iff. split.
  - intros (s & Hin & Heq). apply String.eqb_eq in Heq. exists s. tauto.
  - intros (s & Heq & Hin). exists s. split; [exact Hin|].
    apply String.eqb_eq. exact Heq.
Qed.

(** X6. After [linkIdentityToMap] the session is linked under the
    pseudo_user_id: [getLinkedSessions] holds a link for the channel and
    the hashed id, with a confidence of at least the one given, and
    exactly the one given when the session was not linked before;
    [isChannelLinked] answers true and [getLinkedChannels] lists the
    channel. Before the link, a pseudo_user_id without an entry has no
    linked channel. *)
Theorem link_then_linked_sessions :
  forall hashIdentifier nowMs collection pseudoUserId channel0 channelUserId
         confidence0,
    let collection' :=
      linkIdentityToMap hashIdentifier nowMs collection pseudoUserId channel0
        channelUserId confidence0 in
    (exists s,
       link_of collection' pseudoUserId channel0 (hashIdentifier channelUserId)
       = Some s
       /\ In s (getLinkedSessions collection' pseudoUserId)
       /\ channel s = channel0
       /\ channel_user_id s = hashIdentifier channelUserId
       /\ (confidence0 <= confidence s)%Q
       /\ (link_of collection pseudoUserId channel0
             (hashIdentifier channelUserId) = None ->
           confidence s = confidence0))
    /\ isChannelLinked collection' pseudoUserId channel0 = true
    /\ In channel0 (getLinkedChannels collection' pseudoUserId)
    /\ (findOne (by_pseudo_user_id pseudoUserId) collection = None ->
        forall ch, isChannelLinked collection pseudoUserId ch = false).
Proof.
  intros hashId now c p ch u q c'.
  assert (Hin : In ch (getLinkedChannels c' p)).
  { unfold getLinkedChannels. subst c'. rewrite linkIdentityToMap_sessions_same.
    destruct (upsert_session_mentioned ch (hashId u) q (getLinkedSessions c p))
      as (s & Hs & Hc & _).
    apply in_map_iff. exists s. tauto. }
  split; [|split; [apply isChannelLinked_iff; exact Hin|split; [exact Hin|]]].
  - unfold link_of. subst c'. rewrite linkIdentityToMap_sessions_same.
    destruct (upsert_session_linked ch (hashId u) q (getLinkedSessions c p))
      as (s & Hs & Hp & Hq & Hnew).
    exists s. split; [exact Hs|].
    split; [apply (find_some _ _ Hs)|].
    unfold pair_of in Hp. injection Hp as Hc Hu.
    split; [exact Hc|]. split; [exact Hu|]. split; [exact Hq|].
    intros Hnone. rewrite (Hnew Hnone). reflexivity.
  - intros Hnone ch0. unfold isChannelLinked, getLinkedSessions.
    rewrite Hnone. reflexivity.
Qed.

Lemma upsert_session_again ch h q q' l :
  (q' <= q)%Q ->
  upsert_session ch h q' (upsert_session ch h q l) = upsert_session ch h q l.
Proof.
  intros Hle. induction l as [|x l IH].
  - rewrite upsert_session_nil, upsert_session_cons, same_session_new_link.
    cbn [new_link confidence].
    destruct (Qlt_le_dec q q') as [Hlt|_]; [|reflexivity].
    exfalso. apply (Qlt_not_le _ _ Hlt). exact Hle.
  - rewrite (upsert_session_cons ch h q x l).
    destruct (same_session ch h x) eqn:Hx.
    + destruct (Qlt_le_dec (confidence x) q) as [Hlt|Hge].
      * rewrite upsert_session_cons, same_session_with_confidence, Hx.
        cbn [with_confidence confidence].
        destruct (Qlt_le_dec q q') as [Hlt'|_]; [|reflexivity].
        exfalso. apply (Qlt_not_le _ _ Hlt'). exact Hle.
      * rewrite upsert_session_cons, Hx.
        destruct (Qlt_le_dec (confidence x) q') as [Hlt'|_]; [|reflexivity].
        exfalso. apply (Qlt_not_le _ _ Hlt'). eapply Qle_trans; eassumption.
    + rewrite upsert_session_cons, Hx, IH. reflexivity.
Qed.

(** X7. Linking a session once more, with the same or a lower
    confidence, changes no linked session of any pseudo_user_id. *)
Theorem relinking_changes_no_session :
  forall hashIdentifier nowMs1 nowMs2 collection pseudoUserId channel0
         channelUserId confidence1 confidence2,
    (confidence2 <= confidence1)%Q ->
    let once :=
      linkIdentityToMap hashIdentifier nowMs1 collection pseudoUserId channel0
        channelUserId confidence1 in
    let twice :=
      linkIdentityToMap hashIdentifier nowMs2 once pseudoUserId channel0
        channelUserId confidence2 in
    forall p, getLinkedSessions twice p = getLinkedSessions once p.
Proof.
  intros hashId now1 now2 c p ch u q1 q2 Hle once twice p'. subst once twice.
  destruct (String.eqb_spec p' p) as [->|Hne].
  - rewrite !linkIdentityToMap_sessions_same.
    apply upsert_session_again. exact Hle.
  - rewrite (linkIdentityToMap_sessions_other hashId now2 _ p ch u q2 p' Hne).
    reflexivity.
Qed.

Lemma relinking_changes_no_session_witness :
  let once := linkIdentityToMap mockHash 1735648392123 [] "F29219AB-D41F"
                "web" "user123" 1 in
  let twice := linkIdentityToMap mockHash 1735648399000 once "F29219AB-D41F"
                 "web" "user123" 0.85 in
  getLinkedSessions twice "F29219AB-D41F"
  = getLinkedSessions once "F29219AB-D41F".
Proof.
  intros once twice.
  apply (relinking_changes_no_session mockHash 1735648392123%Z
           1735648399000%Z [] "F29219AB-D41F" "web" "user123" 1%Q 0.85%Q).
  vm_compute. discriminate.
Defined.

Lemma updateOne_ids f set c :
  (forall e, entry_pseudo_user_id (set e) = entry_pseudo_user_id e) ->
  map entry_pseudo_user_id (updateOne f set c) = map entry_pseudo_user_id c.
Proof.
  intros Hset. induction c as [|e c IH]; simpl; [reflexivity|].
  destruct (f e); simpl; [rewrite Hset|rewrite IH]; reflexivity.
Qed.

Lemma updateOne_keeps f set c e :
  In e c -> f e = false -> In e (updateOne f set c).
Proof.
  intros Hin Hf. induction c as [|x c IH]; simpl; [destruct Hin|].
  destruct Hin as [->|Hin].
  - rewrite Hf. left. reflexivity.
  - destruct (f x); right; [exact Hin|apply IH; exact Hin].
Qed.

Lemma by_pseudo_user_id_true p e :
  by_pseudo_user_id p e = true <-> entry_pseudo_user_id e = p.
Proof. unfold by_pseudo_user_id. apply String.eqb_eq. Qed.

(** X8. [linkIdentityToMap] touches one entry. The pseudo_user_ids of the
    collection stay as they are, in order, with the given one added at the
    end exactly when it had no entry; every entry of another
    pseudo_user_id is kept as it is, and so are the sessions linked under
    it. *)
Theorem link_touches_one_entry :
  forall hashIdentifier nowMs collection pseudoUserId channel0 channelUserId
         confidence0,
    let collection' :=
      linkIdentityToMap hashIdentifier nowMs collection pseudoUserId channel0
        channelUserId confidence0 in
    map entry_pseudo_user_id collection'
    = map entry_pseudo_user_id collection
      ++ match findOne (by_pseudo_user_id pseudoUserId) collection with
         | Some _ => []
         | None => [pseudoUserId]
         end
    /\ (forall e, In e collection -> entry_pseudo_user_id e <> pseudoUserId ->
                  In e collection')
    /\ (forall p, p <> pseudoUserId ->
                  getLinkedSessions collection' p
                  = getLinkedSessions collection p).
Proof.
  intros hashId now c p ch u q c'. subst c'. split; [|split].
  - unfold linkIdentityToMap.
    destruct (findOne (by_pseudo_user_id p) c) as [existing|].
    + rewrite updateOne_ids by reflexivity. rewrite app_nil_r. reflexivity.
    + unfold insertOne. rewrite map_app. reflexivity.
  - intros e Hin Hne. unfold linkIdentityToMap.
    destruct (findOne (by_pseudo_user_id p) c) as [existing|].
    + apply updateOne_keeps; [exact Hin|].
      destruct (by_pseudo_user_id p e) eqn:E; [|reflexivity].
      apply by_pseudo_user_id_true in E. contradiction.
    + unfold insertOne. apply in_or_app. left. exact Hin.
  - intros p' Hne. apply linkIdentityToMap_sessions_other. exact Hne.
Qed.

Lemma mentions_of_pair ch h e s :
  In s (linked_sessions e) -> channel s = ch -> channel_user_id s = h ->
  mentions ch h e = true.
Proof.
  intros Hin Hc Hu. unfold mentions. apply andb_true_iff. split;
    apply existsb_exists; exists s; (split; [exact Hin|]);
    apply String.eqb_eq; assumption.
Qed.

(** The entry the reverse lookup selects once the link is made, when no
    entry under another id mentions the session *)
Lemma find_mentions_after_link hashId now c p ch u q :
  (forall e, In e c -> entry_pseudo_user_id e <> p ->
             mentions ch (hashId u) e = false) ->
  exists e', findOne (mentions ch (hashId u))
               (linkIdentityToMap hashId now c p ch u q) = Some e'
             /\ entry_pseudo_user_id e' = p.
Proof.
  intros Hother. unfold linkIdentityToMap, findOne.
  destruct (find (by_pseudo_user_id p) c) as [existing|] eqn:E.
  - set (L := upsert_session ch (hashId u) q (linked_sessions existing)).
    assert (HL : forall e, mentions ch (hashId u)
                   {| entry_pseudo_user_id := entry_pseudo_user_id e;
                      linked_sessions := L;
                      updated_at := (now / 1000)%Z |} = true).
    { intros e. destruct (upsert_session_mentioned ch (hashId u) q
                            (linked_sessions existing)) as (s & Hin & Hc & Hu).
      eapply mentions_of_pair; eassumption. }
    revert E Hother. generalize existing at 1. intros ex.
    induction c as [|x c IH]; intros E Hother; [discriminate|].
    cbn [find updateOne] in *.
    destruct (by_pseudo_user_id p x) eqn:Hx.
    + cbn [find]. rewrite HL. eexists. split; [reflexivity|].
      cbn [entry_pseudo_user_id]. apply by_pseudo_user_id_true. exact Hx.
    + cbn [find]. rewrite (Hother x).
      * apply IH; [exact E|]. intros e He. apply Hother. right. exact He.
      * left. reflexivity.
      * intros Heq. apply by_pseudo_user_id_true in Heq. congruence.
  - assert (Hnone : find (mentions ch (hashId u)) c = None).
    { clear -E Hother. induction c as [|x c IH]; [reflexivity|].
      cbn [find] in *. destruct (by_pseudo_user_id p x) eqn:Hx; [discriminate|].
      rewrite (Hother x).
      - apply IH; [|exact E]. intros e He. apply Hother. right. exact He.
      - left. reflexivity.
      - intros Heq. apply by_pseudo_user_id_true in Heq. congruence. }
    unfold insertOne. rewrite find_app_any, Hnone. cbn [find].
    rewrite (mentions_of_pair ch (hashId u) _ (new_link ch (hashId u) q));
      [|left; reflexivity|reflexivity|reflexivity].
    eexists. split; reflexivity.
Qed.

Lemma linkIdentityToMap_mentioned hashId now c p ch u q :
  exists e, In e (linkIdentityToMap hashId now c p ch u q)
            /\ mentions ch (hashId u) e = true.
Proof.
  unfold linkIdentityToMap.
  destruct (findOne (by_pseudo_user_id p) c) as [existing|] eqn:E.
  - destruct (upsert_session_mentioned ch (hashId u) q
                (linked_sessions existing)) as (s & Hin & Hc & Hu).
    unfold findOne in E. revert E. generalize existing at 1. intros ex E.
    induction c as [|x c IH]; [discriminate|]. cbn [find updateOne] in *.
    destruct (by_pseudo_user_id p x).
    + eexists. split; [left; reflexivity|].
      eapply mentions_of_pair; [exact Hin|exact Hc|exact Hu].
    + destruct (IH E) as (e & He & Hm). exists e. split; [right|]; assumption.
  - eexists. split; [unfold insertOne; apply in_or_app; right; left; reflexivity|].
    apply (mentions_of_pair ch (hashId u) _ (new_link ch (hashId u) q));
      [left|..]; reflexivity.
Qed.

Lemma linkIdentityToMap_ids hashId now c p ch u q e :
  In e (linkIdentityToMap hashId now c p ch u q) ->
  entry_pseudo_user_id e = p
  \/ exists e0, In e0 c /\ entry_pseudo_user_id e0 = entry_pseudo_user_id e.
Proof.
  unfold linkIdentityToMap.
  destruct (findOne (by_pseudo_user_id p) c) as [existing|].
  - generalize (upsert_session ch (hashId u) q (linked_sessions existing)).
    intros L. induction c as [|x c IH]; cbn [updateOne]; [intros []|].
    destruct (by_pseudo_user_id p x).
    + intros [<-|Hin]; right; [exists x|exists e]; cbn; tauto.
    + intros [<-|Hin]; [right; exists x; cbn; tauto|].
      destruct (IH Hin) as [H|(e0 & He0 & Hid)]; [tauto|].
      right. exists e0. cbn. tauto.
  - unfold insertOne. intros Hin. apply in_app_or in Hin.
    destruct Hin as [Hin|[<-|[]]]; [right; exists e; tauto|left; reflexivity].
Qed.

Lemma truthy_iff s : Js.truthy s = true <-> s <> "".
Proof. destruct s; simpl; split; congruence. Qed.

(** X9. A link read back through the reverse lookup. Once a session is
    linked under a non-empty id, in a map whose ids are not empty,
    [findPseudoUserId] finds an id for it; it finds the id just linked
    when no entry of another id mentions the channel and the hashed id. *)
Theorem link_then_reverse_lookup :
  forall hashIdentifier nowMs collection pseudoUserId channel0 channelUserId
         confidence0,
    pseudoUserId <> "" ->
    (forall e, In e collection -> entry_pseudo_user_id e <> "") ->
    let collection' :=
      linkIdentityToMap hashIdentifier nowMs collection pseudoUserId channel0
        channelUserId confidence0 in
    (exists p, findPseudoUserId hashIdentifier collection' channel0
                 channelUserId = Some p)
    /\ ((forall e, In e collection ->
                   entry_pseudo_user_id e <> pseudoUserId ->
                   mentions channel0 (hashIdentifier channelUserId) e = false) ->
        findPseudoUserId hashIdentifier collection' channel0 channelUserId
        = Some pseudoUserId).
Proof.
  intros hashId now c p ch u q Hp Hids c'. subst c'. split.
  - unfold findPseudoUserId.
    destruct (linkIdentityToMap_mentioned hashId now c p ch u q)
      as (e & He & Hm).
    destruct (findOne (mentions ch (hashId u))
                (linkIdentityToMap hashId now c p ch u q)) as [e'|] eqn:E.
    + apply find_some in E. destruct E as [Hin _].
      assert (Hne : entry_pseudo_user_id e' <> "").
      { destruct (linkIdentityToMap_ids _ _ _ _ _ _ _ _ Hin)
          as [->|(e0 & He0 & <-)]; [exact Hp|apply Hids; exact He0]. }
      apply truthy_iff in Hne. rewrite Hne. eexists. reflexivity.
    + exfalso. unfold findOne in E.
      pose proof (find_none _ _ E e He) as Hno. congruence.
  - intros Hother. unfold findPseudoUserId.
    destruct (find_mentions_after_link hashId now c p ch u q Hother)
      as (e' & -> & ->).
    apply truthy_iff in Hp. rewrite Hp. reflexivity.
Qed.

Lemma link_then_reverse_lookup_witness :
  findPseudoUserId mockHash
    (linkIdentityToMap mockHash 1735648392123 [] "F29219AB-D41F" "web"
       "user123" 0.9)
    "web" "user123"
  = Some "F29219AB-D41F".
Proof.
  apply (link_then_reverse_lookup mockHash 1735648392123%Z []
           "F29219AB-D41F" "web" "user123" 0.9%Q).
  - discriminate.
  - intros e [].
  - intros e [].
Defined.

(** X10. The lookup route answers 400 exactly when a parameter is missing
    or empty. When it answers found, the id is not empty, it is the id of
    an entry that mentions the channel and the hashed id, and it comes with
    the sessions linked under it. After a link the route answers found with
    the id linked, when no entry of another id mentions the session. *)
Theorem lookup_route_answers :
  forall hashIdentifier collection,
    (forall channel0 channelUserId,
       GET hashIdentifier collection channel0 channelUserId = BadRequest
       <-> (channel0 = None \/ channel0 = Some ""
            \/ channelUserId = None \/ channelUserId = Some ""))
    /\ (forall channel0 channelUserId pseudoUserId sessions,
          GET hashIdentifier collection channel0 channelUserId
          = Found pseudoUserId sessions ->
          pseudoUserId <> ""
          /\ sessions = getLinkedSessions collection pseudoUserId
          /\ exists ch u,
               channel0 = Some ch /\ channelUserId = Some u
               /\ exists e, In e collection
                            /\ entry_pseudo_user_id e = pseudoUserId
                            /\ mentions ch (hashIdentifier u) e = true)
    /\ (forall nowMs pseudoUserId channel0 channelUserId confidence0,
          pseudoUserId <> "" -> channel0 <> "" -> channelUserId <> "" ->
          (forall e, In e collection ->
                     entry_pseudo_user_id e <> pseudoUserId ->
                     mentions channel0 (hashIdentifier channelUserId) e
                     = false) ->
          let collection' :=
            linkIdentityToMap hashIdentifier nowMs collection pseudoUserId
              channel0 channelUserId confidence0 in
          GET hashIdentifier collection' (Some channel0) (Some channelUserId)
          = Found pseudoUserId (getLinkedSessions collection' pseudoUserId)).
Proof.
  intros hashId c. split; [|split].
  - intros [ch|] [u|]; unfold GET.
    + destruct ch as [|a ch]; destruct u as [|b u]; cbn [Js.truthy negb orb].
      * split; [tauto|reflexivity].
      * split; [tauto|reflexivity].
      * split; [tauto|reflexivity].
      * destruct (findPseudoUserId hashId c _ _); split; try discriminate;
          intros [H|[H|[H|H]]]; discriminate.
    + split; [tauto|reflexivity].
    + split; [tauto|reflexivity].
    + split; [tauto|reflexivity].
  - intros [ch|] [u|] p sessions; unfold GET; try discriminate.
    destruct (negb (Js.truthy ch) || negb (Js.truthy u)); [discriminate|].
    destruct (findPseudoUserId hashId c ch u) as [p'|] eqn:E; [|discriminate].
    intros [= -> <-]. unfold findPseudoUserId in E.
    destruct (findOne (mentions ch (hashId u)) c) as [e|] eqn:Ee;
      [|discriminate].
    destruct (Js.truthy (entry_pseudo_user_id e)) eqn:Ht; [|discriminate].
    injection E as <-. apply find_some in Ee.
    split; [apply truthy_iff; exact Ht|]. split; [reflexivity|].
    exists ch, u. split; [reflexivity|]. split; [reflexivity|].
    exists e. tauto.
  - intros now p ch u q Hp Hch Hu Hother c'. unfold GET.
    apply truthy_iff in Hch, Hu. rewrite Hch, Hu. cbn [negb orb].
    subst c'. unfold findPseudoUserId.
    destruct (find_mentions_after_link hashId now c p ch u q Hother)
      as (e' & -> & ->).
    apply truthy_iff in Hp. rewrite Hp. reflexivity.
Qed.

End IdentityLookup.

(** ** Key words and literal patterns *)

Section Keywords.

Import Types UrgencyPredictor ProblemExtractor Notions Examples.
Local Open Scope string_scope.

Lemma prefix_app (kw rest : string) : prefix kw (kw ++ rest) = true.
Proof.
  induction kw as [|c kw IH]; simpl; [destruct rest; reflexivity|].
  destruct (ascii_dec c c); [exact IH|congruence].
Qed.

Lemma prefix_split (kw s : string) :
  prefix kw s = true -> exists rest, s = kw ++ rest.
Proof.
  revert s. induction kw as [|c kw IH]; intros s H.
  - exists s. reflexivity.
  - destruct s as [|d s]; [discriminate|]. simpl in H.
    destruct (ascii_dec c d) as [->|]; [|discriminate].
    destruct (IH s H) as (rest & ->). exists rest. reflexivity.
Qed.

Lemma includes_cons (c : ascii) (text kw : string) :
  Js.includes (String c text) kw
  = if prefix kw (String c text) then true else Js.includes text kw.
Proof. reflexivity. Qed.

Lemma includes_iff (text kw : string) :
  Js.includes text kw = true <-> exists a b, text = a ++ kw ++ b.
Proof.
  split.
  - induction text as [|c text IH].
    + destruct kw as [|k kw]; [|discriminate]. intros _.
      exists "", "". reflexivity.
    + rewrite includes_cons. destruct (prefix kw (String c text)) eqn:E.
      * intros _. apply prefix_split in E. destruct E as (rest & E).
        exists "", rest. exact E.
      * intros H. destruct (IH H) as (a & b & ->).
        exists (String c a), b. reflexivity.
  - intros (a & b & ->). induction a as [|c a IH].
    + change ("" ++ kw ++ b) with (kw ++ b).
      destruct (kw ++ b) as [|x r] eqn:E.
      * destruct kw; [reflexivity|discriminate].
      * rewrite includes_cons, <- E, prefix_app. reflexivity.
    + change (String c a ++ kw ++ b) with (String c (a ++ kw ++ b)).
      rewrite includes_cons.
      destruct (prefix kw (String c (a ++ kw ++ b))); [reflexivity|exact IH].
Qed.

Lemma includes_inside (text pre kw post : string) :
  Js.includes text (pre ++ kw ++ post) = true -> Js.includes text kw = true.
Proof.
  rewrite !includes_iff. intros (a & b & ->).
  exists (a ++ pre), (post ++ b).
  rewrite !string_app_assoc. reflexivity.
Qed.

Lemma rmatch_lit_i (kw : string) :
  forall prev s,
    match Js.rmatch (Js.lit_i kw) prev s (fun _ rest => Some rest) with
    | Some _ => true
    | None => false
    end = prefix (Js.toLowerCase kw) (Js.toLowerCase s).
Proof.
  induction kw as [|c kw IH]; intros prev s.
  - destruct s; reflexivity.
  - destruct s as [|d s]; [reflexivity|].
    cbn [Js.lit_i Js.rmatch Js.toLowerCase prefix].
    destruct (Ascii.eqb_spec (Js.lower_char d) (Js.lower_char c)) as [E|E];
      destruct (ascii_dec (Js.lower_char c) (Js.lower_char d)) as [E'|E'];
      try congruence.
    apply IH.
Qed.

Lemma match_here_lit_i (kw : string) prev s :
  match Js.match_here (Js.lit_i kw) prev s with
  | Some _ => true
  | None => false
  end = prefix (Js.toLowerCase kw) (Js.toLowerCase s).
Proof.
  rewrite <- (rmatch_lit_i kw prev s). unfold Js.match_here.
  destruct (Js.rmatch _ _ _ _); reflexivity.
Qed.

(** A literal under the [i] flag is found where the lower-cased text
    includes the lower-cased literal. *)
Lemma test_lit_i (kw t : string) :
  Js.test (Js.lit_i kw) t
  = Js.includes (Js.toLowerCase t) (Js.toLowerCase kw).
Proof.
  unfold Js.test. generalize (@None ascii).
  induction t as [|c t IH]; intros prev.
  - cbn [Js.test_from Js.toLowerCase Js.includes].
    pose proof (match_here_lit_i kw prev "") as H.
    cbn [Js.toLowerCase] in H. rewrite <- H.
    destruct (Js.match_here _ _ _); reflexivity.
  - cbn [Js.test_from Js.toLowerCase]. rewrite includes_cons.
    pose proof (match_here_lit_i kw prev (String c t)) as H.
    cbn [Js.toLowerCase] in H. rewrite <- H.
    destruct (Js.match_here _ _ _); [reflexivity|apply IH].
Qed.

End Keywords.

(** ** The urgency factors and the urgency rank *)

Section UrgencyFacts.

Import Types UrgencyPredictor ProblemExtractor Notions Examples.
Local Open Scope string_scope.
Local Open Scope R_scope.

Lemma Rmin_unit (x : R) : 0 <= x -> 0 <= Rmin 1.0 x <= 1.
Proof. intros H. unfold Rmin. destruct (Rle_dec 1.0 x); lra. Qed.

Lemma Rmin_half (x : R) : 0 <= x -> 0 <= Rmin 0.5 x <= 0.5.
Proof. intros H. unfold Rmin. destruct (Rle_dec 0.5 x); lra. Qed.

Lemma fold_squares_nonneg (l : list R) (a : R) :
  0 <= a -> 0 <= fold_left (fun sum val => sum + val * val) l a.
Proof.
  revert a. induction l as [|x l IH]; intros a Ha; simpl; [exact Ha|].
  apply IH. pose proof (Rle_0_sqr x) as H. unfold Rsqr in H. lra.
Qed.

Lemma calculateFrustrationUrgency_range (v : list R) :
  v <> [] -> in_unit_interval (calculateFrustrationUrgency v).
Proof.
  intros Hv. unfold in_unit_interval, calculateFrustrationUrgency.
  apply Rmin_unit.
  assert (Hn : 0 < INR (List.length v)).
  { apply lt_0_INR. destruct v; [congruence|simpl; lia]. }
  assert (Hs : 0 <= sqrt (fold_left (fun sum val => sum + val * val) v 0))
    by apply sqrt_pos.
  assert (Hi : 0 < / INR (List.length v)) by (apply Rinv_0_lt_compat; exact Hn).
  unfold Rdiv. nra.
Qed.

Lemma calculateRepetitionUrgency_range msg stm ltm :
  in_unit_interval (calculateRepetitionUrgency msg stm ltm).
Proof.
  unfold in_unit_interval, calculateRepetitionUrgency. apply Rmin_unit.
  assert (H1 : forall n, 0 <= Rmin 0.5 (INR n * 0.15)).
  { intros n. apply Rmin_half. pose proof (pos_INR n). lra. }
  assert (H2 : forall n, 0 <= Rmin 0.5 (INR n * 0.1)).
  { intros n. apply Rmin_half. pose proof (pos_INR n). lra. }
  destruct stm as [st|]; [destruct (1 <? _)%nat|];
    destruct (0 <? _)%nat;
    repeat match goal with
           | |- context [Rmin 0.5 (INR ?n * 0.15)] =>
               pose proof (H1 n); generalize dependent (Rmin 0.5 (INR n * 0.15))
           | |- context [Rmin 0.5 (INR ?n * 0.1)] =>
               pose proof (H2 n); generalize dependent (Rmin 0.5 (INR n * 0.1))
           end; intros; lra.
Qed.

Lemma keyword_factor_range (n : nat) (w : R) :
  0 <= w -> in_unit_interval (Rmin 1.0 (INR n * w)).
Proof.
  intros Hw. apply Rmin_unit. pose proof (pos_INR n). nra.
Qed.

Lemma calculateUrgency_factors msg emb stm ltm :
  frustration_vector emb <> [] ->
  let f := factors (calculateUrgency msg emb stm ltm) in
  in_unit_interval (frustration f)
  /\ in_unit_interval (repetition f)
  /\ in_unit_interval (time_sensitivity f)
  /\ in_unit_interval (escalation_keywords f).
Proof.
  intros Hdim f. split; [|split; [|split]].
  - apply calculateFrustrationUrgency_range. exact Hdim.
  - apply calculateRepetitionUrgency_range.
  - apply keyword_factor_range. lra.
  - apply keyword_factor_range. lra.
Qed.

(** The clamp of [calculateUrgency] changes nothing. *)
Lemma calculateUrgency_unclamped msg emb stm ltm :
  frustration_vector emb <> [] ->
  let u := calculateUrgency msg emb stm ltm in
  let f := factors u in
  score u = frustration f * 0.35 + repetition f * 0.30
            + time_sensitivity f * 0.20 + escalation_keywords f * 0.15
  /\ level u = level_of (score u).
Proof.
  intros Hdim u f.
  destruct (calculateUrgency_factors msg emb stm ltm Hdim)
    as (F1 & F2 & F3 & F4).
  fold u in F1, F2, F3, F4. fold f in F1, F2, F3, F4.
  assert (Hs : score u = frustration f * 0.35 + repetition f * 0.30
                 + time_sensitivity f * 0.20 + escalation_keywords f * 0.15).
  { unfold u. rewrite score_calculateUrgency. apply clamp01_id.
    unfold in_unit_interval in *.
    change (calculateFrustrationUrgency (frustration_vector emb))
      with (frustration f).
    change (calculateRepetitionUrgency msg stm ltm) with (repetition f).
    change (calculateTimeSensitivityUrgency (text msg))
      with (time_sensitivity f).
    change (calculateEscalationKeywordUrgency (text msg))
      with (escalation_keywords f).
    lra. }
  split; [exact Hs|].
  rewrite Hs. unfold u. rewrite level_calculateUrgency. reflexivity.
Qed.

(** X11. For an embedding of positive dimension each of the four urgency
    factors lies in [[0, 1]]; so does their weighted sum, which the clamp
    of [calculateUrgency] therefore never changes, and the level is the one
    the thresholds give for the score returned. *)
Theorem urgency_factors_in_unit_interval :
  forall currentMessage embeddings shortTermMemory longTermMemories,
    frustration_vector embeddings <> [] ->
    let u := calculateUrgency currentMessage embeddings shortTermMemory
               longTermMemories in
    let f := factors u in
    in_unit_interval (frustration f)
    /\ in_unit_interval (repetition f)
    /\ in_unit_interval (time_sensitivity f)
    /\ in_unit_interval (escalation_keywords f)
    /\ in_unit_interval (score u)
    /\ score u = frustration f * 0.35 + repetition f * 0.30
                 + time_sensitivity f * 0.20 + escalation_keywords f * 0.15
    /\ level u = level_of (score u).
Proof.
  intros msg emb stm ltm Hdim u f.
  destruct (calculateUrgency_factors msg emb stm ltm Hdim)
    as (F1 & F2 & F3 & F4).
  destruct (calculateUrgency_unclamped msg emb stm ltm Hdim) as (Hs & Hl).
  fold u in F1, F2, F3, F4, Hs, Hl. fold f in F1, F2, F3, F4, Hs.
  repeat (split; [assumption|]).
  split; [|split; assumption].
  rewrite Hs. unfold in_unit_interval in *. lra.
Qed.

Lemma urgency_factors_in_unit_interval_witness :
  let u := calculateUrgency escalationMessage calm None [] in
  in_unit_interval (escalation_keywords (factors u))
  /\ level u = level_of (score u).
Proof.
  intros u.
  assert (Hdim : frustration_vector calm <> []) by discriminate.
  destruct (urgency_factors_in_unit_interval escalationMessage calm None []
              Hdim) as (_ & _ & _ & H4 & _ & _ & H6).
  split; [exact H4|exact H6].
Defined.




End UrgencyFacts.

(** ** Word overlap and key words inside words *)

Section WordOverlap.

Import Types UrgencyPredictor ProblemExtractor Notions Examples.
Local Open Scope string_scope.
Local Open Scope R_scope.

Lemma NoDup_same_length (l1 l2 : list string) :
  NoDup l1 -> NoDup l2 -> (forall x, In x l1 <-> In x l2) ->
  List.length l1 = List.length l2.
Proof.
  intros N1 N2 H. apply Nat.le_antisymm; apply NoDup_incl_length;
    try assumption; intros x Hx; apply H; exact Hx.
Qed.

Lemma split_ws_from_not_nil cur gap s : Js.split_ws_from cur gap s <> [].
Proof.
  revert cur gap. induction s as [|c s IH]; intros cur gap; simpl;
    [discriminate|].
  destruct (Js.is_space c); [destruct gap|]; try apply IH; discriminate.
Qed.

Lemma mkSet_not_nil l : l <> [] -> Js.mkSet l <> [].
Proof.
  intros Hl E. destruct l as [|x l]; [congruence|].
  assert (Hin : In x (Js.mkSet (x :: l))) by (apply mkSet_In; left; reflexivity).
  rewrite E in Hin. destruct Hin.
Qed.

(** The two set sizes the similarity tests compare *)
Lemma overlap_sizes_sym (w1 w2 : list string) :
  List.length (Js.mkSet (filter (fun w => Js.mem w w2) w1))
  = List.length (Js.mkSet (filter (fun w => Js.mem w w1) w2))
  /\ List.length (Js.mkSet (w1 ++ w2)) = List.length (Js.mkSet (w2 ++ w1)).
Proof.
  split; apply NoDup_same_length; try apply mkSet_NoDup; intros x;
    rewrite !mkSet_In.
  - rewrite !filter_In, !mem_In. tauto.
  - rewrite !in_app_iff. tauto.
Qed.

Lemma overlap_sizes_same (w : list string) :
  List.length (Js.mkSet (filter (fun x => Js.mem x w) w))
  = List.length (Js.mkSet (w ++ w)).
Proof.
  apply NoDup_same_length; try apply mkSet_NoDup. intros x.
  rewrite !mkSet_In, filter_In, mem_In, in_app_iff. tauto.
Qed.

Lemma words_not_nil t :
  Js.mkSet (Js.split_ws (Js.toLowerCase t)) <> [].
Proof. apply mkSet_not_nil. apply split_ws_from_not_nil. Qed.

Lemma union_pos (w : list string) :
  w <> [] -> (0 < List.length (Js.mkSet (w ++ w)))%nat.
Proof.
  intros Hw. assert (H : Js.mkSet (w ++ w) <> []).
  { apply mkSet_not_nil. destruct w; [congruence|discriminate]. }
  destruct (Js.mkSet (w ++ w)); [congruence|simpl; lia].
Qed.

(** X13. [isSimilarMessage] and [isSimilarProblem] are reflexive and
    symmetric: every text is similar to itself, and the order of the two
    texts does not matter. *)
Theorem word_overlap_tests_reflexive_symmetric :
  (forall a, isSimilarMessage a a = true)
  /\ (forall a b, isSimilarMessage a b = isSimilarMessage b a)
  /\ (forall a, isSimilarProblem a a = true)
  /\ (forall a b, isSimilarProblem a b = isSimilarProblem b a).
Proof.
  split; [|split; [|split]].
  - intros a. unfold isSimilarMessage.
    set (w := Js.mkSet (Js.split_ws (Js.toLowerCase a))).
    pose proof (union_pos w (words_not_nil a)) as Hpos.
    rewrite overlap_sizes_same.
    apply Nat.ltb_lt in Hpos. rewrite Hpos. apply Nat.ltb_lt in Hpos.
    unfold Rdiv. rewrite Rinv_r by (apply not_0_INR; lia).
    destruct (Rgt_dec 1 0.3); [reflexivity|lra].
  - intros a b. unfold isSimilarMessage.
    destruct (overlap_sizes_sym (Js.mkSet (Js.split_ws (Js.toLowerCase a)))
                (Js.mkSet (Js.split_ws (Js.toLowerCase b)))) as [-> ->].
    reflexivity.
  - intros a. unfold isSimilarProblem.
    set (w := Js.mkSet (Js.split_ws (Js.toLowerCase a))).
    pose proof (union_pos w (words_not_nil a)) as Hpos.
    rewrite overlap_sizes_same.
    apply Nat.ltb_lt in Hpos. rewrite Hpos. apply Nat.ltb_lt in Hpos.
    unfold Rdiv. rewrite Rinv_r by (apply not_0_INR; lia).
    destruct (Rgt_dec 1 0.4); [reflexivity|lra].
  - intros a b. unfold isSimilarProblem.
    destruct (overlap_sizes_sym (Js.mkSet (Js.split_ws (Js.toLowerCase a)))
                (Js.mkSet (Js.split_ws (Js.toLowerCase b)))) as [-> ->].
    reflexivity.
Qed.

Lemma count_keywords_pos keywords lowerText kw :
  In kw keywords -> Js.includes lowerText kw = true ->
  (1 <= count_keywords keywords lowerText)%nat.
Proof.
  intros Hin Hinc. unfold count_keywords.
  assert (H : In kw (filter (fun keyword => Js.includes lowerText keyword)
                       keywords)) by (apply filter_In; tauto).
  destruct (filter _ keywords); [destruct H|simpl; lia].
Qed.

Lemma keyword_factor_ge (n : nat) (w : R) :
  (1 <= n)%nat -> 0 <= w <= 1 -> w <= Rmin 1.0 (INR n * w).
Proof.
  intros Hn Hw. apply le_INR in Hn. simpl INR in Hn.
  unfold Rmin. destruct (Rle_dec 1.0 (INR n * w)); nra.
Qed.

(** X14. Key words are looked for as substrings of the lower-cased text,
    so a key word inside a longer word counts. A text with a word that
    contains a time-sensitive key word has a time-sensitivity factor of at
    least 0.2; with a word that contains an escalation key word, an
    escalation factor of at least 0.25. So does [escalate] count as [late],
    and [issue] as [sue]. *)
Theorem keywords_match_inside_words :
  forall t pre kw post,
    Js.includes (Js.toLowerCase t) (pre ++ kw ++ post) = true ->
    (In kw timeSensitiveKeywords -> 0.2 <= calculateTimeSensitivityUrgency t)
    /\ (In kw escalationKeywords ->
        0.25 <= calculateEscalationKeywordUrgency t).
Proof.
  intros t pre kw post Hinc. apply includes_inside in Hinc. split; intros Hin.
  - unfold calculateTimeSensitivityUrgency. apply keyword_factor_ge; [|lra].
    eapply count_keywords_pos; eassumption.
  - unfold calculateEscalationKeywordUrgency. apply keyword_factor_ge; [|lra].
    eapply count_keywords_pos; eassumption.
Qed.

Lemma keywords_match_inside_words_witness :
  0.2 <= calculateTimeSensitivityUrgency "Please ESCALATE"
  /\ 0.25 <= calculateEscalationKeywordUrgency "I have an issue".
Proof.
  split.
  - apply (keywords_match_inside_words "Please ESCALATE" "esca" "late" "").
    + vm_compute. reflexivity.
    + vm_compute. tauto.
  - apply (keywords_match_inside_words "I have an issue" "is" "sue" "").
    + vm_compute. reflexivity.
    + vm_compute. tauto.
Defined.

End WordOverlap.

(** ** Sorting *)

Section Sorting.

Variable A : Type.
Variable stays : A -> A -> bool.

Lemma insert_sorted_perm (x : A) (l : list A) :
  Permutation (Js.insert_sorted stays x l) (x :: l).
Proof.
  induction l as [|y l IH]; simpl; [apply Permutation_refl|].
  destruct (stays y x); [|apply Permutation_refl].
  eapply Permutation_trans; [apply perm_skip; exact IH|apply perm_swap].
Qed.

Lemma sort_fold_perm (l acc : list A) :
  Permutation
    (fold_left (fun sorted x => Js.insert_sorted stays x sorted) l acc)
    (acc ++ l).
Proof.
  revert acc. induction l as [|x l IH]; intros acc; simpl.
  - rewrite app_nil_r. apply Permutation_refl.
  - eapply Permutation_trans; [apply IH|].
    eapply Permutation_trans;
      [apply Permutation_app_tail; apply insert_sorted_perm|].
    simpl. apply Permutation_middle.
Qed.

Lemma sort_perm (l : list A) : Permutation (Js.sort stays l) l.
Proof. unfold Js.sort. apply (sort_fold_perm l []). Qed.

Lemma sort_In (l : list A) (x : A) : In x (Js.sort stays l) <-> In x l.
Proof.
  split; apply Permutation_in;
    [apply sort_perm|apply Permutation_sym; apply sort_perm].
Qed.

Lemma sort_length (l : list A) :
  List.length (Js.sort stays l) = List.length l.
Proof. apply Permutation_length. apply sort_perm. Qed.

Hypothesis stays_total : forall a b, stays a b = false -> stays b a = true.
Hypothesis stays_trans :
  forall a b c, stays a b = true -> stays b c = true -> stays a c = true.

Lemma insert_sorted_sorted (x : A) (l : list A) :
  StronglySorted (fun a b => stays a b = true) l ->
  StronglySorted (fun a b => stays a b = true) (Js.insert_sorted stays x l).
Proof.
  induction 1 as [|y l Hl IH Hy]; simpl.
  - constructor; constructor.
  - destruct (stays y x) eqn:E.
    + constructor; [exact IH|].
      apply Forall_forall. intros z Hz.
      apply (Permutation_in _ (insert_sorted_perm x l)) in Hz.
      destruct Hz as [<-|Hz]; [exact E|].
      rewrite Forall_forall in Hy. apply Hy. exact Hz.
    + apply stays_total in E. constructor; [constructor; assumption|].
      constructor; [exact E|].
      rewrite Forall_forall in Hy |- *. intros z Hz.
      apply (stays_trans x y z E). apply Hy. exact Hz.
Qed.

Lemma sort_sorted (l : list A) :
  StronglySorted (fun a b => stays a b = true) (Js.sort stays l).
Proof.
  unfold Js.sort.
  assert (H : forall acc,
             StronglySorted (fun a b => stays a b = true) acc ->
             StronglySorted (fun a b => stays a b = true)
               (fold_left (fun sorted x => Js.insert_sorted stays x sorted)
                  l acc)).
  { induction l as [|x l IH]; intros acc Hacc; simpl; [exact Hacc|].
    apply IH. apply insert_sorted_sorted. exact Hacc. }
  apply H. constructor.
Qed.

End Sorting.

Lemma StronglySorted_nth (A : Type) (R : A -> A -> Prop) (l : list A) :
  StronglySorted R l ->
  forall i j a b, (i < j)%nat -> nth_error l i = Some a ->
                  nth_error l j = Some b -> R a b.
Proof.
  induction 1 as [|x l Hl IH Hx]; intros i j a b Hij Hi Hj.
  - destruct i; discriminate.
  - destruct j as [|j]; [lia|]. simpl in Hj. destruct i as [|i].
    + simpl in Hi. injection Hi as <-.
      rewrite Forall_forall in Hx. apply Hx. eapply nth_error_In. exact Hj.
    + simpl in Hi. apply (IH i j); [lia|assumption|assumption].
Qed.

Lemma firstn_In (A : Type) (n : nat) (l : list A) (x : A) :
  In x (firstn n l) -> In x l.
Proof.
  revert n. induction l as [|y l IH]; intros [|n]; simpl; try tauto.
  intros [->|H]; [tauto|right; apply (IH n); exact H].
Qed.

Lemma StronglySorted_firstn (A : Type) (R : A -> A -> Prop) (n : nat)
    (l : list A) :
  StronglySorted R l -> StronglySorted R (firstn n l).
Proof.
  intros H. revert n. induction H as [|x l Hl IH Hx]; intros [|n]; simpl;
    try constructor.
  - apply IH.
  - rewrite Forall_forall in Hx |- *. intros z Hz. apply Hx.
    apply (firstn_In _ n). exact Hz.
Qed.

Lemma StronglySorted_weaken (A : Type) (R S : A -> A -> Prop) (l : list A) :
  (forall a b, R a b -> S a b) -> StronglySorted R l -> StronglySorted S l.
Proof.
  intros HRS. induction 1 as [|x l Hl IH Hx]; constructor; [exact IH|].
  eapply Forall_impl; [|exact Hx]. intros b. apply HRS.
Qed.


(** ** Recommended actions *)

Section Actions.

Import Types UrgencyPredictor ProblemExtractor ProblemRecord ActionRecommender
  Notions Examples.
Local Open Scope string_scope.
Local Open Scope R_scope.

Lemma by_score_true a b : by_score a b = true <-> sort_score b <= sort_score a.
Proof. unfold by_score. destruct (Rle_dec _ _); split; try tauto; discriminate. Qed.

Lemma by_score_total a b : by_score a b = false -> by_score b a = true.
Proof.
  unfold by_score. destruct (Rle_dec (sort_score b) (sort_score a));
    [discriminate|].
  intros _. destruct (Rle_dec (sort_score a) (sort_score b)); [reflexivity|lra].
Qed.

Lemma by_score_trans a b c :
  by_score a b = true -> by_score b c = true -> by_score a c = true.
Proof. rewrite !by_score_true. lra. Qed.

Lemma recommendActions_eq problem urgency0 :
  recommendActions problem urgency0
  = Js.sort by_score (unsorted_actions problem urgency0).
Proof.
  unfold recommendActions, unsorted_actions.
  destruct (can_agent_solve (pb_rest problem)); cbn [negb];
    [rewrite app_nil_r|]; reflexivity.
Qed.


Ltac each_action H :=
  repeat match type of H with
         | In _ (_ ++ _) => apply in_app_or in H
         | In _ (if ?c then _ else _) => destruct c
         | In _ (match ?c with _ => _ end) => destruct c
         | _ \/ _ => destruct H as [H|H]
         | In _ (_ :: _) => destruct H as [H|H]
         | In _ [] => destruct H
         end.

Lemma actions_of_category_cases problem urgency0 a :
  In a (actions_of_category problem urgency0) ->
  (can_auto_execute a = true ->
   In (ra_type a) [check_status; provide_info; update_account; apologize])
  /\ ra_confidence a <= 0.95
  /\ (ra_priority a = score urgency0 \/ ra_priority a = score urgency0 * 0.9
      \/ ra_priority a = score urgency0 * 0.8
      \/ ra_priority a = score urgency0 * 0.7
      \/ ra_priority a = score urgency0 * 0.6
      \/ ra_priority a = score urgency0 * 0.5).
Proof.
  unfold actions_of_category, recommendDeliveryActions,
    recommendPaymentActions, recommendRefundActions,
    recommendTechnicalActions, recommendAccountActions,
    recommendGenericActions.
  intros H.
  repeat match type of H with
         | context [if ?c then _ else _] => destruct c
         | context [match ?c with _ => _ end] => destruct c
         end;
    cbn [app] in H; each_action H; subst a;
    cbn [can_auto_execute ra_type ra_confidence ra_priority];
    (split; [intros; try discriminate; simpl; tauto|]); split; try lra; tauto.
Qed.

Lemma category_action_below_one problem urgency0 a :
  score urgency0 <= 1 -> In a (actions_of_category problem urgency0) ->
  sort_score a < 1.
Proof.
  intros Hs Hin.
  destruct (actions_of_category_cases problem urgency0 a Hin)
    as (_ & Hc & Hp).
  unfold sort_score.
  destruct Hp as [->|[->|[->|[->|[->| ->]]]]]; lra.
Qed.

Lemma sorted_head_is_max (l : list RecommendedAction) h rest :
  StronglySorted (fun a b => sort_score b <= sort_score a) l ->
  l = h :: rest -> forall a, In a l -> sort_score a <= sort_score h.
Proof.
  intros Hs -> a [<-|Hin]; [lra|].
  inversion Hs as [|? ? _ Hall]. subst.
  rewrite Forall_forall in Hall. apply Hall. exact Hin.
Qed.

Lemma recommendActions_ranked problem urgency0 :
  StronglySorted (fun a b => sort_score b <= sort_score a)
    (recommendActions problem urgency0).
Proof.
  rewrite recommendActions_eq.
  apply StronglySorted_weaken with (R := fun a b => by_score a b = true).
  - intros a b. apply by_score_true.
  - apply sort_sorted; [exact by_score_total|exact by_score_trans].
Qed.

Lemma recommendActions_In problem urgency0 a :
  In a (recommendActions problem urgency0)
  <-> In a (unsorted_actions problem urgency0).
Proof. rewrite recommendActions_eq. apply sort_In. Qed.

Lemma supervisor_recommended problem urgency0 :
  can_agent_solve (pb_rest problem) = false ->
  In supervisorEscalation (recommendActions problem urgency0).
Proof.
  intros Hcan. apply recommendActions_In. unfold unsorted_actions.
  rewrite Hcan. apply in_or_app. right. left. reflexivity.
Qed.

(** X16. When the agent cannot solve the problem and the urgency score is
    at most 1, the first recommended action is the escalation to a human
    supervisor. *)
Theorem supervisor_escalation_comes_first :
  forall problem urgency0,
    can_agent_solve (pb_rest problem) = false ->
    score urgency0 <= 1 ->
    hd_error (recommendActions problem urgency0) = Some supervisorEscalation.
Proof.
  intros problem u Hcan Hs.
  pose proof (supervisor_recommended problem u Hcan) as Hsup.
  destruct (recommendActions problem u) as [|h rest] eqn:E; [destruct Hsup|].
  cbn [hd_error]. f_equal.
  assert (Hmax : sort_score supervisorEscalation <= sort_score h).
  { apply (sorted_head_is_max (h :: rest) h rest); [|reflexivity|exact Hsup].
    rewrite <- E. apply recommendActions_ranked. }
  assert (Hh : In h (unsorted_actions problem u)).
  { apply recommendActions_In. rewrite E. left. reflexivity. }
  unfold unsorted_actions in Hh. rewrite Hcan in Hh.
  apply in_app_or in Hh. destruct Hh as [Hh|[Hh|[]]]; [|congruence].
  exfalso. pose proof (category_action_below_one problem u h Hs Hh) as Hlt.
  unfold sort_score, supervisorEscalation in Hmax.
  cbn [ra_priority ra_confidence] in Hmax. unfold sort_score in Hlt. lra.
Qed.

Lemma supervisor_escalation_comes_first_witness :
  hd_error (recommendActions refundProblem highUrgency)
  = Some supervisorEscalation.
Proof.
  apply (supervisor_escalation_comes_first refundProblem highUrgency).
  - reflexivity.
  - unfold highUrgency. cbn [score]. lra.
Defined.

(** X17. [executeAction] succeeds exactly on the actions flagged for
    automatic execution whose type is check_status, provide_info,
    update_account or apologize. Every action that [recommendActions] flags
    for automatic execution is of such a type: on a recommended action,
    success is the flag. *)
Theorem recommended_actions_execute_as_flagged :
  (forall nowMs action problem,
     success (executeAction nowMs action problem) = true
     <-> can_auto_execute action = true
         /\ In (ra_type action)
              [check_status; provide_info; update_account; apologize])
  /\ (forall nowMs problem urgency0 action,
        In action (recommendActions problem urgency0) ->
        success (executeAction nowMs action problem)
        = can_auto_execute action).
Proof.
  assert (Hex : forall nowMs action problem,
             success (executeAction nowMs action problem) = true
             <-> can_auto_execute action = true
                 /\ In (ra_type action)
                      [check_status; provide_info; update_account; apologize]).
  { intros now a problem. unfold executeAction.
    destruct (can_auto_execute a); cbn [negb success];
      [|split; [discriminate|intros [? _]; discriminate]].
    destruct (ra_type a); cbn [success executeCheckStatus executeProvideInfo
      executeUpdateAccount executeApologize In];
      split; try tauto; try discriminate;
      intros [_ H]; repeat (destruct H as [H|H]; try discriminate);
      destruct H. }
  split; [exact Hex|].
  intros now problem u a Hin. apply recommendActions_In in Hin.
  unfold unsorted_actions in Hin. apply in_app_or in Hin.
  destruct Hin as [Hin|Hin].
  - destruct (actions_of_category_cases problem u a Hin) as (Htype & _).
    destruct (can_auto_execute a) eqn:Ha.
    + apply Hex. split; [exact Ha|apply Htype; reflexivity].
    + unfold executeAction. rewrite Ha. reflexivity.
  - destruct (can_agent_solve (pb_rest problem)); [destruct Hin|].
    destruct Hin as [<-|[]]. reflexivity.
Qed.

End Actions.

(** ** Escalation *)

Section EscalationFacts.

Import Types UrgencyPredictor ProblemExtractor ProblemRecord Escalation
  Notions Examples.
Local Open Scope string_scope.

(** X18. [canAgentSolveProblem] is decided by the urgency level and the
    human-required patterns alone: it answers true exactly when the level
    is neither critical nor high and no human-required pattern is found.
    The agent-solvable patterns never change the answer. *)
Theorem agent_solvable_patterns_decide_nothing :
  forall t urgency0,
    canAgentSolveProblem t urgency0
    = negb (level_eqb (level urgency0) critical
            || level_eqb (level urgency0) UrgencyPredictor.high)
      && negb (existsb (fun pattern => Js.test pattern t)
                 HUMAN_REQUIRED_PATTERNS).
Proof.
  intros t u. unfold canAgentSolveProblem.
  destruct (level u); cbn [level_eqb orb negb andb]; try reflexivity;
    destruct (existsb _ HUMAN_REQUIRED_PATTERNS); cbn [negb];
    try reflexivity;
    destruct (existsb _ AGENT_SOLVABLE_PATTERNS); reflexivity.
Qed.

(** X19. [shouldEscalate] answers true exactly when the problem is
    critical or its description asks for a manager or a supervisor.
    [determineEscalationReason] never answers repeated_issue: a problem
    seen three times is critical, and that test comes first. It answers
    critical_problem exactly for the critical problems the agent can solve,
    and user_request exactly when a problem that is not critical asks for a
    person. *)
Theorem escalation_decision :
  forall problem,
    shouldEscalate problem
    = isCriticalProblem problem || asks_for_a_person problem
    /\ determineEscalationReason problem <> repeated_issue
    /\ (determineEscalationReason problem = critical_problem
        <-> can_agent_solve (pb_rest problem) = true
            /\ isCriticalProblem problem = true)
    /\ (determineEscalationReason problem = user_request
        <-> isCriticalProblem problem = false
            /\ asks_for_a_person problem = true).
Proof.
  intros problem.
  unfold shouldEscalate, determineEscalationReason, isCriticalProblem.
  destruct (can_agent_solve (pb_rest problem));
    destruct (Rge_dec (criticality (pb_rest problem)) 0.7);
    destruct (3 <=? pb_occurrence_count problem)%nat;
    destruct (asks_for_a_person problem);
    cbn [negb orb]; repeat split; try discriminate; try reflexivity;
    try tauto; intros [? ?]; discriminate.
Qed.

Lemma extractProblem_fields msg stm ltm u ch problem :
  ProblemRecord.extractProblem msg stm ltm u ch = Some problem ->
  isProblemMessage (text msg) = true
  /\ description (pb_rest problem) = text msg
  /\ can_agent_solve (pb_rest problem) = canAgentSolveProblem (text msg) u
  /\ urgency (pb_rest problem) = u.
Proof.
  unfold ProblemRecord.extractProblem, ProblemExtractor.extractProblem.
  destruct (isProblemMessage (text msg)); cbn [negb]; [|discriminate].
  intros [= <-]. cbn [pb_rest description can_agent_solve urgency]. tauto.
Qed.

Lemma extractProblem_some msg stm ltm u ch :
  isProblemMessage (text msg) = true ->
  exists problem, ProblemRecord.extractProblem msg stm ltm u ch = Some problem.
Proof.
  intros H. unfold ProblemRecord.extractProblem,
    ProblemExtractor.extractProblem. rewrite H. cbn [negb]. eexists.
  reflexivity.
Qed.

Lemma human_pattern_found t kw :
  In (Js.lit_i kw) HUMAN_REQUIRED_PATTERNS ->
  Js.includes (Js.toLowerCase t) (Js.toLowerCase kw) = true ->
  existsb (fun pattern => Js.test pattern t) HUMAN_REQUIRED_PATTERNS = true.
Proof.
  intros Hin Hinc. apply existsb_exists. exists (Js.lit_i kw).
  split; [exact Hin|]. rewrite test_lit_i. exact Hinc.
Qed.

Lemma human_pattern_not_solvable t u :
  existsb (fun pattern => Js.test pattern t) HUMAN_REQUIRED_PATTERNS = true ->
  canAgentSolveProblem t u = false.
Proof.
  intros H. unfold canAgentSolveProblem. rewrite H.
  destruct (level_eqb (level u) critical
            || level_eqb (level u) UrgencyPredictor.high); reflexivity.
Qed.

Lemma asking_for_a_person_not_solvable t u :
  Js.includes (Js.toLowerCase t) "manager"
  || Js.includes (Js.toLowerCase t) "supervisor" = true ->
  canAgentSolveProblem t u = false.
Proof.
  intros H. apply human_pattern_not_solvable.
  apply orb_true_iff in H. destruct H as [H|H].
  - apply (human_pattern_found t "manager"); [|exact H].
    unfold HUMAN_REQUIRED_PATTERNS.
    do 5 right. left. reflexivity.
  - apply (human_pattern_found t "supervisor"); [|exact H].
    unfold HUMAN_REQUIRED_PATTERNS.
    do 6 right. left. reflexivity.
Qed.

Lemma not_solvable_escalated problem :
  can_agent_solve (pb_rest problem) = false ->
  shouldEscalate problem = true
  /\ determineEscalationReason problem = agent_cannot_solve.
Proof.
  intros H. unfold shouldEscalate, determineEscalationReason. rewrite H.
  split; reflexivity.
Qed.

(** X20. For a problem that [extractProblem] returns, a description that
    asks for a manager or a supervisor makes the problem not
    agent-solvable, the two words being human-required patterns as well; so
    [shouldEscalate] is [isCriticalProblem], and the escalation reason is
    agent_cannot_solve or critical_problem. *)
Theorem extracted_problem_escalation :
  forall currentMessage shortTermMemory longTermMemories urgency0 channel
         problem,
    ProblemRecord.extractProblem currentMessage shortTermMemory
      longTermMemories urgency0 channel = Some problem ->
    (asks_for_a_person problem = true ->
     can_agent_solve (pb_rest problem) = false)
    /\ shouldEscalate problem = isCriticalProblem problem
    /\ (determineEscalationReason problem = agent_cannot_solve
        \/ determineEscalationReason problem = critical_problem).
Proof.
  intros msg stm ltm u ch problem Hex.
  destruct (extractProblem_fields _ _ _ _ _ _ Hex) as (_ & Hd & Hc & _).
  assert (Hasks : asks_for_a_person problem = true ->
                  can_agent_solve (pb_rest problem) = false).
  { unfold asks_for_a_person. rewrite Hd, Hc.
    apply asking_for_a_person_not_solvable. }
  split; [exact Hasks|].
  unfold shouldEscalate, determineEscalationReason, isCriticalProblem in *.
  destruct (can_agent_solve (pb_rest problem));
    destruct (Rge_dec (criticality (pb_rest problem)) 0.7);
    destruct (3 <=? pb_occurrence_count problem)%nat;
    destruct (asks_for_a_person problem);
    cbn [negb orb]; try tauto;
    specialize (Hasks eq_refl); discriminate.
Qed.

Lemma delayedOrder_extracted :
  exists problem,
    ProblemRecord.extractProblem delayedOrderMessage None []
      (calculateUrgency delayedOrderMessage calm None []) "web"
    = Some problem.
Proof.
  apply extractProblem_some. exact (proj1 (proj2 (proj2 delayedOrder_counts))).
Qed.

Lemma extracted_problem_escalation_witness :
  exists problem,
    ProblemRecord.extractProblem delayedOrderMessage None []
      (calculateUrgency delayedOrderMessage calm None []) "web"
    = Some problem
    /\ shouldEscalate problem = isCriticalProblem problem.
Proof.
  destruct delayedOrder_extracted as (problem & H). exists problem.
  split; [exact H|].
  apply (extracted_problem_escalation delayedOrderMessage None []
           (calculateUrgency delayedOrderMessage calm None []) "web" problem H).
Defined.

(** X21. A message that contains [issue], in any case, is a problem the
    agent is judged unable to solve, whatever the urgency: [issue] is a
    problem indicator, and the human-required pattern [/sue/i] finds [sue]
    inside it. The problem is escalated with the reason agent_cannot_solve,
    and the escalation to a supervisor is among the recommended actions. *)
Theorem issue_is_never_agent_solvable :
  forall currentMessage shortTermMemory longTermMemories urgency0 channel,
    Js.includes (Js.toLowerCase (text currentMessage)) "issue" = true ->
    exists problem,
      ProblemRecord.extractProblem currentMessage shortTermMemory
        longTermMemories urgency0 channel = Some problem
      /\ can_agent_solve (pb_rest problem) = false
      /\ shouldEscalate problem = true
      /\ determineEscalationReason problem = agent_cannot_solve
      /\ In ActionRecommender.supervisorEscalation
           (ActionRecommender.recommendActions problem urgency0).
Proof.
  intros msg stm ltm u ch Hissue.
  assert (Hp : isProblemMessage (text msg) = true).
  { unfold isProblemMessage. apply existsb_exists. exists "issue".
    split; [|exact Hissue]. unfold problemIndicators.
    right. left. reflexivity. }
  destruct (extractProblem_some msg stm ltm u ch Hp) as (problem & Hex).
  exists problem. split; [exact Hex|].
  destruct (extractProblem_fields _ _ _ _ _ _ Hex) as (_ & _ & Hc & _).
  assert (Hcan : can_agent_solve (pb_rest problem) = false).
  { rewrite Hc. apply human_pattern_not_solvable.
    apply (human_pattern_found (text msg) "sue").
    - unfold HUMAN_REQUIRED_PATTERNS. do 4 right. left. reflexivity.
    - apply (includes_inside _ "is" "sue" ""). exact Hissue. }
  split; [exact Hcan|].
  destruct (not_solvable_escalated problem Hcan) as (Hs & Hr).
  split; [exact Hs|]. split; [exact Hr|].
  apply supervisor_recommended. exact Hcan.
Qed.

Lemma issue_is_never_agent_solvable_witness :
  exists problem,
    ProblemRecord.extractProblem (say "I have an Issue with my order") None []
      (calculateUrgency (say "I have an Issue with my order") calm None [])
      "web"
    = Some problem
    /\ can_agent_solve (pb_rest problem) = false
    /\ shouldEscalate problem = true.
Proof.
  destruct (issue_is_never_agent_solvable
              (say "I have an Issue with my order") None []
              (calculateUrgency (say "I have an Issue with my order") calm
                 None [])
              "web") as (problem & H1 & H2 & H3 & _).
  - vm_compute. reflexivity.
  - exists problem. tauto.
Defined.

(** X22. A problem extracted under an urgency of level high or critical
    is not agent-solvable. It is escalated with the reason
    agent_cannot_solve and a priority of high or urgent, urgent when the
    level is critical, and the escalation to a supervisor is recommended. *)
Theorem high_urgency_is_escalated :
  forall currentMessage shortTermMemory longTermMemories urgency0 channel
         problem,
    ProblemRecord.extractProblem currentMessage shortTermMemory
      longTermMemories urgency0 channel = Some problem ->
    level urgency0 = UrgencyPredictor.high \/ level urgency0 = critical ->
    can_agent_solve (pb_rest problem) = false
    /\ shouldEscalate problem = true
    /\ determineEscalationReason problem = agent_cannot_solve
    /\ (determinePriority problem = Escalation.high
        \/ determinePriority problem = urgent)
    /\ (level urgency0 = critical -> determinePriority problem = urgent)
    /\ In ActionRecommender.supervisorEscalation
         (ActionRecommender.recommendActions problem urgency0).
Proof.
  intros msg stm ltm u ch problem Hex Hlevel.
  destruct (extractProblem_fields _ _ _ _ _ _ Hex) as (_ & _ & Hc & Hu).
  assert (Hcan : can_agent_solve (pb_rest problem) = false).
  { rewrite Hc. unfold canAgentSolveProblem.
    destruct Hlevel as [-> | ->]; reflexivity. }
  split; [exact Hcan|].
  destruct (not_solvable_escalated problem Hcan) as (Hs & Hr).
  split; [exact Hs|]. split; [exact Hr|].
  split; [|split].
  - unfold determinePriority. rewrite Hu.
    destruct Hlevel as [-> | ->]; cbn [level_eqb orb].
    + destruct (Rge_dec (criticality (pb_rest problem)) 0.9); tauto.
    + tauto.
  - intros Hcrit. unfold determinePriority. rewrite Hu, Hcrit. reflexivity.
  - apply supervisor_recommended. exact Hcan.
Qed.

Lemma lateDelivery_extracted :
  exists problem,
    ProblemRecord.extractProblem lateDeliveryMessage None [] highUrgency "web"
    = Some problem.
Proof. apply extractProblem_some. vm_compute. reflexivity. Qed.

Lemma high_urgency_is_escalated_witness :
  exists problem,
    ProblemRecord.extractProblem lateDeliveryMessage None [] highUrgency "web"
    = Some problem
    /\ shouldEscalate problem = true
    /\ determineEscalationReason problem = agent_cannot_solve.
Proof.
  destruct lateDelivery_extracted as (problem & H). exists problem.
  split; [exact H|].
  destruct (high_urgency_is_escalated lateDeliveryMessage None [] highUrgency
              "web" problem H) as (_ & Hs & Hr & _).
  - left. reflexivity.
  - split; [exact Hs|exact Hr].
Defined.

End EscalationFacts.

(** ** The ticket queue *)

Section Tickets.

Import Types ProblemExtractor ProblemRecord Escalation IdentityOperations
  Notions Examples.
Local Open Scope string_scope.
Local Open Scope list_scope.
Local Open Scope Z_scope.

Lemma by_priority_then_age_order a b :
  by_priority_then_age a b = true -> queue_order a b.
Proof.
  unfold by_priority_then_age, queue_order.
  destruct (tk_priority a), (tk_priority b); cbn; intros H;
    repeat split; intros; try discriminate; try congruence;
    apply Z.leb_le; exact H.
Qed.

Lemma by_priority_then_age_total a b :
  by_priority_then_age a b = false -> by_priority_then_age b a = true.
Proof.
  unfold by_priority_then_age.
  destruct (tk_priority a), (tk_priority b); cbn; intros H;
    try discriminate; try reflexivity;
    apply Z.leb_gt in H; apply Z.leb_le; lia.
Qed.

Lemma by_priority_then_age_trans a b c :
  by_priority_then_age a b = true -> by_priority_then_age b c = true ->
  by_priority_then_age a c = true.
Proof.
  unfold by_priority_then_age.
  destruct (tk_priority a), (tk_priority b), (tk_priority c); cbn;
    intros H1 H2; try discriminate; try reflexivity;
    apply Z.leb_le in H1, H2; apply Z.leb_le; lia.
Qed.

Lemma limit_to_In (A : Type) (limit : nat) (l : list A) (x : A) :
  In x (limit_to limit l) -> In x l.
Proof.
  unfold limit_to. destruct limit; [tauto|]. apply firstn_In.
Qed.

Lemma limit_to_all (A : Type) (limit : nat) (l : list A) :
  limit = 0%nat \/ (List.length l <= limit)%nat -> limit_to limit l = l.
Proof.
  unfold limit_to. intros [->|H]; [reflexivity|].
  destruct limit; [reflexivity|]. apply firstn_all2. exact H.
Qed.

Lemma limit_to_sorted (A : Type) (R : A -> A -> Prop) (limit : nat)
    (l : list A) :
  StronglySorted R l -> StronglySorted R (limit_to limit l).
Proof.
  unfold limit_to. destruct limit; [tauto|]. apply StronglySorted_firstn.
Qed.

Lemma limit_to_length (A : Type) (limit : nat) (l : list A) :
  limit <> 0%nat -> (List.length (limit_to limit l) <= limit)%nat.
Proof.
  unfold limit_to. destruct limit; [congruence|]. intros _.
  rewrite length_firstn. lia.
Qed.

Lemma status_eqb_true a b : status_eqb a b = true <-> a = b.
Proof. destruct a, b; simpl; split; congruence. Qed.

Lemma queue_sorted (f : EscalationTicket -> bool) tickets limit :
  StronglySorted queue_order
    (limit_to limit (Js.sort by_priority_then_age (filter f tickets))).
Proof.
  apply limit_to_sorted.
  apply StronglySorted_weaken
    with (R := fun a b => by_priority_then_age a b = true).
  - exact by_priority_then_age_order.
  - apply sort_sorted;
      [exact by_priority_then_age_total|exact by_priority_then_age_trans].
Qed.

(** X23. [getPendingEscalations] returns pending tickets of the
    collection only, at most [limit] of them, and all of them when the
    limit is 0 or large enough. The priority is stored as a string and
    sorted as one, in descending order: urgent tickets come first, then
    medium, then low, and high ones last; tickets of one priority come
    oldest first. [getCriticalEscalations] returns open tickets of
    priority urgent or high only, the urgent ones first. *)
Theorem escalation_queue_order :
  forall tickets limit,
    let queue := getPendingEscalations tickets limit in
    (forall t, In t queue -> In t tickets /\ tk_status t = pending)
    /\ (limit <> 0%nat -> (List.length queue <= limit)%nat)
    /\ (limit = 0%nat
        \/ (List.length (filter (fun t => status_eqb (tk_status t) pending)
                           tickets) <= limit)%nat ->
        forall t, In t tickets -> tk_status t = pending -> In t queue)
    /\ (forall i j a b,
          (i < j)%nat -> nth_error queue i = Some a ->
          nth_error queue j = Some b ->
          (tk_priority b = urgent -> tk_priority a = urgent)
          /\ (tk_priority a = high -> tk_priority b = high)
          /\ (tk_priority a = low -> tk_priority b <> medium)
          /\ (tk_priority a = tk_priority b ->
              tk_created_at a <= tk_created_at b))
    /\ (forall t, In t (getCriticalEscalations tickets limit) ->
                  In t tickets /\ tk_status t <> resolved
                  /\ (tk_priority t = urgent \/ tk_priority t = high))
    /\ (forall i j a b,
          (i < j)%nat ->
          nth_error (getCriticalEscalations tickets limit) i = Some a ->
          nth_error (getCriticalEscalations tickets limit) j = Some b ->
          tk_priority b = urgent -> tk_priority a = urgent).
Proof.
  intros tickets limit queue. subst queue. unfold getPendingEscalations.
  split; [|split; [|split; [|split; [|split]]]].
  - intros t Hin. apply limit_to_In, sort_In, filter_In in Hin.
    destruct Hin as [Hin Hs]. apply status_eqb_true in Hs. tauto.
  - apply limit_to_length.
  - intros Hlimit t Hin Hs. rewrite limit_to_all.
    + apply sort_In, filter_In. split; [exact Hin|].
      apply status_eqb_true. exact Hs.
    + rewrite sort_length. exact Hlimit.
  - intros i j a b Hij Ha Hb.
    exact (StronglySorted_nth _ _ _ (queue_sorted _ tickets limit)
             i j a b Hij Ha Hb).
  - intros t Hin. unfold getCriticalEscalations in Hin.
    apply limit_to_In, sort_In, filter_In in Hin. destruct Hin as [Hin Hf].
    apply andb_true_iff in Hf. destruct Hf as [Hs Hp].
    split; [exact Hin|]. split.
    + destruct (tk_status t); [discriminate..|discriminate Hs].
    + destruct (tk_priority t); try discriminate Hp; tauto.
  - intros i j a b Hij Ha Hb. unfold getCriticalEscalations in Ha, Hb.
    exact (proj1 (StronglySorted_nth _ _ _ (queue_sorted _ tickets limit)
                    i j a b Hij Ha Hb)).
Qed.

Lemma updateOne_last (f : EscalationTicket -> bool) set tickets ticket :
  (forall t, In t tickets -> f t = false) -> f ticket = true ->
  Escalation.updateOne f set (tickets ++ [ticket]) = tickets ++ [set ticket].
Proof.
  intros Hno Hyes. induction tickets as [|t tickets IH]; simpl.
  - rewrite Hyes. reflexivity.
  - rewrite (Hno t) by (left; reflexivity). rewrite IH; [reflexivity|].
    intros t' Ht'. apply Hno. right. exact Ht'.
Qed.

(** X24. A ticket just created is pending, carries the reason and the
    priority computed for the problem, and is in the pending queue; the
    tickets stored before are kept. Once its status is updated to another
    one, no ticket with its id is in the pending queue, given that no
    earlier ticket has the same id; the other tickets are still there, and
    a resolved ticket carries the time of the update. *)
Theorem ticket_life_cycle :
  forall idMs random nowMs tickets problem pseudoUserId channel
         conversationContext,
    let created :=
      createEscalationTicket idMs random nowMs tickets problem pseudoUserId
        channel conversationContext in
    let ticket := fst created in
    let stored := snd created in
    tk_status ticket = pending
    /\ tk_reason ticket = determineEscalationReason problem
    /\ tk_priority ticket = determinePriority problem
    /\ In ticket (getPendingEscalations stored 0)
    /\ (forall t, In t tickets -> In t stored)
    /\ ((forall t, In t tickets -> tk_id t <> tk_id ticket) ->
        forall laterMs status assignedTo,
          status <> pending ->
          let updated :=
            updateEscalationStatus laterMs stored (tk_id ticket) status
              assignedTo in
          (forall limit t, In t (getPendingEscalations updated limit) ->
                           tk_id t <> tk_id ticket)
          /\ (forall t, In t tickets -> In t updated)
          /\ exists t, In t updated /\ tk_id t = tk_id ticket
                       /\ tk_status t = status
                       /\ (status = resolved ->
                           tk_resolved_at t = Some (laterMs / 1000))).
Proof.
  intros idMs random nowMs tickets problem p ch ctx created ticket stored.
  subst stored ticket created. unfold createEscalationTicket.
  cbn [fst snd]. set (ticket := Build_EscalationTicket _ _ _ _ _ _ _ _ _ _ _ _).
  unfold storeEscalationTicket.
  split; [reflexivity|]. split; [reflexivity|]. split; [reflexivity|].
  split; [|split].
  - unfold getPendingEscalations, limit_to. apply sort_In, filter_In.
    split; [apply in_or_app; right; left; reflexivity|reflexivity].
  - intros t Ht. apply in_or_app. left. exact Ht.
  - intros Hfresh laterMs status assignedTo Hstatus.
    unfold updateEscalationStatus. rewrite updateOne_last.
    + split; [|split].
      * intros limit t Hin Hid. unfold getPendingEscalations in Hin.
        apply limit_to_In, sort_In, filter_In in Hin. destruct Hin as [Hin Hs].
        apply in_app_or in Hin. destruct Hin as [Hin|[<-|[]]].
        -- exact (Hfresh t Hin Hid).
        -- cbn [apply_update tk_status] in Hs. apply status_eqb_true in Hs.
           contradiction.
      * intros t Ht. apply in_or_app. left. exact Ht.
      * exists (apply_update laterMs status assignedTo ticket).
        split; [apply in_or_app; right; left; reflexivity|].
        split; [reflexivity|]. split; [reflexivity|].
        intros ->. reflexivity.
    + intros t Ht. apply String.eqb_neq. apply Hfresh. exact Ht.
    + apply String.eqb_refl.
Qed.

End Tickets.

(** ** Retrieval and the resolution stage of the store route *)

Section RouteFacts.

Import Types IdentityLinker MemoryStorage StoreRoute Notions Examples.
Local Open Scope string_scope.
Local Open Scope list_scope.

Lemma insert_by_timestamp_eq x sorted :
  insert_by_timestamp x sorted = Js.insert_sorted not_later x sorted.
Proof.
  induction sorted as [|y rest IH]; simpl; [reflexivity|].
  unfold not_later at 1. rewrite IH. reflexivity.
Qed.

Lemma sort_by_timestamp_desc_eq vectors :
  sort_by_timestamp_desc vectors = Js.sort not_later vectors.
Proof.
  unfold sort_by_timestamp_desc, Js.sort. generalize (@nil RedisVectorPoint).
  induction vectors as [|x l IH]; intros acc; simpl; [reflexivity|].
  rewrite insert_by_timestamp_eq. apply IH.
Qed.

Lemma sort_by_timestamp_desc_sorted vectors :
  StronglySorted (fun a b => (rv_timestamp b <= rv_timestamp a)%Z)
    (sort_by_timestamp_desc vectors).
Proof.
  rewrite sort_by_timestamp_desc_eq.
  apply StronglySorted_weaken with (R := fun a b => not_later a b = true).
  - intros a b H. apply Z.leb_le. exact H.
  - apply sort_sorted; unfold not_later.
    + intros a b H. apply Z.leb_gt in H. apply Z.leb_le. lia.
    + intros a b c H1 H2. apply Z.leb_le in H1, H2. apply Z.leb_le. lia.
Qed.

Lemma sort_by_timestamp_desc_perm vectors :
  Permutation (sort_by_timestamp_desc vectors) vectors.
Proof. rewrite sort_by_timestamp_desc_eq. apply sort_perm. Qed.


Lemma retrieveRelevantVectors_returns env queryVector limit :
  exists r, retrieveRelevantVectors env queryVector limit = Returned r.
Proof. apply try_catch_returns. Qed.


Lemma map_results_spec queryVector results vectors :
  map_results queryVector results = Returned vectors ->
  Forall (fun v => rv_intent_vector v = queryVector) vectors
  /\ List.length vectors = List.length results.
Proof.
  revert vectors. induction results as [|r results IH]; intros vectors; simpl.
  - intros [= <-]. split; [constructor|reflexivity].
  - destruct (result_metadata r) as [m|]; [|discriminate].
    destruct (map_results queryVector results) as [others|e]; simpl;
      [|discriminate].
    intros [= <-]. destruct (IH others eq_refl) as (Hall & Hlen).
    split; [constructor; [reflexivity|exact Hall]|simpl; congruence].
Qed.

Lemma map_results_total queryVector results :
  Forall (fun r => result_metadata r <> None) results ->
  exists vectors, map_results queryVector results = Returned vectors.
Proof.
  induction 1 as [|r results Hr _ IH]; simpl; [eexists; reflexivity|].
  destruct (result_metadata r) as [m|]; [|congruence].
  destruct IH as (others & ->). simpl. eexists. reflexivity.
Qed.

Lemma retrieveRelevantVectors_spec env queryVector limit vectors :
  retrieveRelevantVectors env queryVector limit = Returned vectors ->
  StronglySorted (fun a b => (rv_timestamp b <= rv_timestamp a)%Z) vectors
  /\ Forall (fun v => rv_intent_vector v = queryVector) vectors.
Proof.
  unfold retrieveRelevantVectors.
  destruct (getVectorIndex env) as [vectorIndex|e]; simpl;
    [|intros [= <-]; split; constructor].
  destruct (query vectorIndex queryVector limit) as [results|e]; simpl;
    [|intros [= <-]; split; constructor].
  destruct (map_results queryVector results) as [mapped|e] eqn:E; simpl;
    [|intros [= <-]; split; constructor].
  intros [= <-]. split; [apply sort_by_timestamp_desc_sorted|].
  destruct (map_results_spec _ _ _ E) as (Hall & _).
  rewrite Forall_forall in Hall |- *. intros v Hv. apply Hall.
  apply (Permutation_in _ (sort_by_timestamp_desc_perm mapped)). exact Hv.
Qed.

(** X25. [retrieveRelevantVectors] always returns. Its result is ordered
    latest first, and every point carries the query vector as its intent
    vector. It has as many points as the index returned when every result
    has its metadata, and it is empty as soon as one result has none. *)
Theorem relevant_vectors_latest_first :
  forall env queryVector limit,
    exists vectors,
      retrieveRelevantVectors env queryVector limit = Returned vectors
      /\ StronglySorted (fun a b => (rv_timestamp b <= rv_timestamp a)%Z)
           vectors
      /\ Forall (fun v => rv_intent_vector v = queryVector) vectors
      /\ (forall vectorIndex results,
            getVectorIndex env = Returned vectorIndex ->
            query vectorIndex queryVector limit = Returned results ->
            (Forall (fun r => result_metadata r <> None) results ->
             List.length vectors = List.length results)
            /\ (Exists (fun r => result_metadata r = None) results ->
                vectors = [])).
Proof.
  intros env queryVector limit.
  destruct (retrieveRelevantVectors_returns env queryVector limit)
    as (vectors & Hv).
  exists vectors. split; [exact Hv|].
  destruct (retrieveRelevantVectors_spec _ _ _ _ Hv) as (Hs & Hq).
  split; [exact Hs|]. split; [exact Hq|].
  intros vectorIndex results Hi Hr. unfold retrieveRelevantVectors in Hv.
  rewrite Hi in Hv. simpl in Hv. rewrite Hr in Hv. simpl in Hv. split.
  - intros Hall. destruct (map_results_total queryVector results Hall)
      as (mapped & Hm).
    rewrite Hm in Hv. simpl in Hv. injection Hv as <-.
    destruct (map_results_spec _ _ _ Hm) as (_ & <-).
    apply Permutation_length. apply sort_by_timestamp_desc_perm.
  - intros Hex.
    assert (Hm : exists e, map_results queryVector results = Threw e).
    { clear -Hex. induction Hex as [r results Hr|r results _ IH]; simpl.
      - rewrite Hr. eexists. reflexivity.
      - destruct (result_metadata r); [|eexists; reflexivity].
        destruct IH as (e & ->). simpl. eexists. reflexivity. }
    destruct Hm as (e & Hm). rewrite Hm in Hv. simpl in Hv. congruence.
Qed.







Lemma historicalMessages_nil : historicalMessages [] = [].
Proof. reflexivity. Qed.

(** X27. In the store route a match needs long-term memory: when the
    long-term search returns nothing there is no historical message, and
    [linkIdentity] mints a new id whatever the short-term vector search
    returned. The confidence recorded for the link is 0.85 exactly when
    there is a candidate, and 1 otherwise. *)
Theorem store_route_needs_long_term_memory :
  forall rand pos embeddings envelope existingVectors,
    resolveIdentity rand pos embeddings envelope existingVectors []
    = generatePseudoUserId rand pos
    /\ (matchConfidence existingVectors [] == 0.85 <-> existingVectors <> [])%Q
    /\ (matchConfidence existingVectors [] == 1 <-> existingVectors = [])%Q.
Proof.
  intros rand pos emb envelope vs. split; [|split].
  - unfold resolveIdentity. rewrite historicalMessages_nil.
    apply no_match_mints. apply weak_signal_no_match. left. reflexivity.
  - unfold matchConfidence. destruct vs; cbn; split; try congruence;
      try discriminate; intros _; reflexivity.
  - unfold matchConfidence. destruct vs; cbn; split; try congruence;
      try discriminate; intros _; reflexivity.
Qed.

End RouteFacts.

(** ** The memory block and the session envelope *)

Section Envelope.

Import Types MemoryRetrieval SessionEnvelope Notions Examples.
Local Open Scope string_scope.
Local Open Scope list_scope.

Lemma join_head sep c x rest :
  exists tail, Js.join sep (String c x :: rest) = String c tail.
Proof.
  destruct rest as [|y rest]; simpl; eexists; reflexivity.
Qed.

Lemma join_starts_with sep (parts : list string) c x more :
  parts = String c x :: more ->
  exists tail, Js.join sep parts = String c tail.
Proof. intros ->. apply join_head. Qed.

Ltac block_has_context H :=
  unfold generateMemoryBlock in H;
  cbn [List.length Nat.ltb Nat.leb app messages] in H;
  unfold vectors_heading, history_heading, nl in H; cbn [append] in H;
  match type of H with
  | context [Js.join ?sep (String ?c ?x :: ?rest)] =>
      let tail := fresh "tail" in
      let Ht := fresh "Ht" in
      destruct (join_head sep c x rest) as (tail & Ht); rewrite Ht in H
  end;
  discriminate H.

(** X28. [generateMemoryBlock] answers [No previous context found.]
    exactly when there is no recent message, no similar interaction and no
    long-term memory. *)
Theorem memory_block_without_context :
  forall shortTerm vectors longTerm,
    generateMemoryBlock shortTerm vectors longTerm
    = "No previous context found."
    <-> (shortTerm = None \/ exists st, shortTerm = Some st /\ messages st = [])
        /\ vectors = [] /\ longTerm = [].
Proof.
  intros shortTerm vectors longTerm. split.
  - intros H.
    destruct shortTerm as [[[|m ms] iv fl]|]; cbn [messages] in *;
      destruct vectors as [|v vs]; destruct longTerm as [|l ls];
      try (exfalso; block_has_context H).
    + split; [right; eexists; split; reflexivity|]. split; reflexivity.
    + split; [left; reflexivity|]. split; reflexivity.
  - intros (Hst & -> & ->).
    destruct Hst as [->|(st & -> & E)]; unfold generateMemoryBlock;
      [|rewrite E]; reflexivity.
Qed.






Lemma includes_colon_cons c s :
  Js.includes (String c s) ":" = false ->
  c <> ":"%char /\ Js.includes s ":" = false.
Proof.
  rewrite includes_cons. cbn [prefix].
  destruct (ascii_dec ":" c) as [<-|Hne].
  - destruct s; discriminate.
  - intros H. split; [congruence|exact H].
Qed.

Lemma colon_split (c1 c2 h1 h2 : string) :
  Js.includes c1 ":" = false -> Js.includes c2 ":" = false ->
  (c1 ++ ":" ++ h1 = c2 ++ ":" ++ h2)%string -> c1 = c2 /\ h1 = h2.
Proof.
  revert c2. induction c1 as [|a c1 IH]; intros [|d c2] H1 H2 E.
  - simpl in E. injection E as E. tauto.
  - apply includes_colon_cons in H2. simpl in E. injection E as E _.
    destruct H2 as [H2 _]. congruence.
  - apply includes_colon_cons in H1. simpl in E. injection E as E _.
    destruct H1 as [H1 _]. congruence.
  - apply includes_colon_cons in H1, H2. simpl in E. injection E as -> E.
    destruct (IH c2 (proj2 H1) (proj2 H2) E) as [-> ->]. tauto.
Qed.

(** X30. Session ids tell sessions apart: for channel names without a
    colon, as those of the five channels are, two session ids are equal
    exactly when the channels are and the hashed user ids are. *)
Theorem session_ids_are_injective :
  forall channel1 hashedUserId1 channel2 hashedUserId2,
    Js.includes channel1 ":" = false -> Js.includes channel2 ":" = false ->
    (generateSessionId channel1 hashedUserId1
     = generateSessionId channel2 hashedUserId2
     <-> channel1 = channel2 /\ hashedUserId1 = hashedUserId2).
Proof.
  intros c1 h1 c2 h2 H1 H2. split.
  - intros E. unfold generateSessionId in E.
    simpl in E. injection E as E. apply colon_split; assumption.
  - intros [-> ->]. reflexivity.
Qed.

Lemma channels_without_colon :
  forallb (fun c => negb (Js.includes c ":")) channels = true.
Proof. vm_compute. reflexivity. Qed.

Lemma session_ids_are_injective_witness :
  generateSessionId "web" "hashed_user123"
  = generateSessionId "whatsapp" "hashed_user123"
  <-> "web" = "whatsapp" /\ "hashed_user123" = "hashed_user123".
Proof.
  apply (session_ids_are_injective "web" "hashed_user123" "whatsapp"
           "hashed_user123"); reflexivity.
Defined.

End Envelope.
